(** * RangeMap: stabbing queries over half-open intervals

    A shallow embedding of [RangeMap.h] (class [RangeMap<T>], its
    operations [Build] and [Query]) and of the brute-force oracle
    [SlowCheck] of [RMTest.cpp], together with the properties the
    specification states about them.

    Modelling decisions.
    - The code only compares values of the numeric domain [T] ([==], [!=],
      [<], [>], [>=]); a value of [T] is modelled by an integer, [Z], and
      the two constants [MINV], [MAXV] of [Build] (the least and the
      greatest value of [T]) are parameters of the development.  Every
      array element and every query point is a value of [T], hence lies
      in [[MINV, MAXV]]; theorems that need it say so ([in_T],
      [arrays_ok]).  [RangeMap<int>] is the instance [INT_MIN], [INT_MAX].
    - The arrays [S] and [E] are lists, named [S_] and [E_] ([S] is the
      successor of [nat]); a null pointer is [None].
    - [size_t] indices and counts are [nat]; the arrays hold [N] elements
      in memory, so [NF * 2 + 2] does not wrap.
    - [std::vector] is a list of elements with a capacity ([Vec.t]), so
      that the [PUSHBACK] assertion can be stated.
    - [assert] aborts the program unless it was compiled with [NDEBUG];
      [Build] returns [Abort f] when assertion [f] fails, and the flag
      [NDEBUG] is a parameter.
    - [std::set<size_t>] is the list of its elements in iteration
      (ascending) order.
    - [std::sort] is not stable: the order of entries with equal keys is
      unspecified.  [Build] uses one sort ([std_sort]); the part of
      [Build] that follows the two calls of [std::sort] is [Build_tables],
      stated for arbitrary sorted arrays [SS], [SE].
    - [std::lower_bound] is the binary search of the standard library.
    - The loops run on fuel that covers their iterations: the sweep is
      shown to leave each loop by its condition.
    - An access out of the bounds of a vector in [Query] is [None]. *)

From Stdlib Require Import ZArith List Bool Arith Lia Permutation Sorted.
Import ListNotations.

Set Implicit Arguments.

(** ** Results of code that may fail an assertion

    [Abort LoopFuel] is not an outcome of the program: the model of the
    sweep loop gives it if its fuel ends while the loop condition holds
    ([sweep_loop_spec] shows that it never does). *)

Inductive failure : Type :=
| CapacityAssert   (* the assertion of PUSHBACK *)
| TabAssert        (* assert(Tab.size() < 2 || Tab[..-1] != Tab[..-2]) *)
| IListAssert      (* assert(IList.size() < 2 || IList[..-1] != IList[..-2]) *)
| LoopFuel.        (* no assertion: the fuel of the sweep loop ran out *)

Inductive result (A : Type) : Type :=
| Ok (a : A)
| Abort (f : failure).

Arguments Ok {A} a.
Arguments Abort {A} f.

Definition bind {A B : Type} (m : result A) (k : A -> result B) : result B :=
  match m with
  | Ok a => k a
  | Abort f => Abort f
  end.

Notation "x <- m ;; k" := (bind m (fun x => k))
  (at level 61, m at next level, right associativity).
Notation "m ;;; k" := (bind m (fun _ => k))
  (at level 61, right associativity).

(** ** std::vector *)

Module Vec.

Record t (A : Type) : Type := mk { elems : list A; capacity : nat }.

Definition empty (A : Type) : t A := mk [] 0.

Definition size {A} (v : t A) : nat := length (elems v).

Definition clear {A} (v : t A) : t A := mk [] (capacity v).

Definition reserve {A} (v : t A) (n : nat) : t A :=
  mk (elems v) (Nat.max (capacity v) n).

(* push_back reallocates (doubling) when the vector is full *)
Definition push_back {A} (v : t A) (a : A) : t A :=
  mk (elems v ++ [a])
     (if size v <? capacity v then capacity v
      else Nat.max 1 (2 * capacity v)).

Definition sorted_by {A} (f : list A -> list A) (v : t A) : t A :=
  mk (f (elems v)) (capacity v).

End Vec.

(** ** std::set<size_t>, as the ascending list of its elements *)

Fixpoint set_insert (x : nat) (s : list nat) : list nat :=
  match s with
  | [] => [x]
  | y :: s' =>
      if x <? y then x :: s
      else if x =? y then s
      else y :: set_insert x s'
  end.

Fixpoint set_erase (x : nat) (s : list nat) : list nat :=
  match s with
  | [] => []
  | y :: s' => if x =? y then s' else y :: set_erase x s'
  end.

(** ** std::sort, with a comparator [lt]: an insertion sort *)

Fixpoint sort_insert (lt : nat -> nat -> bool) (x : nat) (l : list nat)
  : list nat :=
  match l with
  | [] => [x]
  | y :: l' => if lt y x then y :: sort_insert lt x l' else x :: l
  end.

Fixpoint std_sort (lt : nat -> nat -> bool) (l : list nat) : list nat :=
  match l with
  | [] => []
  | x :: l' => sort_insert lt x (std_sort lt l')
  end.

(** ** std::lower_bound(first, last, p), the binary search of the standard
    library (libstdc++, libc++): [first] and [len] delimit the range left
    to search, and [len] at least halves at every iteration *)

Fixpoint lower_bound_loop (fuel : nat) (l : list Z) (p : Z)
         (first len : nat) : nat :=
  match fuel with
  | O => first
  | S fuel' =>
      if 0 <? len then
        let half := len / 2 in
        let middle := first + half in
        if (nth middle l 0 <? p)%Z
        then lower_bound_loop fuel' l p (middle + 1) (len - half - 1)
        else lower_bound_loop fuel' l p first half
      else first
  end.

Definition lower_bound (l : list Z) (p : Z) : nat :=
  lower_bound_loop (length l) l p 0 (length l).

(** Array reads: [a[i]] for an array of [T], [a[k]] for an array of
    indices, [v[z]] for a vector indexed by a (possibly wrapped) offset. *)

Definition rd (a : list Z) (i : nat) : Z := nth i a 0%Z.
Definition ix (a : list nat) (k : nat) : nat := nth k a 0.

Definition at_offset {A} (l : list A) (z : Z) : option A :=
  if (z <? 0)%Z then None else nth_error l (Z.to_nat z).

Definition list_eqb (a b : list nat) : bool :=
  if list_eq_dec Nat.eq_dec a b then true else false.

(** ** The class *)

Record RangeMap : Type := mkRangeMap {
  Tab : Vec.t Z;               (* Internal table for searching intervals *)
  IList : Vec.t (list nat)     (* Internal list containing sets *)
}.

(* Convenience member for returning empty sets *)
Definition Empty : list nat := [].

(* A default-constructed RangeMap *)
Definition fresh : RangeMap := mkRangeMap (Vec.empty Z) (Vec.empty (list nat)).

(* The local variables of the sweep, with the two tables *)
Record sweep_state : Type := mkSweep {
  i1 : nat;            (* Start point index *)
  i2 : nat;            (* end point index *)
  AS : list nat;       (* Active set *)
  tables : RangeMap
}.

Section RangeMap.

Variable NDEBUG : bool.
Variables MINV MAXV : Z.

Definition assert_ (c : bool) (f : failure) : result unit :=
  if NDEBUG || c then Ok tt else Abort f.

(* #define PUSHBACK(X, Y) assert(X.capacity() > X.size()); X.push_back(Y) *)
Definition PUSHBACK {A} (X : Vec.t A) (Y : A) : result (Vec.t A) :=
  assert_ (Vec.size X <? Vec.capacity X) CapacityAssert ;;;
  Ok (Vec.push_back X Y).

Section Build.

Variables S_ E_ : list Z.

(* for (size_t i = 0; i < N; ++i) if (S[i] != E[i]) { ... };
   [n] is the number of iterations left, N - i *)
Fixpoint filter_loop (n i : nat) (SS SE : Vec.t nat)
  : result (Vec.t nat * Vec.t nat) :=
  match n with
  | O => Ok (SS, SE)
  | S n' =>
      if negb (rd S_ i =? rd E_ i)%Z then
        SS' <- PUSHBACK SS i ;;
        SE' <- PUSHBACK SE i ;;
        filter_loop n' (i + 1) SS' SE'
      else filter_loop n' (i + 1) SS SE
  end.

Section Sweep.

Variables SS SE : list nat.

Let NF : nat := length SS.

(* while ((i1 < NF) && (S[SS[i1]] == v)) AS.insert(SS[i1++]);
   at most NF - i1 iterations *)
Fixpoint open_loop (fuel : nat) (v : Z) (i : nat) (s : list nat)
  : nat * list nat :=
  match fuel with
  | O => (i, s)
  | S fuel' =>
      if (i <? NF) && (rd S_ (ix SS i) =? v)%Z
      then open_loop fuel' v (i + 1) (set_insert (ix SS i) s)
      else (i, s)
  end.

(* while ((i2 < NF) && (E[SE[i2]] == v)) AS.erase(SE[i2++]);
   at most NF - i2 iterations *)
Fixpoint close_loop (fuel : nat) (v : Z) (i : nat) (s : list nat)
  : nat * list nat :=
  match fuel with
  | O => (i, s)
  | S fuel' =>
      if (i <? NF) && (rd E_ (ix SE i) =? v)%Z
      then close_loop fuel' v (i + 1) (set_erase (ix SE i) s)
      else (i, s)
  end.

(* The next value to merge into the table *)
Definition next_value (st : sweep_state) : Z :=
  if (NF <=? i1 st)
     || ((i2 st <? NF)
         && (rd S_ (ix SS (i1 st)) >=? rd E_ (ix SE (i2 st)))%Z)
  then rd E_ (ix SE (i2 st))
  else rd S_ (ix SS (i1 st)).

Definition last_differs_Z (v : Vec.t Z) : bool :=
  (Vec.size v <? 2)
  || negb (nth (Vec.size v - 1) (Vec.elems v) 0
           =? nth (Vec.size v - 2) (Vec.elems v) 0)%Z.

Definition last_differs_set (v : Vec.t (list nat)) : bool :=
  (Vec.size v <? 2)
  || negb (list_eqb (nth (Vec.size v - 1) (Vec.elems v) [])
                    (nth (Vec.size v - 2) (Vec.elems v) [])).

(* One iteration of the loop over each value start and end point *)
Definition sweep_body (st : sweep_state) : result sweep_state :=
  let v := next_value st in
  let '(j1, s1) := open_loop (NF - i1 st) v (i1 st) (AS st) in
  let '(j2, s2) := close_loop (NF - i2 st) v (i2 st) s1 in
  T <- PUSHBACK (Tab (tables st)) v ;;
  I <- PUSHBACK (IList (tables st)) s2 ;;
  assert_ (last_differs_Z T) TabAssert ;;;
  assert_ (last_differs_set I) IListAssert ;;;
  Ok (mkSweep j1 j2 s2 (mkRangeMap T I)).

(* while ((i1 < NF) || (i2 < NF)) { ... }; every iteration advances
   i1 or i2, so there are at most NF + NF of them *)
Fixpoint sweep_loop (fuel : nat) (st : sweep_state)
  : result sweep_state :=
  match fuel with
  | O => if (i1 st <? NF) || (i2 st <? NF) then Abort LoopFuel else Ok st
  | S fuel' =>
      if (i1 st <? NF) || (i2 st <? NF) then
        st' <- sweep_body st ;;
        sweep_loop fuel' st'
      else Ok st
  end.

(* [Build] from "Clear and reserve space" on, for the sorted
   arrays SS and SE *)
Definition Build_tables (rm : RangeMap) : result RangeMap :=
  let Tab0 := Vec.reserve (Vec.clear (Tab rm)) (NF * 2 + 2) in
  let IList0 := Vec.reserve (Vec.clear (IList rm)) (NF * 2 + 2) in
  (* Starting point interval *)
  rm1 <- (if (0 =? NF) || (rd S_ (ix SS 0) >? MINV)%Z then
            T <- PUSHBACK Tab0 MINV ;;
            I <- PUSHBACK IList0 Empty ;;
            Ok (mkRangeMap T I)
          else Ok (mkRangeMap Tab0 IList0)) ;;
  st <- sweep_loop (NF + NF) (mkSweep 0 0 [] rm1) ;;
  (* Endpoint interval *)
  if (0 =? NF) || (rd E_ (ix SE (NF - 1)) <? MAXV)%Z then
    T <- PUSHBACK (Tab (tables st)) MAXV ;;
    I <- PUSHBACK (IList (tables st)) Empty ;;
    Ok (mkRangeMap T I)
  else Ok (tables st).

End Sweep.

End Build.

(** [Build(S, E, N)]: a null pointer is [None]. *)
Definition Build (rm : RangeMap) (S_ E_ : option (list Z)) (N : nat)
  : result RangeMap :=
  match S_, E_ with
  | Some S_, Some E_ =>
      if N =? 0 then Ok rm
      else
        f <- filter_loop S_ E_ N 0
               (Vec.reserve (Vec.empty nat) N)
               (Vec.reserve (Vec.empty nat) N) ;;
        let SS := Vec.sorted_by
                    (std_sort (fun a b => (rd S_ a <? rd S_ b)%Z)) (fst f) in
        let SE := Vec.sorted_by
                    (std_sort (fun a b => (rd E_ a <? rd E_ b)%Z)) (snd f) in
        Build_tables S_ E_ (Vec.elems SS) (Vec.elems SE) rm
  | _, _ => Ok rm
  end.

(** [Query(p)] *)
Definition Query (rm : RangeMap) (p : Z) : option (list nat) :=
  let It := lower_bound (Vec.elems (Tab rm)) p in
  if It <? Vec.size (Tab rm) then
    at_offset (Vec.elems (IList rm))
      (Z.of_nat It
       - Z.b2z (nth It (Vec.elems (Tab rm)) 0 >? p)%Z)%Z
  else Some Empty.

End RangeMap.

(** [SlowCheck] of RMTest.cpp: the brute-force oracle *)
Definition SlowCheck (x : Z) (S_ E_ : list Z) (N : nat) : list nat :=
  filter (fun i => (rd S_ i <=? x)%Z && (x <? rd E_ i)%Z) (seq 0 N).

(** [RangeMap<int>] *)
Definition INT_MIN : Z := -2147483648.
Definition INT_MAX : Z := 2147483647.

(** ** The arguments of Build, and the states of an object *)

(* The indices SS and SE hold before they are sorted *)
Definition filtered (S_ E_ : list Z) (N : nat) : list nat :=
  filter (fun i => negb (rd S_ i =? rd E_ i)%Z) (seq 0 N).

(* The postcondition of std::sort(l, [key](a, b) { key[a] < key[b] }) *)
Definition key_sorted (key : nat -> Z) (l : list nat) : Prop :=
  StronglySorted (fun a b => (key a <= key b)%Z) l.

(* [l] is a result of sorting the indices [F] by [key] *)
Definition is_argsort (key : nat -> Z) (F l : list nat) : Prop :=
  Permutation F l /\ key_sorted key l.

(* Tab[0] < Tab[1] < ... < Tab[m-1] *)
Definition strictly_increasing (l : list Z) : Prop :=
  forall k, k + 1 < length l -> (nth k l 0 < nth (k + 1) l 0)%Z.

Section Domain.

Variable NDEBUG : bool.
Variables MINV MAXV : Z.

(* A value of the type T *)
Definition in_T (z : Z) : bool := (MINV <=? z)%Z && (z <=? MAXV)%Z.

(* S and E point to arrays of at least N values of T *)
Definition arrays_ok (S_ E_ : list Z) (N : nat) : bool :=
  (N <=? length S_) && (N <=? length E_)
  && forallb (fun i => in_T (rd S_ i) && in_T (rd E_ i)) (seq 0 N).

(* Every interval is of the form [a, b): its start is not above its end *)
Definition intervals_ok (S_ E_ : list Z) (N : nat) : bool :=
  forallb (fun i => (rd S_ i <=? rd E_ i)%Z) (seq 0 N).

(* The arguments of a call of Build *)
Definition call_ok (S_ E_ : option (list Z)) (N : nat) : bool :=
  match S_, E_ with
  | Some s, Some e => arrays_ok s e N
  | _, _ => true
  end.

(* ... whose intervals have their start at or below their end *)
Definition call_intervals_ok (S_ E_ : option (list Z)) (N : nat) : bool :=
  match S_, E_ with
  | Some s, Some e => arrays_ok s e N && intervals_ok s e N
  | _, _ => true
  end.

(* The states of a RangeMap object: default-constructed, then any calls
   of Build that return *)
Inductive reachable : RangeMap -> Prop :=
| reach_fresh : reachable fresh
| reach_Build (rm : RangeMap) (S_ E_ : option (list Z)) (N : nat)
              (rm' : RangeMap) :
    reachable rm -> call_ok S_ E_ N = true ->
    Build NDEBUG MINV MAXV rm S_ E_ N = Ok rm' ->
    reachable rm'.

End Domain.


(** * RMTest.cpp: the test driver

    [RunTest<T>] for an integral type [T].  The calls of [rand()] are a
    stream [rand]: [rand c] is the value of call number [c], an [int]
    that is not negative; the number of calls made so far is threaded
    through the test cases.  Arithmetic on [int] and on [T] is checked:
    a division by zero and an overflow of a signed type are [Undefined],
    an unsigned type wraps.  The timings [tSum1], [tSum2] read the
    system clock and take no part in the result; they are left out.  The
    loop over the query points runs on [fuel], and is [OutOfFuel] if the
    fuel ends while its condition holds. *)

(* How an execution of RunTest goes on *)
Inductive exec (A : Type) : Type :=
| Goes (a : A)          (* on to the next statement, with a value *)
| Returns (b : bool)    (* RunTest returns b *)
| Aborts (f : failure)  (* an assertion of Build fails *)
| Undefined             (* the behaviour is undefined *)
| OutOfFuel.

Arguments Goes {A} a.
Arguments Returns {A} b.
Arguments Aborts {A} f.
Arguments Undefined {A}.
Arguments OutOfFuel {A}.

Definition exec_bind {A B : Type} (m : exec A) (k : A -> exec B) : exec B :=
  match m with
  | Goes a => k a
  | Returns b => Returns b
  | Aborts f => Aborts f
  | Undefined => Undefined
  | OutOfFuel => OutOfFuel
  end.

Notation "x <~ m ;; k" := (exec_bind m (fun x => k))
  (at level 61, m at next level, right associativity).
Notation "m ;;~ k" := (exec_bind m (fun _ => k))
  (at level 61, right associativity).

Definition of_result {A} (r : result A) : exec A :=
  match r with
  | Ok a => Goes a
  | Abort f => Aborts f
  end.

Definition of_option {A} (o : option A) : exec A :=
  match o with
  | Some a => Goes a
  | None => Undefined
  end.

(** ** The type T *)

Record numeric : Type := mkNumeric {
  min_ : Z;              (* numeric_limits<T>::min() *)
  max_ : Z;              (* numeric_limits<T>::max() *)
  of_int : Z -> Z;       (* the conversion of an int to T *)
  arith : Z -> option Z  (* the value of an expression of type T whose
                            exact result is z; None if it is undefined *)
}.

Definition UINT_MAX : Z := 4294967295.

(* int: overflow is undefined *)
Definition int_ : numeric :=
  mkNumeric INT_MIN INT_MAX (fun a => a)
    (fun z => if in_T INT_MIN INT_MAX z then Some z else None).

(* unsigned int: arithmetic modulo 2^32 *)
Definition unsigned_int : numeric :=
  mkNumeric 0 UINT_MAX (fun a => (a mod (UINT_MAX + 1))%Z)
    (fun z => Some (z mod (UINT_MAX + 1))%Z).

(** ** Arithmetic on int *)

Definition int_of (z : Z) : exec Z :=
  if in_T INT_MIN INT_MAX z then Goes z else Undefined.

(* a % b *)
Definition int_rem (a b : Z) : exec Z :=
  if (b =? 0)%Z || ((a =? INT_MIN)%Z && (b =? -1)%Z) then Undefined
  else Goes (Z.rem a b).

(* v[j] = a *)
Definition assign (v : list Z) (j : nat) (a : Z) : exec (list Z) :=
  if j <? length v then Goes (firstn j v ++ a :: skipn (j + 1) v)
  else Undefined.

Section RunTest.

Variable NDEBUG : bool.
Variable T : numeric.
Variable rand : nat -> nat.
Variable MAXA : Z.

(* for (int j = 0; j < ni; ++j) { a = ...; b = ...; S[j] = a; E[j] = b; }
   [n] is the number of iterations left, ni - j, and [c] the number of
   calls of rand() so far *)
Fixpoint generate (n j c : nat) (S_ E_ : list Z)
  : exec (list Z * list Z * nat) :=
  match n with
  | O => Goes (S_, E_, c)
  | S n' =>
      a <~ int_rem (Z.of_nat (rand c)) MAXA ;;
      d <~ int_of (MAXA - a) ;;
      r <~ int_rem (Z.of_nat (rand (c + 1))) d ;;
      b <~ int_of (r + a) ;;
      S' <~ assign S_ j (of_int T a) ;;
      E' <~ assign E_ j (of_int T b) ;;
      generate n' (j + 1) (c + 2) S' E'
  end.

(* Generate a random test case: its size and its two vectors *)
Definition random_case (c : nat) : exec (nat * list Z * list Z * nat) :=
  r <~ int_rem (Z.of_nat (rand c)) 99 ;;
  ni <~ int_of (r + 1) ;;
  let N := Z.to_nat ni in
  g <~ generate N 0 (c + 1) (repeat 0%Z N) (repeat 0%Z N) ;;
  Goes (N, fst (fst g), snd (fst g), snd g).

(* Get min and max values for testing ranges:
   for (int i = 1; i < ni; ++i) { ... }, [cnt] iterations left *)
Fixpoint min_max (cnt i : nat) (S_ E_ : list Z) (n x : Z) : Z * Z :=
  match cnt with
  | O => (n, x)
  | S cnt' =>
      min_max cnt' (i + 1) S_ E_
        (if (rd S_ i <? n)%Z then rd S_ i else n)
        (if (rd E_ i >? x)%Z then rd E_ i else x)
  end.

(* s1 = rm.Query(p); s2 = SlowCheck<T>(p, S, E, ni);
   if (s1 != s2) return false; *)
Definition check (rm : RangeMap) (S_ E_ : list Z) (ni : nat) (p : Z)
  : exec unit :=
  s1 <~ of_option (Query rm p) ;;
  if negb (list_eqb s1 (SlowCheck p S_ E_ ni)) then Returns false
  else Goes tt.

(* for (T i = ...; i <= (x + 1); ++i) { ... }, from the test of its
   condition at [i] on *)
Fixpoint range_loop (fuel : nat) (rm : RangeMap) (S_ E_ : list Z)
         (ni : nat) (x i : Z) {struct fuel} : exec unit :=
  hi <~ of_option (arith T (x + 1)) ;;
  if (i <=? hi)%Z then
    match fuel with
    | O => OutOfFuel
    | S fuel' =>
        check rm S_ E_ ni i ;;~
        i' <~ of_option (arith T (i + 1)) ;;
        range_loop fuel' rm S_ E_ ni x i'
    end
  else Goes tt.

(* The tests of one case, on the object built from it *)
Definition run_queries (fuel : nat) (rm : RangeMap) (S_ E_ : list Z)
           (ni : nat) : exec unit :=
  let nx := min_max (ni - 1) 1 S_ E_ (rd S_ 0) (rd E_ 0) in
  (* Test absolute maximum value *)
  check rm S_ E_ ni (max_ T) ;;~
  (* Test absolute minimum value *)
  check rm S_ E_ ni (min_ T) ;;~
  (* Test from (min - 1) to (max + 1) *)
  i <~ of_option (arith T (fst nx - 1)) ;;
  range_loop fuel rm S_ E_ ni (snd nx) i.

(* One iteration of the loop over each random test case *)
Definition test_case (fuel c : nat) : exec nat :=
  g <~ random_case c ;;
  let '(ni, S_, E_, c') := g in
  rm <~ of_result
          (Build NDEBUG (min_ T) (max_ T) fresh (Some S_) (Some E_) ni) ;;
  run_queries fuel rm S_ E_ ni ;;~
  Goes c'.

(* for (int k = 0; k < nt; ++k), [k] iterations left *)
Fixpoint RunTest_loop (k fuel c : nat) : exec nat :=
  match k with
  | O => Goes c
  | S k' => c' <~ test_case fuel c ;; RunTest_loop k' fuel c'
  end.

Definition RunTest (nt : Z) (fuel : nat) : exec unit :=
  RunTest_loop (Z.to_nat nt) fuel 0 ;;~ Returns true.

End RunTest.


(** * Properties *)

(** ** Strictly sorted lists represent sets *)

Section SortedLists.

Variable A : Type.
Variable R : A -> A -> Prop.
Hypothesis R_irrefl : forall x, ~ R x x.
Hypothesis R_trans : forall x y z, R x y -> R y z -> R x z.

Lemma sorted_head_lt (x : A) (l : list A) (y : A) :
  StronglySorted R (x :: l) -> In y l -> R x y.
Proof.
  intros Hs Hy. apply StronglySorted_inv in Hs. destruct Hs as [_ Hall].
  rewrite Forall_forall in Hall. now apply Hall.
Qed.

Lemma sorted_ext (a b : list A) :
  StronglySorted R a -> StronglySorted R b ->
  (forall x, In x a <-> In x b) -> a = b.
Proof.
  revert b. induction a as [|x a IH]; intros [|y b] Ha Hb Hm.
  - reflexivity.
  - exfalso. apply (proj2 (Hm y)). now left.
  - exfalso. apply (proj1 (Hm x)). now left.
  - assert (x = y) as ->.
    { destruct (proj1 (Hm x) (or_introl eq_refl)) as [->|Hx]; [reflexivity|].
      destruct (proj2 (Hm y) (or_introl eq_refl)) as [->|Hy]; [reflexivity|].
      exfalso. apply (R_irrefl (x := x)).
      apply R_trans with y.
      - now apply sorted_head_lt with a.
      - now apply sorted_head_lt with b. }
    f_equal. apply IH.
    + now apply StronglySorted_inv in Ha.
    + now apply StronglySorted_inv in Hb.
    + intros z. split; intros Hz.
      * destruct (proj1 (Hm z) (or_intror Hz)) as [->|]; [|assumption].
        exfalso. apply (R_irrefl (x := z)). now apply sorted_head_lt with a.
      * destruct (proj2 (Hm z) (or_intror Hz)) as [->|]; [|assumption].
        exfalso. apply (R_irrefl (x := z)). now apply sorted_head_lt with b.
Qed.

Lemma sorted_app_one (l : list A) (x : A) :
  StronglySorted R l -> (forall y, In y l -> R y x) ->
  StronglySorted R (l ++ [x]).
Proof.
  induction l as [|y l IH]; simpl; intros Hs Hx.
  - constructor; constructor.
  - apply StronglySorted_inv in Hs. destruct Hs as [Hs Hall].
    constructor.
    + apply IH; auto.
    + apply Forall_app. split; [assumption|].
      constructor; [|constructor]. apply Hx. now left.
Qed.

Lemma sorted_app (a b : list A) :
  StronglySorted R a -> StronglySorted R b ->
  (forall x y, In x a -> In y b -> R x y) ->
  StronglySorted R (a ++ b).
Proof.
  induction a as [|x a IH]; simpl; intros Ha Hb Hab; [assumption|].
  apply StronglySorted_inv in Ha. destruct Ha as [Ha Hall].
  constructor.
  - apply IH; auto.
  - apply Forall_app. split; [assumption|].
    rewrite Forall_forall. intros y Hy. apply Hab; auto.
Qed.

Lemma sorted_filter (f : A -> bool) (l : list A) :
  StronglySorted R l -> StronglySorted R (filter f l).
Proof.
  induction 1 as [|x l Hs IH Hall]; simpl; [constructor|].
  destruct (f x); [|assumption].
  constructor; [assumption|].
  rewrite Forall_forall in *. intros y Hy.
  apply filter_In in Hy. now apply Hall.
Qed.

End SortedLists.

Lemma sorted_ext_nat (a b : list nat) :
  StronglySorted lt a -> StronglySorted lt b ->
  (forall x, In x a <-> In x b) -> a = b.
Proof. apply sorted_ext; intros; lia. Qed.

Lemma sorted_ext_Z (a b : list Z) :
  StronglySorted Z.lt a -> StronglySorted Z.lt b ->
  (forall x, In x a <-> In x b) -> a = b.
Proof. apply sorted_ext; intros; lia. Qed.

Lemma seq_sorted (n i : nat) : StronglySorted lt (seq i n).
Proof.
  revert i. induction n as [|n IH]; intros i; simpl; constructor.
  - apply IH.
  - rewrite Forall_forall. intros x Hx. apply in_seq in Hx. lia.
Qed.

(** ** The set operations *)

Lemma set_insert_In (x y : nat) (s : list nat) :
  In y (set_insert x s) <-> y = x \/ In y s.
Proof.
  induction s as [|z s IH]; simpl.
  - intuition.
  - destruct (x <? z) eqn:Hlt; [simpl; intuition|].
    destruct (x =? z) eqn:Heq.
    + apply Nat.eqb_eq in Heq. subst. simpl. intuition.
    + simpl. rewrite IH. intuition.
Qed.

Lemma set_insert_sorted (x : nat) (s : list nat) :
  StronglySorted lt s -> StronglySorted lt (set_insert x s).
Proof.
  induction 1 as [|z s Hs IH Hall]; simpl.
  - constructor; constructor.
  - destruct (x <? z) eqn:Hlt.
    + apply Nat.ltb_lt in Hlt. constructor.
      * now constructor.
      * constructor; [assumption|].
        rewrite Forall_forall in *. intros y Hy. specialize (Hall y Hy). lia.
    + destruct (x =? z) eqn:Heq; [now constructor|].
      apply Nat.ltb_ge in Hlt. apply Nat.eqb_neq in Heq.
      constructor; [assumption|].
      rewrite Forall_forall in *. intros y Hy.
      apply set_insert_In in Hy. destruct Hy as [->|Hy]; [lia|now apply Hall].
Qed.

Lemma set_erase_In (x y : nat) (s : list nat) :
  StronglySorted lt s ->
  (In y (set_erase x s) <-> In y s /\ y <> x).
Proof.
  induction 1 as [|z s Hs IH Hall]; simpl.
  - intuition.
  - rewrite Forall_forall in Hall.
    destruct (x =? z) eqn:Heq.
    + apply Nat.eqb_eq in Heq. subst z. split.
      * intros Hy. specialize (Hall y Hy). split; [now right|lia].
      * intros [[->|Hy] Hne]; [congruence|assumption].
    + apply Nat.eqb_neq in Heq. simpl. rewrite IH. split.
      * intros [->|[Hy Hne]]; split; auto.
      * intros [[->|Hy] Hne]; auto.
Qed.

Lemma set_erase_sorted (x : nat) (s : list nat) :
  StronglySorted lt s -> StronglySorted lt (set_erase x s).
Proof.
  intros Hs. induction Hs as [|z s Hs IH Hall]; simpl.
  - constructor.
  - destruct (x =? z); [assumption|].
    constructor; [assumption|].
    rewrite Forall_forall in *. intros y Hy.
    apply set_erase_In in Hy; [|assumption]. now apply Hall.
Qed.

(** ** std::sort returns a sorted permutation *)

Section Sorting.

Variable key : nat -> Z.

Let ltk (a b : nat) : bool := (key a <? key b)%Z.

Lemma sort_insert_perm (x : nat) (l : list nat) :
  Permutation (x :: l) (sort_insert ltk x l).
Proof.
  induction l as [|y l IH]; simpl; [reflexivity|].
  destruct (ltk y x); [|reflexivity].
  rewrite perm_swap. now constructor.
Qed.

Lemma sort_insert_sorted (x : nat) (l : list nat) :
  key_sorted key l -> key_sorted key (sort_insert ltk x l).
Proof.
  unfold key_sorted.
  induction 1 as [|y l Hs IH Hall]; simpl.
  - constructor; constructor.
  - unfold ltk at 1. destruct (key y <? key x)%Z eqn:Hlt.
    + apply Z.ltb_lt in Hlt. constructor; [assumption|].
      rewrite Forall_forall in *. intros z Hz.
      apply (Permutation_in _ (Permutation_sym (sort_insert_perm x l))) in Hz.
      destruct Hz as [->|Hz]; [lia|now apply Hall].
    + apply Z.ltb_ge in Hlt. constructor.
      * now constructor.
      * constructor; [assumption|].
        rewrite Forall_forall in *. intros z Hz.
        specialize (Hall z Hz). lia.
Qed.

Lemma std_sort_argsort (l : list nat) : is_argsort key l (std_sort ltk l).
Proof.
  induction l as [|x l [IHp IHs]]; simpl.
  - split; [reflexivity|constructor].
  - split.
    + rewrite <- sort_insert_perm. now constructor.
    + now apply sort_insert_sorted.
Qed.

Lemma key_sorted_nth (l : list nat) (a b : nat) :
  key_sorted key l -> a <= b -> b < length l ->
  (key (ix l a) <= key (ix l b))%Z.
Proof.
  intros Hs. revert a b.
  induction Hs as [|x l Hs IH Hall]; intros a b Hab Hb; simpl in Hb; [lia|].
  unfold ix in *. destruct a as [|a], b as [|b]; simpl; try lia.
  - rewrite Forall_forall in Hall. apply Hall. apply nth_In. lia.
  - apply IH; lia.
Qed.

End Sorting.

(** Two sorted lists with the same elements are equal. *)
Lemma sorted_perm_eq (a b : list Z) :
  StronglySorted Z.le a -> StronglySorted Z.le b -> Permutation a b -> a = b.
Proof.
  revert b. induction a as [|x a IH]; intros b Ha Hb Hp.
  - apply Permutation_nil in Hp. now subst.
  - destruct b as [|y b].
    + apply Permutation_sym, Permutation_nil in Hp. discriminate.
    + assert (x = y) as ->.
      { assert (Hx : In x (y :: b)) by (apply (Permutation_in _ Hp); now left).
        assert (Hy : In y (x :: a))
          by (apply (Permutation_in _ (Permutation_sym Hp)); now left).
        apply StronglySorted_inv in Ha, Hb.
        destruct Ha as [_ Ha], Hb as [_ Hb].
        rewrite Forall_forall in Ha, Hb.
        destruct Hx as [->|Hx]; [reflexivity|].
        destruct Hy as [->|Hy]; [reflexivity|].
        specialize (Ha y Hy). specialize (Hb x Hx). lia. }
      f_equal. apply IH.
      * now apply StronglySorted_inv in Ha.
      * now apply StronglySorted_inv in Hb.
      * now apply Permutation_cons_inv in Hp.
Qed.

Lemma key_sorted_map (key : nat -> Z) (l : list nat) :
  key_sorted key l -> StronglySorted Z.le (map key l).
Proof.
  induction 1 as [|x l Hs IH Hall]; simpl; constructor; [assumption|].
  rewrite Forall_forall in *. intros z Hz.
  apply in_map_iff in Hz. destruct Hz as [y [<- Hy]]. now apply Hall.
Qed.

(** The keys of an argsort do not depend on how ties are ordered. *)
Lemma argsort_keys (key : nat -> Z) (F l l' : list nat) (k : nat) :
  is_argsort key F l -> is_argsort key F l' ->
  key (ix l k) = key (ix l' k).
Proof.
  intros [Hp Hs] [Hp' Hs'].
  assert (Heq : map key l = map key l').
  { apply sorted_perm_eq; try now apply key_sorted_map.
    apply Permutation_map. now rewrite <- Hp. }
  assert (Hl : length l = length l').
  { rewrite <- (Permutation_length Hp). apply (Permutation_length Hp'). }
  unfold ix. destruct (Nat.lt_ge_cases k (length l)) as [Hk|Hk].
  - rewrite <- (map_nth key l 0 k), <- (map_nth key l' 0 k). now rewrite Heq.
  - rewrite !nth_overflow; [reflexivity| lia | lia].
Qed.

(** ** std::lower_bound *)

Lemma sorted_nth_le (l : list Z) (i j : nat) :
  StronglySorted Z.le l -> i <= j -> j < length l ->
  (nth i l 0 <= nth j l 0)%Z.
Proof.
  intros Hs. revert i j.
  induction Hs as [|x l Hs IH Hall]; intros i j Hij Hj; simpl in Hj; [lia|].
  destruct j as [|j]; [now replace i with 0 by lia|].
  destruct i as [|i]; simpl.
  - rewrite Forall_forall in Hall. apply Hall, nth_In. lia.
  - apply IH; lia.
Qed.

(* The search stays in the range, whatever the table holds *)
Lemma lower_bound_loop_le (fuel : nat) (l : list Z) (p : Z) :
  forall first len,
    first + len <= length l ->
    lower_bound_loop fuel l p first len <= length l.
Proof.
  induction fuel as [|fuel IH]; intros first len Hr;
    cbn [lower_bound_loop]; [lia|].
  destruct (0 <? len) eqn:Hlen; [|lia]. apply Nat.ltb_lt in Hlen.
  pose proof (Nat.div_lt len 2 Hlen ltac:(lia)) as Hhalf.
  destruct (nth (first + len / 2) l 0 <? p)%Z; apply IH; lia.
Qed.

(* On a sorted table the search returns the partition point *)
Lemma lower_bound_loop_spec (fuel : nat) (l : list Z) (p : Z) :
  StronglySorted Z.le l ->
  forall first len,
    len <= fuel -> first + len <= length l ->
    (forall j, j < first -> (nth j l 0 < p)%Z) ->
    (forall j, first + len <= j -> j < length l -> (p <= nth j l 0)%Z) ->
    (forall j, j < lower_bound_loop fuel l p first len -> (nth j l 0 < p)%Z)
    /\ (forall j, lower_bound_loop fuel l p first len <= j -> j < length l ->
                  (p <= nth j l 0)%Z).
Proof.
  intros Hs. induction fuel as [|fuel IH];
    intros first len Hf Hr Hlo Hhi; cbn [lower_bound_loop].
  - split; [assumption|]. intros j Hj Hjl. apply Hhi; lia.
  - destruct (0 <? len) eqn:Hlen.
    2:{ apply Nat.ltb_ge in Hlen. split; [assumption|].
        intros j Hj Hjl. apply Hhi; lia. }
    apply Nat.ltb_lt in Hlen.
    pose proof (Nat.div_lt len 2 Hlen ltac:(lia)) as Hhalf.
    destruct (nth (first + len / 2) l 0 <? p)%Z eqn:Hmid.
    + apply Z.ltb_lt in Hmid. apply IH; try lia.
      * intros j Hj.
        assert (Hle : j <= first + len / 2) by lia.
        assert (Hin : first + len / 2 < length l) by lia.
        pose proof (sorted_nth_le Hs Hle Hin). lia.
      * intros j Hj Hjl. apply Hhi; lia.
    + apply Z.ltb_ge in Hmid. apply IH; try lia; [assumption|].
      intros j Hj Hjl. pose proof (sorted_nth_le Hs Hj Hjl). lia.
Qed.

Lemma lower_bound_le (l : list Z) (p : Z) : lower_bound l p <= length l.
Proof. apply lower_bound_loop_le. lia. Qed.

Lemma lower_bound_before (l : list Z) (p : Z) (j : nat) :
  StronglySorted Z.le l -> j < lower_bound l p -> (nth j l 0 < p)%Z.
Proof.
  intros Hs. unfold lower_bound.
  apply (@lower_bound_loop_spec (length l) l p Hs 0 (length l)); lia.
Qed.

Lemma lower_bound_at (l : list Z) (p : Z) :
  StronglySorted Z.le l ->
  lower_bound l p < length l -> (p <= nth (lower_bound l p) l 0)%Z.
Proof.
  intros Hs Hk. unfold lower_bound in *.
  apply (@lower_bound_loop_spec (length l) l p Hs 0 (length l)); lia.
Qed.

Lemma sorted_lt_le (l : list Z) :
  StronglySorted Z.lt l -> StronglySorted Z.le l.
Proof.
  induction 1 as [|x l Hs IH Hall]; constructor; [assumption|].
  rewrite Forall_forall in *. intros y Hy. specialize (Hall y Hy). lia.
Qed.

Lemma nth_pred_last (A : Type) (l : list A) (d : A) :
  nth (length l - 1) l d = last l d.
Proof.
  destruct l as [|x l0]; [reflexivity|].
  destruct (@exists_last _ (x :: l0)) as [l' [a ->]]; [discriminate|].
  rewrite last_last, length_app. simpl.
  replace (length l' + 1 - 1) with (length l') by lia.
  apply nth_middle.
Qed.

Lemma exists_below (l : list Z) : exists u, forall w, In w l -> (u < w)%Z.
Proof.
  induction l as [|x l [u Hu]].
  - exists 0%Z. intros w [].
  - exists (Z.min u x - 1)%Z. intros w [<-|Hw]; [lia|].
    specialize (Hu w Hw). lia.
Qed.

Lemma filter_none (A : Type) (f : A -> bool) (l : list A) :
  (forall x, In x l -> f x = false) -> filter f l = [].
Proof.
  induction l as [|x l IH]; simpl; intros H; [reflexivity|].
  rewrite (H x (or_introl eq_refl)). apply IH. intros y Hy. apply H. now right.
Qed.

(** ** Query *)

Lemma sorted_nth_lt (T : list Z) (i j : nat) :
  StronglySorted Z.lt T -> i < j -> j < length T ->
  (nth i T 0 < nth j T 0)%Z.
Proof.
  intros Hs. revert i j.
  induction Hs as [|x l Hs IH Hall]; intros i j Hij Hj; simpl in Hj; [lia|].
  destruct j as [|j]; [lia|]. destruct i as [|i]; simpl.
  - rewrite Forall_forall in Hall. apply Hall, nth_In. lia.
  - apply IH; lia.
Qed.

Section QueryTable.

Variable rm : RangeMap.
Variable p : Z.

Let T : list Z := Vec.elems (Tab rm).
Let I : list (list nat) := Vec.elems (IList rm).

(** [Query] returns an entry of the table, or [Empty], whenever the
    tables have the same size and the first breakpoint is not above
    the query point. *)
Lemma Query_total :
  length I = length T ->
  (T <> [] -> (nth 0 T 0 <= p)%Z) ->
  exists l, Query rm p = Some l /\ (l = Empty \/ In l I).
Proof.
  intros Hlen Hhd. unfold Query, Vec.size. fold T. fold I.
  pose proof (lower_bound_le T p) as Hle.
  destruct (lower_bound T p <? length T) eqn:Hk.
  2:{ exists Empty. auto. }
  apply Nat.ltb_lt in Hk.
  assert (HT : T <> []) by (intros E; rewrite E in Hk; simpl in Hk; lia).
  specialize (Hhd HT).
  unfold at_offset.
  destruct (nth (lower_bound T p) T 0 >? p)%Z eqn:Hgt; cbn [Z.b2z].
  - apply Z.gtb_lt in Hgt.
    assert (H0 : lower_bound T p <> 0) by (intros E; rewrite E in Hgt; lia).
    replace (Z.of_nat (lower_bound T p) - 1 <? 0)%Z with false
      by (symmetry; apply Z.ltb_ge; lia).
    replace (Z.to_nat (Z.of_nat (lower_bound T p) - 1))
      with (lower_bound T p - 1) by lia.
    destruct (nth_error I (lower_bound T p - 1)) as [l|] eqn:Hn.
    + exists l. split; [reflexivity|]. right. eapply nth_error_In; eauto.
    + apply nth_error_None in Hn. lia.
  - replace (Z.of_nat (lower_bound T p) - 0 <? 0)%Z with false
      by (symmetry; apply Z.ltb_ge; lia).
    replace (Z.to_nat (Z.of_nat (lower_bound T p) - 0))
      with (lower_bound T p) by lia.
    destruct (nth_error I (lower_bound T p)) as [l|] eqn:Hn.
    + exists l. split; [reflexivity|]. right. eapply nth_error_In; eauto.
    + apply nth_error_None in Hn. lia.
Qed.

(** [Query] on a table that records, at every breakpoint, the value of
    a function [g] that only changes at breakpoints. *)
Variable g : Z -> list nat.

Lemma Query_table :
  StronglySorted Z.lt T ->
  I = map g T ->
  (T <> [] -> (nth 0 T 0 <= p)%Z) ->
  (forall q, In q T -> (q <= p)%Z ->
             (forall t, In t T -> (t <= q \/ p < t)%Z) -> g q = g p) ->
  ((forall t, In t T -> (t < p)%Z) -> g p = []) ->
  Query rm p = Some (g p).
Proof.
  intros Hs HI Hhd Hconst Habove. unfold Query, Vec.size. fold T. fold I.
  pose proof (lower_bound_le T p) as Hle.
  destruct (lower_bound T p <? length T) eqn:Hk.
  2:{ apply Nat.ltb_ge in Hk. unfold Empty. f_equal. symmetry.
      apply Habove. intros t Ht.
      destruct (In_nth _ _ 0%Z Ht) as [j [Hj <-]].
      apply lower_bound_before; [now apply sorted_lt_le|lia]. }
  apply Nat.ltb_lt in Hk.
  assert (HT : T <> []) by (intros E; rewrite E in Hk; simpl in Hk; lia).
  specialize (Hhd HT).
  pose proof (lower_bound_at p (sorted_lt_le Hs) Hk) as Hat.
  set (k := lower_bound T p) in *.
  unfold at_offset. rewrite HI.
  destruct (nth k T 0 >? p)%Z eqn:Hgt; cbn [Z.b2z].
  - apply Z.gtb_lt in Hgt.
    assert (H0 : k <> 0) by (intros E; rewrite E in Hgt; lia).
    replace (Z.of_nat k - 1 <? 0)%Z with false
      by (symmetry; apply Z.ltb_ge; lia).
    replace (Z.to_nat (Z.of_nat k - 1)) with (k - 1) by lia.
    rewrite nth_error_map.
    rewrite (nth_error_nth' T 0%Z) by lia. cbn [option_map]. f_equal.
    assert (Hq : (nth (k - 1) T 0 < p)%Z)
      by (apply lower_bound_before; [now apply sorted_lt_le|fold k; lia]).
    apply Hconst; [apply nth_In; lia|lia|].
    intros t Ht. destruct (In_nth _ _ 0%Z Ht) as [j [Hj <-]].
    destruct (Nat.lt_ge_cases (k - 1) j) as [Hlt|Hge].
    + right. destruct (Nat.eq_dec j k) as [->|Hne]; [assumption|].
      assert (Hkj : k < j) by lia.
      pose proof (sorted_nth_lt Hs Hkj Hj). lia.
    + left. destruct (Nat.eq_dec j (k - 1)) as [->|Hne]; [lia|].
      assert (Hjk : j < k - 1) by lia.
      assert (Hk1 : k - 1 < length T) by lia.
      pose proof (sorted_nth_lt Hs Hjk Hk1). lia.
  - rewrite Z.gtb_ltb in Hgt. apply Z.ltb_ge in Hgt.
    replace (Z.of_nat k - 0 <? 0)%Z with false
      by (symmetry; apply Z.ltb_ge; lia).
    replace (Z.to_nat (Z.of_nat k - 0)) with k by lia.
    rewrite nth_error_map.
    rewrite (nth_error_nth' T 0%Z) by lia. cbn [option_map]. f_equal.
    f_equal. lia.
Qed.

End QueryTable.

(** ** The sweep *)

Section SweepProofs.

Variable NDEBUG : bool.
Variables S_ E_ : list Z.
(* The indices that survive the filter, and any two argsorts of them *)
Variable F : list nat.
Variables SS SE : list nat.

Hypothesis F_sorted : StronglySorted lt F.
Hypothesis F_nondeg : forall x, In x F -> rd S_ x <> rd E_ x.
Hypothesis SS_argsort : is_argsort (rd S_) F SS.
Hypothesis SE_argsort : is_argsort (rd E_) F SE.

Let NF : nat := length SS.
Let keyS (k : nat) : Z := rd S_ (ix SS k).
Let keyE (k : nat) : Z := rd E_ (ix SE k).

Lemma length_SE : length SE = NF.
Proof.
  destruct SS_argsort as [H1 _], SE_argsort as [H2 _].
  unfold NF. rewrite <- (Permutation_length H1). symmetry.
  apply (Permutation_length H2).
Qed.

Lemma length_F : length F = NF.
Proof. destruct SS_argsort as [H1 _]. apply (Permutation_length H1). Qed.

Lemma In_F_SS (x : nat) : In x F <-> exists k, k < NF /\ ix SS k = x.
Proof.
  destruct SS_argsort as [Hp _]. split.
  - intros Hx. apply (Permutation_in _ Hp) in Hx.
    destruct (In_nth _ _ 0 Hx) as [k [Hk Hn]]. now exists k.
  - intros [k [Hk <-]]. apply (Permutation_in _ (Permutation_sym Hp)).
    now apply nth_In.
Qed.

Lemma In_F_SE (x : nat) : In x F <-> exists k, k < NF /\ ix SE k = x.
Proof.
  destruct SE_argsort as [Hp _]. rewrite <- length_SE. split.
  - intros Hx. apply (Permutation_in _ Hp) in Hx.
    destruct (In_nth _ _ 0 Hx) as [k [Hk Hn]]. now exists k.
  - intros [k [Hk <-]]. apply (Permutation_in _ (Permutation_sym Hp)).
    now apply nth_In.
Qed.

Lemma keyS_mono (a b : nat) : a <= b -> b < NF -> (keyS a <= keyS b)%Z.
Proof.
  intros. destruct SS_argsort as [_ Hs].
  now apply (key_sorted_nth (key := rd S_)).
Qed.

Lemma keyE_mono (a b : nat) : a <= b -> b < NF -> (keyE a <= keyE b)%Z.
Proof.
  intros. destruct SE_argsort as [_ Hs].
  apply (key_sorted_nth (key := rd E_)); auto. now rewrite length_SE.
Qed.

(** The two inner loops *)

Lemma open_loop_spec (fuel : nat) (v : Z) :
  forall (i : nat) (s : list nat) (j : nat) (s' : list nat),
    NF - i <= fuel -> i <= NF -> StronglySorted lt s ->
    open_loop S_ SS fuel v i s = (j, s') ->
    i <= j <= NF
    /\ (forall k, i <= k < j -> keyS k = v)
    /\ (j < NF -> keyS j <> v)
    /\ StronglySorted lt s'
    /\ (forall x, In x s' <->
                  In x s \/ exists k, i <= k < j /\ ix SS k = x).
Proof.
  induction fuel as [|fuel IH]; intros i s j s' Hf Hi Hs; simpl.
  - intros [= <- <-].
    refine (conj _ (conj _ (conj _ (conj Hs _)))); try lia.
    intros x. split; [now left|]. intros [H|[k [Hk _]]]; [assumption|lia].
  - fold NF. destruct ((i <? NF) && (rd S_ (ix SS i) =? v)%Z) eqn:Hc.
    + apply andb_prop in Hc. destruct Hc as [Hlt Heq].
      apply Nat.ltb_lt in Hlt. apply Z.eqb_eq in Heq.
      intros Hrun. apply IH in Hrun; try lia.
      2:{ now apply set_insert_sorted. }
      destruct Hrun as (Hj & Hk & Hex & Hs' & Hm).
      refine (conj _ (conj _ (conj Hex (conj Hs' _)))); try lia.
      * intros k Hik. destruct (Nat.eq_dec k i) as [->|Hne]; [assumption|].
        apply Hk. lia.
      * intros x. rewrite Hm, set_insert_In. split.
        -- intros [[->|H]|[k [Hik Hx]]]; auto.
           ++ right. exists i. split; [lia|reflexivity].
           ++ right. exists k. split; [lia|assumption].
        -- intros [H|[k [Hik Hx]]]; auto.
           destruct (Nat.eq_dec k i) as [->|Hne]; [left; left; now symmetry|].
           right. exists k. split; [lia|assumption].
    + intros [= <- <-].
      refine (conj _ (conj _ (conj _ (conj Hs _)))); try lia.
      * intros Hlt Heq. apply Nat.ltb_lt in Hlt. apply Z.eqb_eq in Heq.
        unfold keyS, keyE in Heq. rewrite Hlt, Heq in Hc. discriminate.
      * intros x. split; [now left|].
        intros [H|[k [Hk _]]]; [assumption|lia].
Qed.

Lemma close_loop_spec (fuel : nat) (v : Z) :
  forall (i : nat) (s : list nat) (j : nat) (s' : list nat),
    NF - i <= fuel -> i <= NF -> StronglySorted lt s ->
    close_loop E_ SS SE fuel v i s = (j, s') ->
    i <= j <= NF
    /\ (forall k, i <= k < j -> keyE k = v)
    /\ (j < NF -> keyE j <> v)
    /\ StronglySorted lt s'
    /\ (forall x, In x s' <->
                  In x s /\ ~ exists k, i <= k < j /\ ix SE k = x).
Proof.
  induction fuel as [|fuel IH]; intros i s j s' Hf Hi Hs; simpl.
  - intros [= <- <-].
    refine (conj _ (conj _ (conj _ (conj Hs _)))); try lia.
    intros x. split; [|tauto]. intros H. split; [assumption|].
    intros [k [Hk _]]. lia.
  - fold NF. destruct ((i <? NF) && (rd E_ (ix SE i) =? v)%Z) eqn:Hc.
    + apply andb_prop in Hc. destruct Hc as [Hlt Heq].
      apply Nat.ltb_lt in Hlt. apply Z.eqb_eq in Heq.
      intros Hrun. apply IH in Hrun; try lia.
      2:{ now apply set_erase_sorted. }
      destruct Hrun as (Hj & Hk & Hex & Hs' & Hm).
      refine (conj _ (conj _ (conj Hex (conj Hs' _)))); try lia.
      * intros k Hik. destruct (Nat.eq_dec k i) as [->|Hne]; [assumption|].
        apply Hk. lia.
      * intros x. rewrite Hm, set_erase_In by assumption. split.
        -- intros [[Hx Hne] Hno]. split; [assumption|].
           intros [k [Hik Hk']].
           destruct (Nat.eq_dec k i) as [->|Hki]; [congruence|].
           apply Hno. exists k. split; [lia|assumption].
        -- intros [Hx Hno]. split; [split; [assumption|]|].
           ++ intros ->. apply Hno. exists i. split; [lia|reflexivity].
           ++ intros [k [Hik Hk']]. apply Hno. exists k.
              split; [lia|assumption].
    + intros [= <- <-].
      refine (conj _ (conj _ (conj _ (conj Hs _)))); try lia.
      * intros Hlt Heq. apply Nat.ltb_lt in Hlt. apply Z.eqb_eq in Heq.
        unfold keyS, keyE in Heq. rewrite Hlt, Heq in Hc. discriminate.
      * intros x. split; [|tauto]. intros H. split; [assumption|].
        intros [k [Hk _]]. lia.
Qed.

(** The active set after the value [v] has been processed.  For an
    interval with [S[x] < E[x]] this is [S[x] <= v < E[x]]; an interval
    with [E[x] < S[x]] is erased before it is inserted and stays. *)
Definition activeX (v : Z) : list nat :=
  filter (fun x => (rd S_ x <=? v)%Z
                   && ((v <? rd E_ x)%Z || (rd E_ x <? rd S_ x)%Z)) F.

(* [v] is the start or the end of a (non-empty) interval *)
Definition is_value (v : Z) : Prop :=
  exists x, In x F /\ (rd S_ x = v \/ rd E_ x = v).

Lemma activeX_sorted (v : Z) : StronglySorted lt (activeX v).
Proof. now apply sorted_filter. Qed.

Lemma activeX_In (v : Z) (x : nat) :
  In x (activeX v) <->
  In x F /\ (rd S_ x <= v)%Z /\ (v < rd E_ x \/ rd E_ x < rd S_ x)%Z.
Proof.
  unfold activeX. rewrite filter_In, andb_true_iff, orb_true_iff.
  rewrite Z.leb_le, !Z.ltb_lt. tauto.
Qed.

Lemma is_value_keyS (k : nat) : k < NF -> is_value (keyS k).
Proof.
  intros Hk. exists (ix SS k). split; [|now left].
  apply In_F_SS. now exists k.
Qed.

Lemma is_value_keyE (k : nat) : k < NF -> is_value (keyE k).
Proof.
  intros Hk. exists (ix SE k). split; [|now right].
  apply In_F_SE. now exists k.
Qed.

(** The state of the loop after an iteration, assertions apart *)
Definition sweep_next (st : sweep_state) : sweep_state :=
  let v := next_value S_ E_ SS SE st in
  let o := open_loop S_ SS (NF - i1 st) v (i1 st) (AS st) in
  let c := close_loop E_ SS SE (NF - i2 st) v (i2 st) (snd o) in
  mkSweep (fst o) (fst c) (snd c)
    (mkRangeMap (Vec.push_back (Tab (tables st)) v)
                (Vec.push_back (IList (tables st)) (snd c))).

Lemma sweep_body_unfold (st : sweep_state) :
  sweep_body NDEBUG S_ E_ SS SE st =
  (assert_ NDEBUG (Vec.size (Tab (tables st))
                   <? Vec.capacity (Tab (tables st))) CapacityAssert ;;;
   assert_ NDEBUG (Vec.size (IList (tables st))
                   <? Vec.capacity (IList (tables st))) CapacityAssert ;;;
   assert_ NDEBUG (last_differs_Z (Tab (tables (sweep_next st))))
     TabAssert ;;;
   assert_ NDEBUG (last_differs_set (IList (tables (sweep_next st))))
     IListAssert ;;;
   Ok (sweep_next st)).
Proof.
  unfold sweep_body, sweep_next, PUSHBACK. fold NF.
  destruct (open_loop S_ SS (NF - i1 st) (next_value S_ E_ SS SE st)
              (i1 st) (AS st)) as [j1 s1].
  simpl.
  destruct (close_loop E_ SS SE (NF - i2 st) (next_value S_ E_ SS SE st)
              (i2 st) s1) as [j2 s2].
  simpl.
  destruct (assert_ NDEBUG (Vec.size (Tab (tables st))
                            <? Vec.capacity (Tab (tables st)))
              CapacityAssert); simpl; [|reflexivity].
  destruct (assert_ NDEBUG (Vec.size (IList (tables st))
                            <? Vec.capacity (IList (tables st)))
              CapacityAssert); reflexivity.
Qed.

Lemma sweep_body_Ok (st st' : sweep_state) :
  sweep_body NDEBUG S_ E_ SS SE st = Ok st' -> st' = sweep_next st.
Proof.
  rewrite sweep_body_unfold. unfold assert_.
  repeat (match goal with
          | |- context [if ?b then _ else _] => destruct b
          end; cbn [bind]); congruence.
Qed.

(** Intervals with [S[x] < E[x]] *)
Definition well_formed : Prop :=
  forall x, In x F -> (rd S_ x < rd E_ x)%Z.

Lemma is_value_above_first (v : Z) :
  well_formed -> is_value v -> (keyS 0 <= v)%Z.
Proof.
  intros Hwf [x [Hx Hv]]. pose proof (Hwf x Hx) as Hlt.
  apply In_F_SS in Hx. destruct Hx as [k [Hk <-]].
  pose proof (keyS_mono (Nat.le_0_l k) Hk) as Hm. unfold keyS in *.
  destruct Hv; lia.
Qed.

Lemma is_value_below : exists u, forall w, is_value w -> (u < w)%Z.
Proof.
  destruct (exists_below (map (rd S_) F ++ map (rd E_) F)) as [u Hu].
  exists u. intros w [x [Hx Hw]]. apply Hu. apply in_app_iff.
  destruct Hw as [<-|<-]; [left|right]; now apply in_map.
Qed.

(** The invariant of the loop.  [u] is the last value processed (or
    any bound below all values, before the first iteration); [pre] and
    [preI] are what the tables held when the loop was entered. *)
Section Loop.

Variable pre : list Z.
Variable preI : list (list nat).

Record Inv (u : Z) (st : sweep_state) : Prop := {
  inv_i1 : i1 st <= NF;
  inv_i2 : i2 st <= NF;
  inv_f1 : forall k, k < NF -> (k < i1 st <-> (keyS k <= u)%Z);
  inv_f2 : forall k, k < NF -> (k < i2 st <-> (keyE k <= u)%Z);
  inv_AS : AS st = activeX u;
  inv_tab : exists tab,
      Vec.elems (Tab (tables st)) = pre ++ tab
      /\ Vec.elems (IList (tables st)) = preI ++ map activeX tab
      /\ StronglySorted Z.lt tab
      /\ (forall v, In v tab <-> (v <= u)%Z /\ is_value v)
      /\ length tab <= i1 st + i2 st;
  inv_last : Vec.elems (IList (tables st)) <> [] ->
             last (Vec.elems (IList (tables st))) [] = AS st;
  inv_capT : NF * 2 + 2 <= Vec.capacity (Tab (tables st));
  inv_capI : NF * 2 + 2 <= Vec.capacity (IList (tables st))
}.

Lemma next_value_spec (u : Z) (st : sweep_state) :
  Inv u st -> i1 st < NF \/ i2 st < NF ->
  let v := next_value S_ E_ SS SE st in
  (i1 st < NF /\ v = keyS (i1 st) \/ i2 st < NF /\ v = keyE (i2 st))
  /\ (i1 st < NF -> (v <= keyS (i1 st))%Z)
  /\ (i2 st < NF -> (v <= keyE (i2 st))%Z)
  /\ (u < v)%Z.
Proof.
  intros HI Hc v.
  assert (H1 : i1 st < NF -> (u < keyS (i1 st))%Z).
  { intros H. pose proof (inv_f1 HI H) as Hf. lia. }
  assert (H2 : i2 st < NF -> (u < keyE (i2 st))%Z).
  { intros H. pose proof (inv_f2 HI H) as Hf. lia. }
  unfold v, next_value. fold NF. fold (keyS (i1 st)). fold (keyE (i2 st)).
  destruct ((NF <=? i1 st)
            || ((i2 st <? NF) && (keyS (i1 st) >=? keyE (i2 st))%Z)) eqn:Hb.
  - apply orb_true_iff in Hb.
    rewrite Nat.leb_le, andb_true_iff, Nat.ltb_lt, Z.geb_le in Hb.
    assert (Hi2 : i2 st < NF) by lia.
    repeat split; lia.
  - apply orb_false_iff in Hb. destruct Hb as [Hb1 Hb2].
    apply Nat.leb_gt in Hb1. apply andb_false_iff in Hb2.
    rewrite Nat.ltb_ge, Z.geb_leb, Z.leb_gt in Hb2.
    repeat split; lia.
Qed.

Lemma push_back_capacity (A : Type) (v : Vec.t A) (a : A) :
  Vec.capacity v <= Vec.capacity (Vec.push_back v a).
Proof.
  unfold Vec.push_back. cbn [Vec.capacity].
  destruct (Vec.size v <? Vec.capacity v); [lia|].
  pose proof (Nat.le_max_r 1 (2 * Vec.capacity v)). lia.
Qed.

(** One iteration: the next value [v] is the least value above [u], and
    the invariant holds again, for [v]. *)
Lemma sweep_next_inv (u : Z) (st : sweep_state) :
  Inv u st -> i1 st < NF \/ i2 st < NF ->
  let v := next_value S_ E_ SS SE st in
  (u < v)%Z
  /\ is_value v
  /\ (forall w, is_value w -> (w <= u)%Z \/ (v <= w)%Z)
  /\ Inv v (sweep_next st)
  /\ i1 st + i2 st < i1 (sweep_next st) + i2 (sweep_next st)
  /\ tables (sweep_next st) =
     mkRangeMap (Vec.push_back (Tab (tables st)) v)
                (Vec.push_back (IList (tables st)) (activeX v)).
Proof.
  intros HI Hc v.
  destruct (next_value_spec HI Hc) as (Hv & Hv1 & Hv2 & Huv).
  fold v in Hv, Hv1, Hv2, Huv.
  assert (gapS : forall k, k < NF -> (keyS k <= u)%Z \/ (v <= keyS k)%Z).
  { intros k Hk. destruct (Nat.lt_ge_cases k (i1 st)) as [H|H].
    - left. now apply (inv_f1 HI Hk).
    - right. assert (H0 : i1 st < NF) by lia.
      pose proof (keyS_mono H Hk). specialize (Hv1 H0). lia. }
  assert (gapE : forall k, k < NF -> (keyE k <= u)%Z \/ (v <= keyE k)%Z).
  { intros k Hk. destruct (Nat.lt_ge_cases k (i2 st)) as [H|H].
    - left. now apply (inv_f2 HI Hk).
    - right. assert (H0 : i2 st < NF) by lia.
      pose proof (keyE_mono H Hk). specialize (Hv2 H0). lia. }
  assert (Hval : is_value v).
  { destruct Hv as [[H ->]|[H ->]];
      [apply is_value_keyS|apply is_value_keyE]; assumption. }
  assert (Hgap : forall w, is_value w -> (w <= u)%Z \/ (v <= w)%Z).
  { intros w [x [Hx [<-|<-]]].
    - apply In_F_SS in Hx. destruct Hx as [k [Hk <-]]. now apply gapS.
    - apply In_F_SE in Hx. destruct Hx as [k [Hk <-]]. now apply gapE. }
  unfold sweep_next. fold v.
  destruct (open_loop S_ SS (NF - i1 st) v (i1 st) (AS st))
    as [j1 s1] eqn:Ho.
  destruct (close_loop E_ SS SE (NF - i2 st) v (i2 st) (snd (j1, s1)))
    as [j2 s2] eqn:Hcl.
  simpl in *.
  apply open_loop_spec in Ho;
    [| lia | exact (inv_i1 HI) | rewrite (inv_AS HI); apply activeX_sorted].
  destruct Ho as (Hj1 & Hk1 & Hex1 & Hs1 & Hm1).
  apply close_loop_spec in Hcl; [| lia | exact (inv_i2 HI) | assumption].
  destruct Hcl as (Hj2 & Hk2 & Hex2 & Hs2 & Hm2).
  assert (Hf1 : forall k, k < NF -> (k < j1 <-> (keyS k <= v)%Z)).
  { intros k Hk. split.
    - intros Hkj. destruct (Nat.lt_ge_cases k (i1 st)) as [H|H].
      + apply (inv_f1 HI Hk) in H. lia.
      + rewrite (Hk1 k); lia.
    - intros Hle. destruct (Nat.lt_ge_cases k j1) as [|Hge]; [assumption|].
      exfalso. assert (Hj : j1 < NF) by lia. apply (Hex1 Hj).
      pose proof (keyS_mono Hge Hk).
      assert (H0 : i1 st < NF) by lia.
      pose proof (keyS_mono (proj1 Hj1) Hj). specialize (Hv1 H0). lia. }
  assert (Hf2 : forall k, k < NF -> (k < j2 <-> (keyE k <= v)%Z)).
  { intros k Hk. split.
    - intros Hkj. destruct (Nat.lt_ge_cases k (i2 st)) as [H|H].
      + apply (inv_f2 HI Hk) in H. lia.
      + rewrite (Hk2 k); lia.
    - intros Hle. destruct (Nat.lt_ge_cases k j2) as [|Hge]; [assumption|].
      exfalso. assert (Hj : j2 < NF) by lia. apply (Hex2 Hj).
      pose proof (keyE_mono Hge Hk).
      assert (H0 : i2 st < NF) by lia.
      pose proof (keyE_mono (proj1 Hj2) Hj). specialize (Hv2 H0). lia. }
  assert (Hopen : forall x, (exists k, i1 st <= k < j1 /\ ix SS k = x)
                            <-> In x F /\ rd S_ x = v).
  { intros x. split.
    - intros [k [Hk <-]]. split.
      + apply In_F_SS. exists k. split; [lia|reflexivity].
      + now apply Hk1.
    - intros [Hx Hxv]. apply In_F_SS in Hx. destruct Hx as [k [Hk <-]].
      exists k. split; [|reflexivity]. fold (keyS k) in Hxv. split.
      + destruct (Nat.lt_ge_cases k (i1 st)) as [H|H]; [|assumption].
        apply (inv_f1 HI Hk) in H. lia.
      + apply Hf1; [assumption|lia]. }
  assert (Hclose : forall x, (exists k, i2 st <= k < j2 /\ ix SE k = x)
                             <-> In x F /\ rd E_ x = v).
  { intros x. split.
    - intros [k [Hk <-]]. split.
      + apply In_F_SE. exists k. split; [lia|reflexivity].
      + now apply Hk2.
    - intros [Hx Hxv]. apply In_F_SE in Hx. destruct Hx as [k [Hk <-]].
      exists k. split; [|reflexivity]. fold (keyE k) in Hxv. split.
      + destruct (Nat.lt_ge_cases k (i2 st)) as [H|H]; [|assumption].
        apply (inv_f2 HI Hk) in H. lia.
      + apply Hf2; [assumption|lia]. }
  assert (Hs2v : s2 = activeX v).
  { apply sorted_ext_nat; [assumption | apply activeX_sorted |].
    intros x. rewrite Hm2, Hm1, Hclose, Hopen, (inv_AS HI), !activeX_In.
    destruct (in_dec Nat.eq_dec x F) as [Hx|Hx]; [|tauto].
    pose proof (F_nondeg _ Hx) as Hnd.
    assert (HgS : (rd S_ x <= u)%Z \/ (v <= rd S_ x)%Z).
    { apply Hgap. exists x. auto. }
    assert (HgE : (rd E_ x <= u)%Z \/ (v <= rd E_ x)%Z).
    { apply Hgap. exists x. auto. }
    intuition lia. }
  assert (Hprog : i1 st + i2 st < j1 + j2).
  { destruct Hv as [[H Hv]|[H Hv]].
    - assert (j1 <> i1 st); [|lia]. intros Heq. subst j1.
      now apply (Hex1 H).
    - assert (j2 <> i2 st); [|lia]. intros Heq. subst j2.
      now apply (Hex2 H). }
  destruct (inv_tab HI) as (tab & HT & HIl & Hst & Hmt & Hlen).
  refine (conj Huv (conj Hval (conj Hgap (conj _ (conj Hprog _))))).
  2:{ now rewrite Hs2v. }
  constructor; cbn [i1 i2 AS tables Tab IList]; try lia; try assumption.
  - exists (tab ++ [v]). cbn [Vec.push_back Vec.elems].
    split; [|split; [|split; [|split]]].
    + rewrite HT. now rewrite app_assoc.
    + rewrite HIl, map_app, Hs2v. simpl. now rewrite app_assoc.
    + apply sorted_app_one; [assumption|].
      intros y Hy. apply Hmt in Hy. lia.
    + intros w. rewrite in_app_iff, Hmt. simpl. split.
      * intros [[Hw Hwv]|[<-|[]]]; split; auto; lia.
      * intros [Hw Hwv]. destruct (Hgap w Hwv); [left; auto|].
        right. left. lia.
    + rewrite length_app. simpl. lia.
  - intros _. cbn [Vec.push_back Vec.elems]. apply last_last.
  - eapply Nat.le_trans; [exact (inv_capT HI)|apply push_back_capacity].
  - eapply Nat.le_trans; [exact (inv_capI HI)|apply push_back_capacity].
Qed.

Hypothesis pre_len : length pre <= 1.
Hypothesis preI_len : length preI = length pre.
Hypothesis pre_below :
  forall m, In m pre -> 0 < NF -> (m < keyS 0)%Z.

Lemma sweep_capacity (u : Z) (st : sweep_state) :
  Inv u st -> i1 st < NF \/ i2 st < NF ->
  (Vec.size (Tab (tables st)) <? Vec.capacity (Tab (tables st))) = true
  /\ (Vec.size (IList (tables st))
      <? Vec.capacity (IList (tables st))) = true.
Proof.
  intros HI Hc.
  destruct (inv_tab HI) as (tab & HT & HIl & _ & _ & Hlen).
  pose proof (inv_i1 HI). pose proof (inv_i2 HI).
  pose proof (inv_capT HI). pose proof (inv_capI HI).
  unfold Vec.size. rewrite HT, HIl, !length_app, length_map.
  split; apply Nat.ltb_lt; lia.
Qed.

Lemma sweep_asserts (u : Z) (st : sweep_state) :
  well_formed -> Inv u st -> i1 st < NF \/ i2 st < NF ->
  last_differs_Z (Tab (tables (sweep_next st))) = true
  /\ last_differs_set (IList (tables (sweep_next st))) = true.
Proof.
  intros Hwf HI Hc.
  destruct (sweep_next_inv HI Hc) as (Huv & Hval & Hgap & _ & _ & ->).
  set (v := next_value S_ E_ SS SE st) in *.
  destruct (inv_tab HI) as (tab & HT & HIl & _ & Hmt & _).
  cbn [Tab IList]. split.
  - unfold last_differs_Z, Vec.size. cbn [Vec.push_back Vec.elems].
    set (l := Vec.elems (Tab (tables st))) in *.
    rewrite length_app. simpl length.
    destruct l as [|a l'] eqn:El; [reflexivity|].
    apply orb_true_iff. right. apply negb_true_iff, Z.eqb_neq.
    rewrite <- El.
    replace (length l + 1 - 1) with (length l) by lia.
    rewrite nth_middle.
    replace (length l + 1 - 2) with (length l - 1) by lia.
    rewrite app_nth1 by (rewrite El; simpl; lia).
    assert (Hin : In (nth (length l - 1) l 0%Z) l).
    { apply nth_In. rewrite El. simpl. lia. }
    revert Hin. generalize (nth (length l - 1) l 0%Z). intros y Hy.
    rewrite El in Hy. rewrite HT in Hy. apply in_app_iff in Hy.
    destruct Hy as [Hy|Hy].
    + assert (HNF : 0 < NF) by lia.
      pose proof (pre_below y Hy HNF).
      pose proof (is_value_above_first Hwf Hval). lia.
    + apply Hmt in Hy. lia.
  - unfold last_differs_set, Vec.size. cbn [Vec.push_back Vec.elems].
    set (l := Vec.elems (IList (tables st))) in *.
    rewrite length_app. simpl length.
    destruct l as [|a l'] eqn:El; [reflexivity|].
    apply orb_true_iff. right. apply negb_true_iff.
    rewrite <- El.
    replace (length l + 1 - 1) with (length l) by lia.
    rewrite nth_middle.
    replace (length l + 1 - 2) with (length l - 1) by lia.
    rewrite app_nth1 by (rewrite El; simpl; lia).
    rewrite nth_pred_last.
    assert (Hl : l <> []) by (rewrite El; discriminate).
    unfold l. rewrite (inv_last HI Hl), (inv_AS HI).
    unfold list_eqb.
    destruct (list_eq_dec Nat.eq_dec (activeX v) (activeX u)) as [Heq|];
      [exfalso|reflexivity].
    destruct Hval as [x [Hx Hv]]. pose proof (Hwf x Hx) as Hlt.
    assert (HgS : (rd S_ x <= u)%Z \/ (v <= rd S_ x)%Z).
    { apply Hgap. exists x. auto. }
    assert (Hiff : In x (activeX v) <-> In x (activeX u))
      by now rewrite Heq.
    rewrite !activeX_In in Hiff. intuition lia.
Qed.

(** The loop runs to its exit condition, never fails the capacity
    assertion, and fails another assertion only for an interval with
    [E[x] < S[x]]. *)
Lemma sweep_loop_spec (fuel : nat) :
  forall (u : Z) (st : sweep_state),
    Inv u st -> NF + NF - (i1 st + i2 st) <= fuel ->
    match sweep_loop NDEBUG S_ E_ SS SE fuel st with
    | Ok st' => exists v, Inv v st' /\ i1 st' = NF /\ i2 st' = NF
    | Abort CapacityAssert | Abort LoopFuel => False
    | Abort _ => ~ well_formed
    end.
Proof.
  induction fuel as [|fuel IH]; intros u st HI Hf;
    pose proof (inv_i1 HI); pose proof (inv_i2 HI); simpl.
  - fold NF.
    replace ((i1 st <? NF) || (i2 st <? NF)) with false
      by (symmetry; apply orb_false_iff; rewrite !Nat.ltb_ge; lia).
    exists u. split; [assumption|lia].
  - fold NF. destruct ((i1 st <? NF) || (i2 st <? NF)) eqn:Hc.
    2:{ apply orb_false_iff in Hc. rewrite !Nat.ltb_ge in Hc.
        exists u. split; [assumption|lia]. }
    apply orb_true_iff in Hc. rewrite !Nat.ltb_lt in Hc.
    rewrite sweep_body_unfold. unfold assert_.
    destruct (sweep_capacity HI Hc) as [-> ->].
    rewrite !orb_true_r. cbn [bind].
    destruct (NDEBUG || last_differs_Z (Tab (tables (sweep_next st))))
      eqn:HaT; cbn [bind].
    2:{ intros Hwf. destruct (sweep_asserts Hwf HI Hc) as [Ha _].
        rewrite Ha, orb_true_r in HaT. discriminate. }
    destruct (NDEBUG || last_differs_set (IList (tables (sweep_next st))))
      eqn:HaI; cbn [bind].
    2:{ intros Hwf. destruct (sweep_asserts Hwf HI Hc) as [_ Ha].
        rewrite Ha, orb_true_r in HaI. discriminate. }
    destruct (sweep_next_inv HI Hc) as (_ & _ & _ & HI' & Hp & _).
    apply (IH _ _ HI'). lia.
Qed.

Hypothesis preI_last : last preI [] = [].

(** The invariant holds when the loop is entered. *)
Lemma Inv_init (u : Z) (rm : RangeMap) :
  (forall w, is_value w -> (u < w)%Z) ->
  Vec.elems (Tab rm) = pre -> Vec.elems (IList rm) = preI ->
  NF * 2 + 2 <= Vec.capacity (Tab rm) ->
  NF * 2 + 2 <= Vec.capacity (IList rm) ->
  Inv u (mkSweep 0 0 [] rm).
Proof.
  intros Hu HT HI HcT HcI.
  constructor; cbn [i1 i2 AS tables]; try lia; try assumption.
  - intros k Hk. pose proof (Hu _ (is_value_keyS Hk)). lia.
  - intros k Hk. pose proof (Hu _ (is_value_keyE Hk)). lia.
  - symmetry. apply filter_none. intros x Hx.
    assert (Hv : is_value (rd S_ x)) by (exists x; auto).
    apply Hu in Hv. apply andb_false_iff. left. apply Z.leb_gt. lia.
  - exists []. rewrite app_nil_r. simpl.
    refine (conj HT (conj _ (conj _ (conj _ _)))).
    + now rewrite app_nil_r.
    + constructor.
    + intros v. split; [intros []|]. intros [Hle Hv]. apply Hu in Hv. lia.
    + lia.
  - intros _. now rewrite HI.
Qed.

(** The tables when the loop is left: [tab] holds every start and end
    value once, in ascending order, each with its active set. *)
Definition swept (tab : list Z) : Prop :=
  StronglySorted Z.lt tab /\ forall v, In v tab <-> is_value v.

Lemma sweep_loop_final (rm : RangeMap) :
  Vec.elems (Tab rm) = pre -> Vec.elems (IList rm) = preI ->
  NF * 2 + 2 <= Vec.capacity (Tab rm) ->
  NF * 2 + 2 <= Vec.capacity (IList rm) ->
  match sweep_loop NDEBUG S_ E_ SS SE (NF + NF) (mkSweep 0 0 [] rm) with
  | Ok st' =>
      exists tab,
        swept tab
        /\ Vec.elems (Tab (tables st')) = pre ++ tab
        /\ Vec.elems (IList (tables st')) = preI ++ map activeX tab
        /\ length tab <= NF + NF
        /\ NF * 2 + 2 <= Vec.capacity (Tab (tables st'))
        /\ NF * 2 + 2 <= Vec.capacity (IList (tables st'))
  | Abort CapacityAssert | Abort LoopFuel => False
  | Abort _ => ~ well_formed
  end.
Proof.
  intros HT HI HcT HcI.
  destruct is_value_below as [u Hu].
  pose proof (@Inv_init u rm Hu HT HI HcT HcI) as H0.
  pose proof (@sweep_loop_spec (NF + NF) u _ H0) as Hl.
  cbn [i1 i2] in Hl. specialize (Hl ltac:(lia)).
  destruct (sweep_loop NDEBUG S_ E_ SS SE (NF + NF) (mkSweep 0 0 [] rm))
    as [st'|f]; [|exact Hl].
  destruct Hl as (v & HI' & Hi1 & Hi2).
  destruct (inv_tab HI') as (tab & HT' & HIl' & Hst & Hmt & Hlen).
  exists tab. refine (conj (conj Hst _) (conj HT' (conj HIl' _))).
  - intros w. rewrite Hmt. split; [tauto|]. intros Hw. split; [|assumption].
    destruct Hw as [x [Hx [<-|<-]]].
    + apply In_F_SS in Hx. destruct Hx as [k [Hk <-]].
      apply (inv_f1 HI' Hk). lia.
    + apply In_F_SE in Hx. destruct Hx as [k [Hk <-]].
      apply (inv_f2 HI' Hk). lia.
  - split; [lia|]. split; [exact (inv_capT HI')|exact (inv_capI HI')].
Qed.

End Loop.

Lemma PUSHBACK_ok (A : Type) (X : Vec.t A) (Y : A) :
  Vec.size X < Vec.capacity X ->
  PUSHBACK NDEBUG X Y = Ok (Vec.push_back X Y).
Proof.
  intros H. apply Nat.ltb_lt in H. unfold PUSHBACK, assert_.
  rewrite H, orb_true_r. reflexivity.
Qed.

(** The whole of [Build_tables]: the two sentinels around the sweep. *)
Variables MINV MAXV : Z.

Definition lower_sentinel : bool := (0 =? NF) || (keyS 0 >? MINV)%Z.
Definition upper_sentinel : bool := (0 =? NF) || (keyE (NF - 1) <? MAXV)%Z.

Definition lower_Tab : list Z := if lower_sentinel then [MINV] else [].
Definition lower_IList : list (list nat) :=
  if lower_sentinel then [Empty] else [].
Definition upper_Tab : list Z := if upper_sentinel then [MAXV] else [].
Definition upper_IList : list (list nat) :=
  if upper_sentinel then [Empty] else [].

(* The tables when the loop is entered *)
Definition start_tables (rm : RangeMap) : result RangeMap :=
  let Tab0 := Vec.reserve (Vec.clear (Tab rm)) (NF * 2 + 2) in
  let IList0 := Vec.reserve (Vec.clear (IList rm)) (NF * 2 + 2) in
  if (0 =? NF) || (rd S_ (ix SS 0) >? MINV)%Z then
    T <- PUSHBACK NDEBUG Tab0 MINV ;;
    I <- PUSHBACK NDEBUG IList0 Empty ;;
    Ok (mkRangeMap T I)
  else Ok (mkRangeMap Tab0 IList0).

Lemma start_tables_ok (rm : RangeMap) :
  exists rm1,
    start_tables rm = Ok rm1
    /\ Vec.elems (Tab rm1) = lower_Tab
    /\ Vec.elems (IList rm1) = lower_IList
    /\ NF * 2 + 2 <= Vec.capacity (Tab rm1)
    /\ NF * 2 + 2 <= Vec.capacity (IList rm1).
Proof.
  unfold start_tables, lower_Tab, lower_IList. fold (keyS 0).
  fold lower_sentinel.
  set (Tab0 := Vec.reserve (Vec.clear (Tab rm)) (NF * 2 + 2)).
  set (IList0 := Vec.reserve (Vec.clear (IList rm)) (NF * 2 + 2)).
  assert (HcT : NF * 2 + 2 <= Vec.capacity Tab0) by (simpl; lia).
  assert (HcI : NF * 2 + 2 <= Vec.capacity IList0) by (simpl; lia).
  destruct lower_sentinel.
  - rewrite !PUSHBACK_ok by (unfold Vec.size; simpl; lia). cbn [bind].
    eexists. split; [reflexivity|]. cbn [Tab IList].
    repeat split; try reflexivity.
    + eapply Nat.le_trans; [exact HcT|apply push_back_capacity].
    + eapply Nat.le_trans; [exact HcI|apply push_back_capacity].
  - eexists. split; [reflexivity|]. cbn [Tab IList]. auto.
Qed.

Lemma lower_Tab_length : length lower_Tab <= 1.
Proof. unfold lower_Tab. destruct lower_sentinel; simpl; lia. Qed.

Lemma lower_IList_length : length lower_IList = length lower_Tab.
Proof.
  unfold lower_Tab, lower_IList. destruct lower_sentinel; reflexivity.
Qed.

Lemma lower_Tab_below (m : Z) :
  In m lower_Tab -> 0 < NF -> (m < keyS 0)%Z.
Proof.
  unfold lower_Tab, lower_sentinel. intros Hm HNF.
  destruct (0 =? NF) eqn:E0; [apply Nat.eqb_eq in E0; lia|]. simpl in Hm.
  destruct (keyS 0 >? MINV)%Z eqn:E1; [|destruct Hm].
  destruct Hm as [<-|[]]. apply Z.gtb_lt in E1. lia.
Qed.

Lemma lower_IList_last : last lower_IList [] = [].
Proof. unfold lower_IList. destruct lower_sentinel; reflexivity. Qed.

Lemma Build_tables_unfold (rm : RangeMap) :
  Build_tables NDEBUG MINV MAXV S_ E_ SS SE rm =
  (rm1 <- start_tables rm ;;
   st <- sweep_loop NDEBUG S_ E_ SS SE (NF + NF) (mkSweep 0 0 [] rm1) ;;
   if upper_sentinel then
     T <- PUSHBACK NDEBUG (Tab (tables st)) MAXV ;;
     I <- PUSHBACK NDEBUG (IList (tables st)) Empty ;;
     Ok (mkRangeMap T I)
   else Ok (tables st)).
Proof. reflexivity. Qed.

Lemma Build_tables_spec (rm : RangeMap) :
  match Build_tables NDEBUG MINV MAXV S_ E_ SS SE rm with
  | Ok rm' =>
      exists tab,
        swept tab
        /\ Vec.elems (Tab rm') = lower_Tab ++ tab ++ upper_Tab
        /\ Vec.elems (IList rm') =
           lower_IList ++ map activeX tab ++ upper_IList
        /\ length tab <= NF + NF
  | Abort CapacityAssert | Abort LoopFuel => False
  | Abort _ => ~ well_formed
  end.
Proof.
  rewrite Build_tables_unfold.
  destruct (start_tables_ok rm) as (rm1 & -> & HT1 & HI1 & HcT1 & HcI1).
  cbn [bind].
  pose proof lower_Tab_length as Hpl.
  pose proof (@sweep_loop_final lower_Tab lower_IList Hpl
                lower_IList_length lower_Tab_below lower_IList_last rm1
                HT1 HI1 HcT1 HcI1) as Hl.
  destruct (sweep_loop NDEBUG S_ E_ SS SE (NF + NF) (mkSweep 0 0 [] rm1))
    as [st'|f]; cbn [bind]; [|exact Hl].
  destruct Hl as (tab & Hsw & HT' & HIl' & Hlen & HcT' & HcI').
  unfold upper_Tab, upper_IList. destruct upper_sentinel.
  - rewrite !PUSHBACK_ok; cbn [bind].
    + exists tab. cbn [Tab IList Vec.push_back Vec.elems].
      rewrite HT', HIl', <- !app_assoc. auto.
    + unfold Vec.size. rewrite HIl', length_app, length_map.
      rewrite lower_IList_length. lia.
    + unfold Vec.size. rewrite HT', length_app. lia.
  - exists tab. rewrite HT', HIl', !app_nil_r. auto.
Qed.

(** *** The final tables, for intervals with [S[x] < E[x]] *)

(* The intervals that contain [p] *)
Definition activeW (p : Z) : list nat :=
  filter (fun x => (rd S_ x <=? p)%Z && (p <? rd E_ x)%Z) F.

Lemma activeW_In (p : Z) (x : nat) :
  In x (activeW p) <-> In x F /\ (rd S_ x <= p < rd E_ x)%Z.
Proof.
  unfold activeW. rewrite filter_In, andb_true_iff, Z.leb_le, Z.ltb_lt.
  tauto.
Qed.

Lemma activeX_wf (v : Z) : well_formed -> activeX v = activeW v.
Proof.
  intros Hwf. apply filter_ext_in. intros x Hx. specialize (Hwf x Hx).
  replace (rd E_ x <? rd S_ x)%Z with false
    by (symmetry; apply Z.ltb_ge; lia).
  now rewrite orb_false_r.
Qed.

Lemma no_value : NF = 0 -> forall w, ~ is_value w.
Proof.
  intros H0 w [x [Hx _]]. pose proof length_F as HF. rewrite H0 in HF.
  apply length_zero_iff_nil in HF. rewrite HF in Hx. destruct Hx.
Qed.

Lemma value_above_lower (w : Z) :
  well_formed -> lower_sentinel = true -> is_value w -> (MINV < w)%Z.
Proof.
  intros Hwf Hlo Hw. unfold lower_sentinel in Hlo.
  apply orb_true_iff in Hlo. destruct Hlo as [H0|Hlo].
  - apply Nat.eqb_eq in H0. exfalso. now apply (@no_value (eq_sym H0) w).
  - apply Z.gtb_lt in Hlo. pose proof (is_value_above_first Hwf Hw). lia.
Qed.

Lemma value_below_upper (w : Z) :
  well_formed -> upper_sentinel = true -> is_value w -> (w < MAXV)%Z.
Proof.
  intros Hwf Hup Hw. unfold upper_sentinel in Hup.
  apply orb_true_iff in Hup. destruct Hup as [H0|Hup].
  - apply Nat.eqb_eq in H0. exfalso. now apply (@no_value (eq_sym H0) w).
  - apply Z.ltb_lt in Hup. destruct Hw as [x [Hx Hw]].
    pose proof (Hwf x Hx) as Hlt.
    apply In_F_SE in Hx. destruct Hx as [k [Hk <-]].
    assert (Hle : k <= NF - 1) by lia.
    assert (Hlt' : NF - 1 < NF) by lia.
    pose proof (keyE_mono Hle Hlt') as Hm. unfold keyE in *.
    destruct Hw; lia.
Qed.

Lemma table_values (tab : list Z) (w : Z) :
  swept tab -> is_value w -> In w (lower_Tab ++ tab ++ upper_Tab).
Proof.
  intros [_ Hm] Hw. apply in_app_iff. right. apply in_app_iff. left.
  now apply Hm.
Qed.

Lemma table_head (tab : list Z) :
  swept tab -> (forall w, is_value w -> (MINV <= w)%Z) ->
  exists rest, lower_Tab ++ tab ++ upper_Tab = MINV :: rest.
Proof.
  intros [Hs Hm] Hge. unfold lower_Tab.
  destruct lower_sentinel eqn:Hlo; [simpl; eauto|].
  unfold lower_sentinel in Hlo. apply orb_false_iff in Hlo.
  destruct Hlo as [H0 Hlo]. apply Nat.eqb_neq in H0.
  rewrite Z.gtb_ltb in Hlo. apply Z.ltb_ge in Hlo.
  assert (HNF : 0 < NF) by lia.
  pose proof (is_value_keyS HNF) as Hv0.
  pose proof (Hge _ Hv0) as Hge0.
  assert (Hin : In MINV tab).
  { apply Hm. replace MINV with (keyS 0) by lia. assumption. }
  destruct tab as [|t0 rest]; [destruct Hin|].
  simpl. exists (rest ++ upper_Tab). f_equal.
  assert (Ht0 : (MINV <= t0)%Z) by (apply Hge, Hm; now left).
  destruct Hin as [->|Hin]; [reflexivity|].
  pose proof (@sorted_head_lt _ Z.lt _ _ _ Hs Hin). lia.
Qed.

Lemma table_length (tab : list Z) :
  length (lower_IList ++ map activeX tab ++ upper_IList) =
  length (lower_Tab ++ tab ++ upper_Tab).
Proof.
  rewrite !length_app, length_map, lower_IList_length.
  unfold upper_Tab, upper_IList. now destruct upper_sentinel.
Qed.

Lemma prefix_sorted (tab : list Z) :
  well_formed -> swept tab -> StronglySorted Z.lt (lower_Tab ++ tab).
Proof.
  intros Hwf [Hs Hm].
  unfold lower_Tab. destruct lower_sentinel eqn:Hlo; [|assumption].
  simpl. constructor; [assumption|].
  rewrite Forall_forall. intros y Hy.
  apply value_above_lower; auto. now apply Hm.
Qed.

Lemma table_sorted (tab : list Z) :
  well_formed -> (MINV < MAXV)%Z -> swept tab ->
  StronglySorted Z.lt (lower_Tab ++ tab ++ upper_Tab).
Proof.
  intros Hwf Hmm Hsw. rewrite app_assoc.
  unfold upper_Tab. destruct upper_sentinel eqn:Hup.
  - apply sorted_app_one; [now apply prefix_sorted|].
    intros y Hy. apply in_app_iff in Hy. destruct Hy as [Hy|Hy].
    + unfold lower_Tab in Hy. destruct lower_sentinel; [|destruct Hy].
      destruct Hy as [<-|[]]. assumption.
    + apply value_below_upper; auto. now apply (proj2 Hsw).
  - rewrite app_nil_r. now apply prefix_sorted.
Qed.

(* For any intervals the table is sorted, as std::lower_bound requires *)
Lemma table_le_sorted (tab : list Z) :
  (MINV <= MAXV)%Z -> swept tab ->
  (forall w, is_value w -> (MINV <= w <= MAXV)%Z) ->
  StronglySorted Z.le (lower_Tab ++ tab ++ upper_Tab).
Proof.
  intros Hmm [Hs Hm] Hrange.
  assert (Hup : forall y, In y upper_Tab -> y = MAXV).
  { unfold upper_Tab. intros y Hy. destruct upper_sentinel; [|destruct Hy].
    now destruct Hy as [<-|[]]. }
  assert (Hlo : forall y, In y lower_Tab -> y = MINV).
  { unfold lower_Tab. intros y Hy. destruct lower_sentinel; [|destruct Hy].
    now destruct Hy as [<-|[]]. }
  apply sorted_app; [|apply sorted_app|].
  - unfold lower_Tab. destruct lower_sentinel; repeat constructor.
  - now apply sorted_lt_le.
  - unfold upper_Tab. destruct upper_sentinel; repeat constructor.
  - intros x y Hx Hy. apply Hm, Hrange in Hx. apply Hup in Hy. lia.
  - intros x y Hx Hy. apply Hlo in Hx. apply in_app_iff in Hy.
    destruct Hy as [Hy|Hy].
    + apply Hm, Hrange in Hy. lia.
    + apply Hup in Hy. lia.
Qed.

Lemma prefix_map (tab : list Z) :
  well_formed ->
  lower_IList ++ map activeX tab = map activeW (lower_Tab ++ tab).
Proof.
  intros Hwf. rewrite map_app. f_equal.
  - unfold lower_IList, lower_Tab.
    destruct lower_sentinel eqn:Hlo; [|reflexivity].
    simpl. f_equal. symmetry. apply filter_none. intros x Hx.
    assert (Hv : is_value (rd S_ x)) by (exists x; auto).
    pose proof (value_above_lower Hwf Hlo Hv).
    apply andb_false_iff. left. apply Z.leb_gt. lia.
  - apply map_ext. intros v. now apply activeX_wf.
Qed.

Lemma table_map (tab : list Z) :
  well_formed -> (forall w, is_value w -> (w <= MAXV)%Z) ->
  lower_IList ++ map activeX tab ++ upper_IList =
  map activeW (lower_Tab ++ tab ++ upper_Tab).
Proof.
  intros Hwf Hle. rewrite !app_assoc, prefix_map by assumption.
  rewrite (map_app _ (lower_Tab ++ tab)). f_equal.
  unfold upper_IList, upper_Tab.
  destruct upper_sentinel; [|reflexivity].
  simpl. f_equal. symmetry. apply filter_none. intros x Hx.
  assert (Hv : is_value (rd E_ x)) by (exists x; auto).
  pose proof (Hle _ Hv).
  apply andb_false_iff. right. apply Z.ltb_ge. lia.
Qed.

Lemma upper_sentinel_iff :
  upper_sentinel = true <-> forall x, In x F -> (rd E_ x < MAXV)%Z.
Proof.
  unfold upper_sentinel. rewrite orb_true_iff, Nat.eqb_eq, Z.ltb_lt. split.
  - intros [H0|Hlt] x Hx.
    + exfalso. apply (@no_value (eq_sym H0) (rd E_ x)). exists x. auto.
    + apply In_F_SE in Hx. destruct Hx as [k [Hk <-]].
      assert (Hle : k <= NF - 1) by lia.
      assert (Hlt' : NF - 1 < NF) by lia.
      pose proof (keyE_mono Hle Hlt') as Hm. unfold keyE in *. lia.
  - intros Hall. destruct (Nat.eq_dec 0 NF) as [|Hne]; [now left|].
    right. apply Hall. apply In_F_SE. exists (NF - 1). split; [lia|].
    reflexivity.
Qed.

(** Every entry of the active-set table is a set of filtered indices,
    in ascending order (for any intervals). *)
Lemma table_entries (tab : list Z) (l : list nat) :
  In l (lower_IList ++ map activeX tab ++ upper_IList) ->
  StronglySorted lt l /\ forall x, In x l -> In x F.
Proof.
  intros Hl.
  assert (H : l = [] \/ exists v, l = activeX v).
  { rewrite !in_app_iff in Hl. destruct Hl as [Hl|[Hl|Hl]].
    - unfold lower_IList in Hl. destruct lower_sentinel; [|destruct Hl].
      destruct Hl as [<-|[]]. now left.
    - apply in_map_iff in Hl. destruct Hl as [v [<- _]]. right. now exists v.
    - unfold upper_IList in Hl. destruct upper_sentinel; [|destruct Hl].
      destruct Hl as [<-|[]]. now left. }
  destruct H as [->|[v ->]].
  - split; [constructor|intros x []].
  - split; [apply activeX_sorted|]. intros x Hx.
    now apply activeX_In in Hx.
Qed.

(** Every entry recorded by the loop differs from the entry before. *)
Lemma adjacent_distinct (tab : list Z) (k : nat) :
  well_formed -> swept tab ->
  1 <= k -> k < length (lower_Tab ++ tab) ->
  nth k (lower_IList ++ map activeX tab ++ upper_IList) [] <>
  nth (k - 1) (lower_IList ++ map activeX tab ++ upper_IList) [].
Proof.
  intros Hwf Hsw Hk1 Hk.
  pose proof (prefix_sorted Hwf Hsw) as Hs.
  rewrite app_assoc, prefix_map by assumption.
  set (T := lower_Tab ++ tab) in *.
  rewrite !app_nth1 by (rewrite length_map; lia).
  rewrite (nth_indep _ [] (activeW 0)) by (rewrite length_map; lia).
  rewrite (nth_indep _ [] (activeW 0) (n := k - 1))
    by (rewrite length_map; lia).
  rewrite !map_nth.
  set (t := nth k T 0%Z). set (q := nth (k - 1) T 0%Z).
  assert (Hqt : (q < t)%Z) by (apply sorted_nth_lt; auto; lia).
  assert (Ht : In t tab).
  { assert (Hin : In t T) by (apply nth_In; lia).
    apply in_app_iff in Hin. destruct Hin as [Hin|Hin]; [|assumption].
    exfalso. unfold lower_Tab in Hin, T.
    destruct lower_sentinel eqn:Hlo; [|destruct Hin].
    destruct Hin as [Heq|[]].
    assert (H0 : (nth 0 T 0 < t)%Z) by (apply sorted_nth_lt; auto; lia).
    unfold T, lower_Tab in H0. try rewrite Hlo in H0. simpl in H0. lia. }
  destruct Hsw as [_ Hm].
  assert (Hgap : forall w, is_value w -> (w <= q \/ t <= w)%Z).
  { intros w Hw. apply Hm in Hw.
    assert (Hin : In w T) by (apply in_app_iff; now right).
    destruct (In_nth _ _ 0%Z Hin) as [j [Hj <-]].
    destruct (Nat.lt_ge_cases j k) as [Hlt|Hge].
    - left. destruct (Nat.eq_dec j (k - 1)) as [->|Hne]; [fold q; lia|].
      assert (Hjk : j < k - 1) by lia.
      assert (Hk' : k - 1 < length T) by lia.
      pose proof (sorted_nth_lt Hs Hjk Hk'). fold q in H. lia.
    - right. destruct (Nat.eq_dec j k) as [->|Hne]; [fold t; lia|].
      assert (Hkj : k < j) by lia.
      pose proof (sorted_nth_lt Hs Hkj Hj). fold t in H. lia. }
  apply Hm in Ht. destruct Ht as [x [Hx Hxt]].
  pose proof (Hwf x Hx) as Hlt.
  assert (HgS : (rd S_ x <= q \/ t <= rd S_ x)%Z).
  { apply Hgap. exists x. auto. }
  intros Heq.
  assert (Hiff : In x (activeW t) <-> In x (activeW q)) by now rewrite Heq.
  rewrite !activeW_In in Hiff. intuition lia.
Qed.

(** The closing sentinel, when it is appended, repeats the empty set
    of the entry before it. *)
Lemma upper_sentinel_repeats (tab : list Z) :
  well_formed -> swept tab -> upper_sentinel = true ->
  let I := lower_IList ++ map activeX tab ++ upper_IList in
  2 <= length I
  /\ nth (length I - 1) I [] = [] /\ nth (length I - 2) I [] = [].
Proof.
  intros Hwf Hsw Hup I.
  pose proof (prefix_sorted Hwf Hsw) as Hs.
  assert (HI : I = map activeW (lower_Tab ++ tab) ++ [[]]).
  { unfold I. rewrite app_assoc, prefix_map by assumption.
    unfold upper_IList. now rewrite Hup. }
  set (T := lower_Tab ++ tab) in *.
  assert (HT : 1 <= length T).
  { unfold T, lower_Tab, lower_sentinel. rewrite length_app.
    destruct (0 =? NF) eqn:E0; [simpl; lia|]. apply Nat.eqb_neq in E0.
    assert (HNF : 0 < NF) by lia.
    pose proof (is_value_keyS HNF) as Hv. apply (proj2 Hsw) in Hv.
    destruct tab; [destruct Hv|simpl; lia]. }
  rewrite HI, length_app, length_map. simpl length.
  split; [lia|]. split.
  - replace (length T + 1 - 1) with (length (map activeW T))
      by (rewrite length_map; lia).
    apply nth_middle.
  - replace (length T + 1 - 2) with (length T - 1) by lia.
    rewrite app_nth1 by (rewrite length_map; lia).
    rewrite (nth_indep _ [] (activeW 0)) by (rewrite length_map; lia).
    rewrite map_nth. apply filter_none. intros x Hx.
    assert (HE : In (rd E_ x) T).
    { apply in_app_iff. right. apply (proj2 Hsw). exists x. auto. }
    destruct (In_nth _ _ 0%Z HE) as [j [Hj Hnj]].
    apply andb_false_iff. right. apply Z.ltb_ge. rewrite <- Hnj.
    destruct (Nat.eq_dec j (length T - 1)) as [->|Hne]; [lia|].
    assert (Hjk : j < length T - 1) by lia.
    assert (Hk' : length T - 1 < length T) by lia.
    pose proof (sorted_nth_lt Hs Hjk Hk'). lia.
Qed.

(** [Query] on the final tables is the set of intervals that contain
    the point. *)
Lemma Query_wf (rm' : RangeMap) (tab : list Z) (p : Z) :
  well_formed -> (MINV < MAXV)%Z ->
  (forall w, is_value w -> (MINV <= w <= MAXV)%Z) ->
  swept tab ->
  Vec.elems (Tab rm') = lower_Tab ++ tab ++ upper_Tab ->
  Vec.elems (IList rm') = lower_IList ++ map activeX tab ++ upper_IList ->
  (MINV <= p)%Z ->
  Query rm' p = Some (activeW p).
Proof.
  intros Hwf Hmm Hrange Hsw HT HI Hp.
  apply Query_table.
  - rewrite HT. now apply table_sorted.
  - rewrite HI, HT. apply table_map; [assumption|].
    intros w Hw. now apply Hrange.
  - intros _. rewrite HT.
    destruct (@table_head tab Hsw) as [rest ->]; [|simpl; lia].
    intros w Hw. now apply Hrange.
  - rewrite HT. intros q Hq Hqp Hgap. apply filter_ext_in. intros x Hx.
    assert (HS : In (rd S_ x) (lower_Tab ++ tab ++ upper_Tab))
      by (apply table_values; [assumption|exists x; auto]).
    assert (HE : In (rd E_ x) (lower_Tab ++ tab ++ upper_Tab))
      by (apply table_values; [assumption|exists x; auto]).
    apply Hgap in HS, HE.
    destruct (Z.leb_spec (rd S_ x) q), (Z.leb_spec (rd S_ x) p),
      (Z.ltb_spec q (rd E_ x)), (Z.ltb_spec p (rd E_ x));
      simpl; try reflexivity; lia.
  - rewrite HT. intros Hall. apply filter_none. intros x Hx.
    assert (HE : In (rd E_ x) (lower_Tab ++ tab ++ upper_Tab))
      by (apply table_values; [assumption|exists x; auto]).
    apply Hall in HE. apply andb_false_iff. right. apply Z.ltb_ge. lia.
Qed.

End SweepProofs.

(** ** The order of ties *)

Lemma frontier_unique (P : nat -> Prop) (n a b : nat) :
  a <= n -> b <= n ->
  (forall k, k < n -> (k < a <-> P k)) ->
  (forall k, k < n -> (k < b <-> P k)) ->
  a = b.
Proof.
  intros Ha Hb HPa HPb.
  destruct (Nat.lt_trichotomy a b) as [Hlt|[Heq|Hgt]]; [|assumption|].
  - assert (Hk : a < n) by lia.
    apply (HPb a Hk), (HPa a Hk) in Hlt. lia.
  - assert (Hk : b < n) by lia.
    apply (HPa b Hk), (HPb b Hk) in Hgt. lia.
Qed.

Section Determinism.

Variable NDEBUG : bool.
Variables MINV MAXV : Z.
Variables S_ E_ : list Z.
Variable F : list nat.
(* Two results of the two calls of std::sort *)
Variables SS SE SS' SE' : list nat.

Hypothesis F_sorted : StronglySorted lt F.
Hypothesis F_nondeg : forall x, In x F -> rd S_ x <> rd E_ x.
Hypothesis SS_argsort : is_argsort (rd S_) F SS.
Hypothesis SE_argsort : is_argsort (rd E_) F SE.
Hypothesis SS'_argsort : is_argsort (rd S_) F SS'.
Hypothesis SE'_argsort : is_argsort (rd E_) F SE'.

Lemma length_SS' : length SS' = length SS.
Proof.
  destruct SS_argsort as [H1 _], SS'_argsort as [H2 _].
  rewrite <- (Permutation_length H1). symmetry.
  apply (Permutation_length H2).
Qed.

Lemma keyS_eq (k : nat) : rd S_ (ix SS' k) = rd S_ (ix SS k).
Proof. now apply (argsort_keys (key := rd S_) (F := F)). Qed.

Lemma keyE_eq (k : nat) : rd E_ (ix SE' k) = rd E_ (ix SE k).
Proof. now apply (argsort_keys (key := rd E_) (F := F)). Qed.

Lemma next_value_eq (st : sweep_state) :
  next_value S_ E_ SS' SE' st = next_value S_ E_ SS SE st.
Proof.
  unfold next_value. now rewrite length_SS', !keyS_eq, !keyE_eq.
Qed.

Variable pre : list Z.
Variable preI : list (list nat).

Lemma sweep_next_eq (u : Z) (st : sweep_state) :
  Inv S_ E_ F SS SE pre preI u st ->
  Inv S_ E_ F SS' SE' pre preI u st ->
  i1 st < length SS \/ i2 st < length SS ->
  sweep_next S_ E_ SS' SE' st = sweep_next S_ E_ SS SE st.
Proof.
  intros HI HI' Hc.
  destruct (sweep_next_inv F_sorted F_nondeg SS_argsort SE_argsort HI Hc)
    as (_ & _ & _ & H1 & _ & Ht1).
  assert (Hc' : i1 st < length SS' \/ i2 st < length SS')
    by now rewrite length_SS'.
  destruct (sweep_next_inv F_sorted F_nondeg SS'_argsort SE'_argsort HI' Hc')
    as (_ & _ & _ & H2 & _ & Ht2).
  rewrite next_value_eq in H2, Ht2.
  set (v := next_value S_ E_ SS SE st) in *.
  pose proof (inv_i1 H1) as Ha1. pose proof (inv_i2 H1) as Ha2.
  pose proof (inv_i1 H2) as Hb1. pose proof (inv_i2 H2) as Hb2.
  pose proof (@inv_f1 _ _ _ _ _ _ _ _ _ H1) as Hf1.
  pose proof (@inv_f2 _ _ _ _ _ _ _ _ _ H1) as Hf2.
  pose proof (@inv_f1 _ _ _ _ _ _ _ _ _ H2) as Hg1.
  pose proof (@inv_f2 _ _ _ _ _ _ _ _ _ H2) as Hg2.
  pose proof (inv_AS H1) as HA1. pose proof (inv_AS H2) as HA2.
  rewrite length_SS' in *. cbv beta in *.
  destruct (sweep_next S_ E_ SS SE st) as [a1 a2 a3 a4].
  destruct (sweep_next S_ E_ SS' SE' st) as [b1 b2 b3 b4].
  cbn [i1 i2 AS tables] in *.
  assert (b1 = a1) as ->.
  { apply (@frontier_unique (fun k => (rd S_ (ix SS k) <= v)%Z)
             (length SS)); auto.
    intros k Hk. rewrite <- keyS_eq. now apply Hg1. }
  assert (b2 = a2) as ->.
  { apply (@frontier_unique (fun k => (rd E_ (ix SE k) <= v)%Z)
             (length SS)); auto.
    intros k Hk. rewrite <- keyE_eq. now apply Hg2. }
  now rewrite HA1, HA2, Ht1, Ht2.
Qed.

Lemma sweep_loop_eq (fuel : nat) :
  forall (u : Z) (st : sweep_state),
    Inv S_ E_ F SS SE pre preI u st ->
    Inv S_ E_ F SS' SE' pre preI u st ->
    sweep_loop NDEBUG S_ E_ SS' SE' fuel st =
    sweep_loop NDEBUG S_ E_ SS SE fuel st.
Proof.
  induction fuel as [|fuel IH]; intros u st HI HI'; simpl;
    rewrite length_SS'; [reflexivity|].
  destruct ((i1 st <? length SS) || (i2 st <? length SS)) eqn:Hc;
    [|reflexivity].
  apply orb_true_iff in Hc. rewrite !Nat.ltb_lt in Hc.
  assert (Hb : sweep_body NDEBUG S_ E_ SS' SE' st =
               sweep_body NDEBUG S_ E_ SS SE st).
  { now rewrite !sweep_body_unfold, (sweep_next_eq HI HI' Hc). }
  rewrite Hb.
  destruct (sweep_body NDEBUG S_ E_ SS SE st) as [st'|f] eqn:Hbody;
    cbn [bind]; [|reflexivity].
  apply sweep_body_Ok in Hbody. subst st'.
  destruct (sweep_next_inv F_sorted F_nondeg SS_argsort SE_argsort HI Hc)
    as (_ & _ & _ & H1 & _ & _).
  assert (Hc' : i1 st < length SS' \/ i2 st < length SS')
    by now rewrite length_SS'.
  destruct (sweep_next_inv F_sorted F_nondeg SS'_argsort SE'_argsort HI' Hc')
    as (_ & _ & _ & H2 & _ & _).
  rewrite next_value_eq, (sweep_next_eq HI HI' Hc) in H2.
  apply (IH _ _ H1 H2).
Qed.

End Determinism.

(** [Build_tables] does not depend on how the two sorts order ties. *)
Lemma Build_tables_eq (NDEBUG : bool) (MINV MAXV : Z) (S_ E_ : list Z)
      (F SS SE SS' SE' : list nat) (rm : RangeMap) :
  StronglySorted lt F -> (forall x, In x F -> rd S_ x <> rd E_ x) ->
  is_argsort (rd S_) F SS -> is_argsort (rd E_) F SE ->
  is_argsort (rd S_) F SS' -> is_argsort (rd E_) F SE' ->
  Build_tables NDEBUG MINV MAXV S_ E_ SS' SE' rm =
  Build_tables NDEBUG MINV MAXV S_ E_ SS SE rm.
Proof.
  intros HF Hnd HS HE HS' HE'.
  pose proof (length_SS' HS HS') as Hlen.
  rewrite !Build_tables_unfold.
  assert (Hst : start_tables NDEBUG S_ SS' MINV rm =
                start_tables NDEBUG S_ SS MINV rm).
  { unfold start_tables. now rewrite Hlen, (keyS_eq HS HS'). }
  assert (Hup : upper_sentinel E_ SS' SE' MAXV = upper_sentinel E_ SS SE MAXV).
  { unfold upper_sentinel. now rewrite Hlen, (keyE_eq HE HE'). }
  rewrite Hst, Hup, Hlen.
  destruct (start_tables_ok NDEBUG S_ SS MINV rm)
    as (rm1 & -> & HT1 & HI1 & HcT1 & HcI1).
  cbn [bind].
  destruct (is_value_below S_ E_ F) as [u Hu].
  assert (H1 : Inv S_ E_ F SS SE (lower_Tab S_ SS MINV)
                 (lower_IList S_ SS MINV) u (mkSweep 0 0 [] rm1)).
  { apply Inv_init; auto.
    - apply lower_Tab_length.
    - apply lower_IList_length.
    - apply lower_IList_last. }
  assert (H2 : Inv S_ E_ F SS' SE' (lower_Tab S_ SS MINV)
                 (lower_IList S_ SS MINV) u (mkSweep 0 0 [] rm1)).
  { apply Inv_init; auto.
    - apply lower_Tab_length.
    - apply lower_IList_length.
    - apply lower_IList_last.
    - now rewrite Hlen.
    - now rewrite Hlen. }
  now rewrite (sweep_loop_eq NDEBUG HF Hnd HS HE HS' HE' _ H1 H2).
Qed.

(** ** The filter of empty intervals *)

Lemma filtered_sorted (S_ E_ : list Z) (N : nat) :
  StronglySorted lt (filtered S_ E_ N).
Proof. apply sorted_filter, seq_sorted. Qed.

Lemma filtered_In (S_ E_ : list Z) (N i : nat) :
  In i (filtered S_ E_ N) <-> i < N /\ rd S_ i <> rd E_ i.
Proof.
  unfold filtered. rewrite filter_In, in_seq, negb_true_iff, Z.eqb_neq. lia.
Qed.

Lemma filter_loop_spec (NDEBUG : bool) (S_ E_ : list Z) (n : nat) :
  forall (i : nat) (SS SE : Vec.t nat),
    Vec.size SS + n <= Vec.capacity SS ->
    Vec.size SE + n <= Vec.capacity SE ->
    exists SS' SE',
      filter_loop NDEBUG S_ E_ n i SS SE = Ok (SS', SE')
      /\ Vec.elems SS' =
         Vec.elems SS
         ++ filter (fun i => negb (rd S_ i =? rd E_ i)%Z) (seq i n)
      /\ Vec.elems SE' =
         Vec.elems SE
         ++ filter (fun i => negb (rd S_ i =? rd E_ i)%Z) (seq i n).
Proof.
  induction n as [|n IH]; intros i SS SE HS HE; simpl.
  - exists SS, SE. now rewrite !app_nil_r.
  - rewrite Nat.add_1_r.
    destruct (negb (rd S_ i =? rd E_ i)%Z).
    + rewrite !PUSHBACK_ok by lia. cbn [bind].
      destruct (IH (S i) (Vec.push_back SS i) (Vec.push_back SE i))
        as (SS' & SE' & Hrun & HSS & HSE).
      * unfold Vec.push_back, Vec.size in *. cbn [Vec.elems Vec.capacity].
        rewrite length_app. simpl length.
        replace (length (Vec.elems SS) <? Vec.capacity SS) with true
          by (symmetry; apply Nat.ltb_lt; lia). lia.
      * unfold Vec.push_back, Vec.size in *. cbn [Vec.elems Vec.capacity].
        rewrite length_app. simpl length.
        replace (length (Vec.elems SE) <? Vec.capacity SE) with true
          by (symmetry; apply Nat.ltb_lt; lia). lia.
      * exists SS', SE'. rewrite Hrun, HSS, HSE.
        cbn [Vec.push_back Vec.elems]. rewrite <- !app_assoc. auto.
    + apply IH; lia.
Qed.

(** [Build] on arrays that are not null and a count that is not zero
    is [Build_tables] on the sorted filtered indices. *)
Lemma Build_unfold (NDEBUG : bool) (MINV MAXV : Z) (rm : RangeMap)
      (S_ E_ : list Z) (N : nat) :
  0 < N ->
  Build NDEBUG MINV MAXV rm (Some S_) (Some E_) N =
  Build_tables NDEBUG MINV MAXV S_ E_
    (std_sort (fun a b => (rd S_ a <? rd S_ b)%Z) (filtered S_ E_ N))
    (std_sort (fun a b => (rd E_ a <? rd E_ b)%Z) (filtered S_ E_ N)) rm.
Proof.
  intros HN. unfold Build.
  destruct (N =? 0) eqn:E0; [apply Nat.eqb_eq in E0; lia|].
  destruct (@filter_loop_spec NDEBUG S_ E_ N 0
              (Vec.reserve (Vec.empty nat) N) (Vec.reserve (Vec.empty nat) N))
    as (SS' & SE' & -> & HSS & HSE);
    try (unfold Vec.size; simpl; lia).
  cbn [bind fst snd Vec.sorted_by Vec.elems].
  rewrite HSS, HSE. reflexivity.
Qed.

(** ** Build and Query at the public interface *)

Section Interface.

Variable NDEBUG : bool.
Variables MINV MAXV : Z.

Lemma in_T_spec (z : Z) : in_T MINV MAXV z = true <-> (MINV <= z <= MAXV)%Z.
Proof. unfold in_T. rewrite andb_true_iff, !Z.leb_le. tauto. Qed.

Lemma arrays_ok_spec (S_ E_ : list Z) (N : nat) :
  arrays_ok MINV MAXV S_ E_ N = true ->
  forall i, i < N ->
            (MINV <= rd S_ i <= MAXV)%Z /\ (MINV <= rd E_ i <= MAXV)%Z.
Proof.
  unfold arrays_ok. rewrite !andb_true_iff, forallb_forall.
  intros [_ H] i Hi.
  assert (Hin : In i (seq 0 N)) by (apply in_seq; lia).
  apply H in Hin. apply andb_true_iff in Hin.
  now rewrite !in_T_spec in Hin.
Qed.

Lemma intervals_ok_spec (S_ E_ : list Z) (N : nat) :
  intervals_ok S_ E_ N = true ->
  forall i, i < N -> (rd S_ i <= rd E_ i)%Z.
Proof.
  unfold intervals_ok. rewrite forallb_forall. intros H i Hi.
  apply Z.leb_le, H, in_seq. lia.
Qed.

Section OneBuild.

Variables S_ E_ : list Z.
Variable N : nat.

Let F : list nat := filtered S_ E_ N.
Let SS : list nat := std_sort (fun a b => (rd S_ a <? rd S_ b)%Z) F.
Let SE : list nat := std_sort (fun a b => (rd E_ a <? rd E_ b)%Z) F.

Lemma F_nondeg (x : nat) : In x F -> rd S_ x <> rd E_ x.
Proof. intros Hx. now apply filtered_In in Hx. Qed.

Lemma SS_argsort : is_argsort (rd S_) F SS.
Proof. apply std_sort_argsort. Qed.

Lemma SE_argsort : is_argsort (rd E_) F SE.
Proof. apply std_sort_argsort. Qed.

Lemma value_in_T (w : Z) :
  arrays_ok MINV MAXV S_ E_ N = true -> is_value S_ E_ F w ->
  (MINV <= w <= MAXV)%Z.
Proof.
  intros Hok [x [Hx Hw]]. apply filtered_In in Hx.
  destruct (@arrays_ok_spec S_ E_ N Hok x (proj1 Hx)).
  destruct Hw as [<-|<-]; lia.
Qed.

Lemma intervals_well_formed :
  intervals_ok S_ E_ N = true -> well_formed S_ E_ F.
Proof.
  intros Hok x Hx. apply filtered_In in Hx. destruct Hx as [Hx Hne].
  pose proof (@intervals_ok_spec S_ E_ N Hok x Hx). lia.
Qed.

Lemma SlowCheck_activeW (p : Z) :
  SlowCheck p S_ E_ N = activeW S_ E_ F p.
Proof.
  unfold SlowCheck, activeW, F, filtered.
  induction (seq 0 N) as [|i l IH]; simpl; [reflexivity|].
  destruct (Z.eqb_spec (rd S_ i) (rd E_ i)) as [Heq|Hne]; simpl.
  - rewrite Heq.
    replace ((rd E_ i <=? p)%Z && (p <? rd E_ i)%Z) with false; [exact IH|].
    symmetry. apply andb_false_iff.
    destruct (Z.leb_spec (rd E_ i) p); [right|now left].
    apply Z.ltb_ge. lia.
  - now rewrite IH.
Qed.

(** What a call of Build with arrays and a count N > 0 leaves. *)
Lemma Build_spec (rm : RangeMap) :
  0 < N ->
  match Build NDEBUG MINV MAXV rm (Some S_) (Some E_) N with
  | Ok rm' =>
      exists tab,
        swept S_ E_ F tab
        /\ Vec.elems (Tab rm') =
           lower_Tab S_ SS MINV ++ tab ++ upper_Tab E_ SS SE MAXV
        /\ Vec.elems (IList rm') =
           lower_IList S_ SS MINV ++ map (activeX S_ E_ F) tab
           ++ upper_IList E_ SS SE MAXV
        /\ length tab <= length F + length F
  | Abort CapacityAssert | Abort LoopFuel => False
  | Abort _ => ~ well_formed S_ E_ F
  end.
Proof.
  intros HN. rewrite Build_unfold by assumption. fold F. fold SS. fold SE.
  pose proof (Build_tables_spec NDEBUG (filtered_sorted S_ E_ N)
                F_nondeg SS_argsort SE_argsort MINV MAXV rm) as H.
  fold F in H.
  replace (length F) with (length SS)
    by (symmetry; apply Permutation_length, SS_argsort).
  exact H.
Qed.

Lemma Build_Ok (rm : RangeMap) :
  0 < N -> intervals_ok S_ E_ N = true ->
  exists rm', Build NDEBUG MINV MAXV rm (Some S_) (Some E_) N = Ok rm'.
Proof.
  intros HN Hint. pose proof (Build_spec rm HN) as H.
  destruct (Build NDEBUG MINV MAXV rm (Some S_) (Some E_) N) as [rm'|f].
  - now exists rm'.
  - exfalso. destruct f; [exact H| | |exact H];
      apply H, intervals_well_formed, Hint.
Qed.

(** Oracle equivalence, for one call of Build with N > 0 *)
Lemma Build_Query_SlowCheck (rm rm' : RangeMap) (p : Z) :
  (MINV < MAXV)%Z -> 0 < N ->
  arrays_ok MINV MAXV S_ E_ N = true -> intervals_ok S_ E_ N = true ->
  Build NDEBUG MINV MAXV rm (Some S_) (Some E_) N = Ok rm' ->
  in_T MINV MAXV p = true ->
  Query rm' p = Some (SlowCheck p S_ E_ N).
Proof.
  intros Hmm HN Harr Hint Hb Hp. pose proof (Build_spec rm HN) as H.
  rewrite Hb in H. destruct H as (tab & Hsw & HT & HI & _).
  rewrite SlowCheck_activeW. apply in_T_spec in Hp.
  eapply Query_wf with (F := F) (SS := SS) (SE := SE) (tab := tab);
    eauto using SS_argsort, SE_argsort.
  - now apply intervals_well_formed.
  - intros w Hw. now apply value_in_T.
  - lia.
Qed.

Lemma Build_sorted (rm rm' : RangeMap) :
  (MINV < MAXV)%Z -> 0 < N -> intervals_ok S_ E_ N = true ->
  Build NDEBUG MINV MAXV rm (Some S_) (Some E_) N = Ok rm' ->
  StronglySorted Z.lt (Vec.elems (Tab rm')).
Proof.
  intros Hmm HN Hint Hb. pose proof (Build_spec rm HN) as H.
  rewrite Hb in H. destruct H as (tab & Hsw & -> & _).
  eapply table_sorted with (F := F); eauto using SS_argsort, SE_argsort.
  now apply intervals_well_formed.
Qed.

(* What Query relies on: the tables are parallel, the first breakpoint
   is the least value of T, and the sets are ascending lists *)
Definition table_inv (rm : RangeMap) : Prop :=
  Vec.size (IList rm) = Vec.size (Tab rm)
  /\ (Vec.elems (Tab rm) <> [] -> nth 0 (Vec.elems (Tab rm)) 0%Z = MINV)
  /\ Forall (StronglySorted lt) (Vec.elems (IList rm)).

Lemma Build_table_inv (rm rm' : RangeMap) :
  0 < N -> arrays_ok MINV MAXV S_ E_ N = true ->
  Build NDEBUG MINV MAXV rm (Some S_) (Some E_) N = Ok rm' ->
  table_inv rm'
  /\ forall l x, In l (Vec.elems (IList rm')) -> In x l -> In x F.
Proof.
  intros HN Harr Hb. pose proof (Build_spec rm HN) as H.
  rewrite Hb in H. destruct H as (tab & Hsw & HT & HI & _).
  unfold table_inv, Vec.size. rewrite HT, HI.
  split; [split; [|split]|].
  - apply table_length.
  - intros _.
    destruct (@table_head S_ E_ F SS SE SS_argsort MINV MAXV tab Hsw)
      as [rest ->]; [|reflexivity].
    intros w Hw. now apply value_in_T.
  - rewrite Forall_forall. intros l Hl.
    now apply (@table_entries S_ E_ F SS SE (filtered_sorted S_ E_ N)
                 MINV MAXV tab l) in Hl.
  - intros l x Hl Hx.
    apply (@table_entries S_ E_ F SS SE (filtered_sorted S_ E_ N)
             MINV MAXV tab l) in Hl.
    now apply Hl.
Qed.

Lemma Build_size (rm rm' : RangeMap) :
  0 < N ->
  Build NDEBUG MINV MAXV rm (Some S_) (Some E_) N = Ok rm' ->
  Vec.size (Tab rm') <= 2 * length F + 2
  /\ Vec.size (IList rm') <= 2 * length F + 2.
Proof.
  intros HN Hb. pose proof (Build_spec rm HN) as H.
  rewrite Hb in H. destruct H as (tab & Hsw & HT & HI & Hlen).
  unfold Vec.size. rewrite HT, HI, table_length, !length_app.
  pose proof (lower_Tab_length S_ SS MINV).
  assert (length (upper_Tab E_ SS SE MAXV) <= 1)
    by (unfold upper_Tab; destruct upper_sentinel; simpl; lia).
  lia.
Qed.

Lemma Build_Tab_le_sorted (rm rm' : RangeMap) :
  0 < N -> arrays_ok MINV MAXV S_ E_ N = true ->
  Build NDEBUG MINV MAXV rm (Some S_) (Some E_) N = Ok rm' ->
  StronglySorted Z.le (Vec.elems (Tab rm')).
Proof.
  intros HN Harr Hb. pose proof (Build_spec rm HN) as H.
  rewrite Hb in H. destruct H as (tab & Hsw & -> & _).
  apply table_le_sorted with (S_ := S_) (E_ := E_) (F := F); auto.
  - destruct (@arrays_ok_spec S_ E_ N Harr 0 HN). lia.
  - intros w Hw. now apply value_in_T.
Qed.

End OneBuild.

Lemma sorted_strictly_increasing (l : list Z) :
  StronglySorted Z.lt l -> strictly_increasing l.
Proof. intros Hs k Hk. apply sorted_nth_lt; auto; lia. Qed.

Lemma table_inv_fresh : table_inv fresh.
Proof.
  unfold table_inv, fresh. simpl. repeat split; auto. congruence.
Qed.

Lemma Build_null (rm : RangeMap) (S_ E_ : option (list Z)) (N : nat) :
  S_ = None \/ E_ = None \/ N = 0 ->
  Build NDEBUG MINV MAXV rm S_ E_ N = Ok rm.
Proof.
  intros H. unfold Build. destruct S_ as [s|], E_ as [e|]; try reflexivity.
  destruct H as [H|[H| ->]]; try discriminate. reflexivity.
Qed.

Lemma reachable_table_inv (rm : RangeMap) : reachable NDEBUG MINV MAXV rm -> table_inv rm.
Proof.
  induction 1 as [|rm s0 e0 N rm' Hr IH Hok Hb]; [apply table_inv_fresh|].
  destruct s0 as [s|]; [|rewrite Build_null in Hb by auto; congruence].
  destruct e0 as [e|]; [|rewrite Build_null in Hb by auto; congruence].
  destruct (Nat.eq_dec N 0) as [->|HN];
    [rewrite Build_null in Hb by auto; congruence|].
  simpl in Hok.
  apply (@Build_table_inv s e N rm rm'); auto. lia.
Qed.

Lemma reachable_Tab_sorted (rm : RangeMap) :
  reachable NDEBUG MINV MAXV rm -> StronglySorted Z.le (Vec.elems (Tab rm)).
Proof.
  induction 1 as [|rm s0 e0 N rm' Hr IH Hok Hb]; [constructor|].
  destruct s0 as [s|]; [|rewrite Build_null in Hb by auto; congruence].
  destruct e0 as [e|]; [|rewrite Build_null in Hb by auto; congruence].
  destruct (Nat.eq_dec N 0) as [->|HN];
    [rewrite Build_null in Hb by auto; congruence|].
  simpl in Hok.
  apply (@Build_Tab_le_sorted s e N rm rm'); auto. lia.
Qed.

Lemma Query_table_inv (rm : RangeMap) (p : Z) :
  table_inv rm -> in_T MINV MAXV p = true ->
  exists l, Query rm p = Some l /\ StronglySorted lt l.
Proof.
  intros (Hlen & Hhd & Hall) Hp. apply in_T_spec in Hp.
  destruct (@Query_total rm p Hlen) as (l & Hq & Hl).
  - intros HT. rewrite (Hhd HT). lia.
  - exists l. split; [assumption|]. destruct Hl as [->|Hl]; [constructor|].
    rewrite Forall_forall in Hall. now apply Hall.
Qed.

End Interface.

(** * The specification *)

Section Specification.

Variable NDEBUG : bool.
Variables MINV MAXV : Z.

Lemma Query_fresh (rm : RangeMap) (p : Z) :
  Vec.elems (Tab rm) = [] -> Query rm p = Some [].
Proof. intros H. unfold Query, Vec.size. now rewrite H. Qed.

Lemma SlowCheck_In (p : Z) (S_ E_ : list Z) (N i : nat) :
  In i (SlowCheck p S_ E_ N) <-> i < N /\ (rd S_ i <= p < rd E_ i)%Z.
Proof.
  unfold SlowCheck.
  rewrite filter_In, in_seq, andb_true_iff, Z.leb_le, Z.ltb_lt. lia.
Qed.

(** C1.  For N intervals with start[i] <= end[i], Build(S, E, N) returns
    and, for every point p of the domain, Query(p) then returns exactly
    the indices i with start[i] <= p < end[i]: the list SlowCheck
    computes.  In particular the result is empty for a point below every
    start and for a point at or above every end.  (N = 0 is the early
    return of Build: it is covered for an object whose table is empty.) *)
Theorem Query_is_SlowCheck (rm : RangeMap) (S_ E_ : list Z) (N : nat) :
  (MINV < MAXV)%Z ->
  arrays_ok MINV MAXV S_ E_ N = true ->
  intervals_ok S_ E_ N = true ->
  0 < N \/ Vec.elems (Tab rm) = [] ->
  exists rm',
    Build NDEBUG MINV MAXV rm (Some S_) (Some E_) N = Ok rm'
    /\ forall p, in_T MINV MAXV p = true ->
         Query rm' p = Some (SlowCheck p S_ E_ N)
         /\ (forall i, In i (SlowCheck p S_ E_ N) <->
                       i < N /\ (rd S_ i <= p < rd E_ i)%Z)
         /\ ((forall i, i < N -> (p < rd S_ i)%Z) -> Query rm' p = Some [])
         /\ ((forall i, i < N -> (rd E_ i <= p)%Z) -> Query rm' p = Some []).
Proof.
  intros Hmm Harr Hint Hst.
  assert (Hrm : exists rm',
             Build NDEBUG MINV MAXV rm (Some S_) (Some E_) N = Ok rm'
             /\ forall p, in_T MINV MAXV p = true ->
                          Query rm' p = Some (SlowCheck p S_ E_ N)).
  { destruct (Nat.eq_dec N 0) as [->|HN].
    - exists rm. split; [apply Build_null; auto|].
      intros p _. destruct Hst as [Hst|Hst]; [lia|].
      now apply Query_fresh.
    - assert (HN' : 0 < N) by lia.
      destruct (@Build_Ok NDEBUG MINV MAXV S_ E_ N rm HN' Hint) as [rm' Hb].
      exists rm'. split; [assumption|]. intros p Hp.
      now apply (@Build_Query_SlowCheck NDEBUG MINV MAXV S_ E_ N rm rm' p). }
  destruct Hrm as (rm' & Hb & Hq). exists rm'. split; [assumption|].
  intros p Hp. rewrite (Hq p Hp).
  split; [reflexivity|]. split; [intros i; apply SlowCheck_In|].
  split; intros Hall; f_equal; apply filter_none; intros i Hi;
    apply in_seq in Hi; specialize (Hall i ltac:(lia));
    apply andb_false_iff.
  - left. apply Z.leb_gt. lia.
  - right. apply Z.ltb_ge. lia.
Qed.

(** C2 (amended).  For S = [0,5,10,15], E = [8,7,13,25] and T = int, after
    Build: Query(-1) = {}, Query(0) = {0}, Query(6) = {0,1},
    Query(8) = {} (8 is the excluded end of interval 0 and lies outside
    [5,7)), Query(10) = {2}, Query(13) = {}, Query(20) = {3},
    Query(25) = {}. *)
Theorem README_scenario (rm : RangeMap) :
  exists rm',
    Build NDEBUG INT_MIN INT_MAX rm
      (Some [0; 5; 10; 15]%Z) (Some [8; 7; 13; 25]%Z) 4 = Ok rm'
    /\ Query rm' (-1) = Some []
    /\ Query rm' 0 = Some [0]
    /\ Query rm' 6 = Some [0; 1]
    /\ Query rm' 8 = Some []
    /\ Query rm' 10 = Some [2]
    /\ Query rm' 13 = Some []
    /\ Query rm' 20 = Some [3]
    /\ Query rm' 25 = Some [].
Proof.
  destruct (@Build_Ok NDEBUG INT_MIN INT_MAX
              [0; 5; 10; 15]%Z [8; 7; 13; 25]%Z 4 rm) as [rm' Hb];
    [lia|reflexivity|].
  exists rm'. split; [assumption|].
  repeat split;
    match goal with
    | |- Query _ ?p = _ =>
        rewrite (@Build_Query_SlowCheck NDEBUG INT_MIN INT_MAX
                   [0; 5; 10; 15]%Z [8; 7; 13; 25]%Z 4 rm rm' p);
        [reflexivity|reflexivity|lia|reflexivity|reflexivity
         |assumption|reflexivity]
    end.
Qed.

(** C3 (amended).  Build with a null array pointer or with count zero
    returns at once and leaves the object as it was: every later Query
    returns what it returned before the call, which is the empty set on
    an object whose table is empty (one that was never built). *)
Theorem Build_null_keeps_state (rm : RangeMap) (S_ E_ : option (list Z))
        (N : nat) :
  S_ = None \/ E_ = None \/ N = 0 ->
  Build NDEBUG MINV MAXV rm S_ E_ N = Ok rm
  /\ (Vec.elems (Tab rm) = [] -> forall p, Query rm p = Some []).
Proof.
  intros H. split; [now apply Build_null|].
  intros HT p. now apply Query_fresh.
Qed.

(** C4 (amended).  The breakpoint table stays strictly increasing,
    Tab[0] < Tab[1] < ... < Tab[m-1], through every call of Build whose
    intervals have start[i] <= end[i]; the call returns. *)
Theorem Build_Tab_strictly_increasing
        (rm : RangeMap) (S_ E_ : option (list Z)) (N : nat) :
  (MINV < MAXV)%Z ->
  strictly_increasing (Vec.elems (Tab rm)) ->
  call_intervals_ok MINV MAXV S_ E_ N = true ->
  exists rm',
    Build NDEBUG MINV MAXV rm S_ E_ N = Ok rm'
    /\ strictly_increasing (Vec.elems (Tab rm')).
Proof.
  intros Hmm Hrm Hok.
  destruct S_ as [s|]; [|exists rm; split; [apply Build_null|]; auto].
  destruct E_ as [e|]; [|exists rm; split; [apply Build_null|]; auto].
  destruct (Nat.eq_dec N 0) as [->|HN];
    [exists rm; split; [apply Build_null|]; auto|].
  simpl in Hok. apply andb_true_iff in Hok. destruct Hok as [Harr Hint].
  assert (HN' : 0 < N) by lia.
  destruct (@Build_Ok NDEBUG MINV MAXV s e N rm HN' Hint) as [rm' Hb].
  exists rm'. split; [assumption|].
  apply sorted_strictly_increasing.
  now apply (@Build_sorted NDEBUG MINV MAXV s e N rm rm').
Qed.

(** C5 (amended).  For intervals with start[i] <= end[i], every entry of
    the active-set table that the sweep records differs from the entry
    before it.  Two adjacent entries are identical at one place only: the
    closing sentinel, which Build appends when no non-empty interval ends
    at the maximum of T, repeats the empty set of the last sweep entry
    (or of the opening sentinel).  So IList[k] = IList[k-1] exactly when
    k = m-1 and that sentinel was appended. *)
Theorem IList_adjacent_entries (rm : RangeMap) (S_ E_ : list Z) (N : nat) :
  arrays_ok MINV MAXV S_ E_ N = true ->
  intervals_ok S_ E_ N = true ->
  0 < N ->
  exists rm',
    Build NDEBUG MINV MAXV rm (Some S_) (Some E_) N = Ok rm'
    /\ forall k,
         1 <= k -> k < Vec.size (IList rm') ->
         (nth k (Vec.elems (IList rm')) []
          = nth (k - 1) (Vec.elems (IList rm')) []
          <-> k = Vec.size (IList rm') - 1
              /\ forall i, i < N -> rd S_ i <> rd E_ i ->
                           (rd E_ i < MAXV)%Z).
Proof.
  intros Harr Hint HN.
  destruct (@Build_Ok NDEBUG MINV MAXV S_ E_ N rm HN Hint) as [rm' Hb].
  exists rm'. split; [assumption|].
  pose proof (@Build_spec NDEBUG MINV MAXV S_ E_ N rm HN) as H.
  rewrite Hb in H. destruct H as (tab & Hsw & HT & HI & _).
  set (F := filtered S_ E_ N) in *.
  set (SS := std_sort (fun a b => (rd S_ a <? rd S_ b)%Z) F) in *.
  set (SE := std_sort (fun a b => (rd E_ a <? rd E_ b)%Z) F) in *.
  pose proof (@SS_argsort S_ E_ N) as HSS.
  pose proof (@SE_argsort S_ E_ N) as HSE.
  fold F in HSS, HSE. fold SS in HSS. fold SE in HSE.
  pose proof (@intervals_well_formed S_ E_ N Hint) as Hwf. fold F in Hwf.
  assert (Hup : upper_sentinel E_ SS SE MAXV = true <->
                forall i, i < N -> rd S_ i <> rd E_ i -> (rd E_ i < MAXV)%Z).
  { rewrite (upper_sentinel_iff HSS HSE MAXV). split.
    - intros Hall i Hi Hne. apply Hall. now apply filtered_In.
    - intros Hall x Hx. apply filtered_In in Hx. now apply Hall. }
  unfold Vec.size. rewrite HI. intros k Hk1 Hk.
  rewrite <- Hup. split.
  - intros Heq.
    destruct (Nat.lt_ge_cases k (length (lower_Tab S_ SS MINV ++ tab)))
      as [Hlt|Hge].
    + exfalso. revert Heq.
      now apply (@adjacent_distinct S_ E_ F SS SE HSS MINV MAXV tab k).
    + rewrite !length_app, length_map, lower_IList_length in Hk.
      rewrite !length_app, length_map, lower_IList_length.
      rewrite length_app in Hge. unfold upper_IList in *.
      destruct (upper_sentinel E_ SS SE MAXV); simpl in *; [|lia].
      split; [lia|reflexivity].
  - intros [-> Hs].
    destruct (@upper_sentinel_repeats S_ E_ F SS SE HSS MINV MAXV tab
                Hwf Hsw Hs) as (Hlen & H1 & H2).
    cbv zeta in H1, H2, Hlen. rewrite H1.
    replace (length (lower_IList S_ SS MINV ++ map (activeX S_ E_ F) tab
                     ++ upper_IList E_ SS SE MAXV) - 1 - 1)
      with (length (lower_IList S_ SS MINV ++ map (activeX S_ E_ F) tab
                    ++ upper_IList E_ SS SE MAXV) - 2) by lia.
    now rewrite H2.
Qed.

(** C6.  An interval with start[i] = end[i] is in no set that Query
    returns after Build, for any intervals and any point. *)
Theorem degenerate_never_returned
        (rm rm' : RangeMap) (S_ E_ : list Z) (N i : nat) (p : Z) :
  arrays_ok MINV MAXV S_ E_ N = true ->
  i < N -> rd S_ i = rd E_ i ->
  Build NDEBUG MINV MAXV rm (Some S_) (Some E_) N = Ok rm' ->
  in_T MINV MAXV p = true ->
  exists l, Query rm' p = Some l /\ ~ In i l.
Proof.
  intros Harr Hi Hdeg Hb Hp.
  assert (HN : 0 < N) by lia.
  destruct (@Build_table_inv NDEBUG MINV MAXV S_ E_ N rm rm' HN Harr Hb)
    as [(Hlen & Hhd & _) Hsub].
  apply in_T_spec in Hp.
  destruct (@Query_total rm' p Hlen) as (l & Hq & Hl).
  - intros HT. rewrite (Hhd HT). lia.
  - exists l. split; [assumption|]. intros Hin.
    destruct Hl as [->|Hl]; [destruct Hin|].
    apply (Hsub l i Hl), filtered_In in Hin. tauto.
Qed.

(** C7.  The tables do not depend on how std::sort orders entries with
    equal keys: for any two argsorts SS, SS' of the filtered indices by
    start and any two argsorts SE, SE' by end, the rest of Build gives
    the same result, which is the result of Build. *)
Theorem Build_independent_of_ties
        (rm : RangeMap) (S_ E_ : list Z) (N : nat) (SS SE SS' SE' : list nat) :
  is_argsort (rd S_) (filtered S_ E_ N) SS ->
  is_argsort (rd E_) (filtered S_ E_ N) SE ->
  is_argsort (rd S_) (filtered S_ E_ N) SS' ->
  is_argsort (rd E_) (filtered S_ E_ N) SE' ->
  Build_tables NDEBUG MINV MAXV S_ E_ SS' SE' rm
  = Build_tables NDEBUG MINV MAXV S_ E_ SS SE rm
  /\ (0 < N ->
      Build NDEBUG MINV MAXV rm (Some S_) (Some E_) N
      = Build_tables NDEBUG MINV MAXV S_ E_ SS SE rm).
Proof.
  intros HS HE HS' HE'.
  assert (Hnd : forall x, In x (filtered S_ E_ N) -> rd S_ x <> rd E_ x)
    by (intros x Hx; now apply filtered_In in Hx).
  split.
  - now apply Build_tables_eq with (F := filtered S_ E_ N);
      auto using filtered_sorted.
  - intros HN. rewrite Build_unfold by assumption. symmetry.
    apply Build_tables_eq with (F := filtered S_ E_ N);
      auto using filtered_sorted, std_sort_argsort.
Qed.

(** C8.  No capacity assertion of PUSHBACK fails during Build, for any
    arguments (and the sweep loop ends within its fuel); the tables end
    with at most 2*NF + 2 entries, NF being the number of intervals with
    start[i] <> end[i]. *)
Theorem Build_capacity (rm : RangeMap) (S_ E_ : option (list Z)) (N : nat) :
  Build NDEBUG MINV MAXV rm S_ E_ N <> Abort CapacityAssert
  /\ Build NDEBUG MINV MAXV rm S_ E_ N <> Abort LoopFuel
  /\ forall s e rm',
       S_ = Some s -> E_ = Some e -> 0 < N ->
       Build NDEBUG MINV MAXV rm S_ E_ N = Ok rm' ->
       Vec.size (Tab rm') <= 2 * length (filtered s e N) + 2
       /\ Vec.size (IList rm') <= 2 * length (filtered s e N) + 2.
Proof.
  assert (Hno : forall f, f = CapacityAssert \/ f = LoopFuel ->
                          Build NDEBUG MINV MAXV rm S_ E_ N <> Abort f).
  { intros f Hf.
    destruct S_ as [s|]; [|rewrite Build_null by auto; discriminate].
    destruct E_ as [e|]; [|rewrite Build_null by auto; discriminate].
    destruct (Nat.eq_dec N 0) as [->|HN];
      [rewrite Build_null by auto; discriminate|].
    assert (HN' : 0 < N) by lia.
    pose proof (@Build_spec NDEBUG MINV MAXV s e N rm HN') as H.
    intros Hb. rewrite Hb in H. now destruct Hf as [->| ->]. }
  split; [apply Hno; auto|]. split; [apply Hno; auto|].
  intros s e rm' -> -> HN Hb. eapply Build_size; eauto.
Qed.

(** C9.  Every set that Query returns, on any object and for any point,
    lists its indices in strictly ascending order. *)
Theorem Query_ascending (rm : RangeMap) (p : Z) :
  reachable NDEBUG MINV MAXV rm ->
  in_T MINV MAXV p = true ->
  exists l, Query rm p = Some l /\ StronglySorted lt l.
Proof.
  intros Hr Hp. apply Query_table_inv with (MINV := MINV) (MAXV := MAXV).
  - now apply reachable_table_inv with (NDEBUG := NDEBUG) (MAXV := MAXV).
  - assumption.
Qed.

(** C10.  Query never reads a table out of bounds.  On a default-built
    object it returns the empty set (the end-of-table branch).  After any
    calls of Build the first breakpoint is at most any point p of the
    domain, so when the breakpoint found by lower_bound exceeds p it is
    not the first one and IList[k-1] is in bounds; Query returns a set.
    (The table is sorted, as std::lower_bound requires, and the two
    tables have the same size.) *)
Theorem Query_in_bounds :
  (forall p, Query fresh p = Some [])
  /\ forall rm,
       reachable NDEBUG MINV MAXV rm ->
       forall p,
         in_T MINV MAXV p = true ->
         StronglySorted Z.le (Vec.elems (Tab rm))
         /\ Vec.size (IList rm) = Vec.size (Tab rm)
         /\ (Vec.elems (Tab rm) <> [] ->
             (nth 0 (Vec.elems (Tab rm)) 0 <= p)%Z)
         /\ (lower_bound (Vec.elems (Tab rm)) p < Vec.size (Tab rm) ->
             (nth (lower_bound (Vec.elems (Tab rm)) p) (Vec.elems (Tab rm)) 0
              > p)%Z ->
             1 <= lower_bound (Vec.elems (Tab rm)) p
             /\ lower_bound (Vec.elems (Tab rm)) p - 1 < Vec.size (IList rm))
         /\ exists l, Query rm p = Some l.
Proof.
  split; [intros p; reflexivity|].
  intros rm Hr p Hp.
  pose proof (reachable_table_inv Hr) as Hinv.
  destruct (@Query_table_inv MINV MAXV rm p Hinv Hp) as (l & Hq & _).
  destruct Hinv as (Hlen & Hhd & _). apply in_T_spec in Hp.
  split; [exact (reachable_Tab_sorted Hr)|].
  split; [assumption|]. split; [|split; [|now exists l]].
  - intros HT. rewrite (Hhd HT). lia.
  - intros Hk Hgt.
    assert (HT : Vec.elems (Tab rm) <> []).
    { intros E0. unfold Vec.size in Hk. rewrite E0 in Hk. simpl in Hk. lia. }
    specialize (Hhd HT).
    destruct (lower_bound (Vec.elems (Tab rm)) p) as [|k]; [lia|].
    unfold Vec.size in *. lia.
Qed.

End Specification.

(** * RangeMap<int>: the scenarios of the specification *)

Definition README_S : list Z := [0; 5; 10; 15]%Z.
Definition README_E : list Z := [8; 7; 13; 25]%Z.

(* The object of the README after rm.Build(S, E, 4) *)
Definition README_RangeMap : RangeMap :=
  Eval vm_compute in
    match Build false INT_MIN INT_MAX fresh (Some README_S) (Some README_E) 4
    with
    | Ok rm => rm
    | Abort _ => fresh
    end.

Lemma README_Build :
  Build false INT_MIN INT_MAX fresh (Some README_S) (Some README_E) 4
  = Ok README_RangeMap.
Proof. reflexivity. Defined.

Lemma README_reachable : reachable false INT_MIN INT_MAX README_RangeMap.
Proof.
  apply (@reach_Build false INT_MIN INT_MAX fresh
           (Some README_S) (Some README_E) 4 README_RangeMap).
  - apply reach_fresh.
  - reflexivity.
  - exact README_Build.
Defined.

(** The tables of the README: ten breakpoints, the two sentinels
    included, each with its active set. *)
Example README_tables :
  Vec.elems (Tab README_RangeMap)
  = [INT_MIN; 0; 5; 7; 8; 10; 13; 15; 25; INT_MAX]%Z
  /\ Vec.elems (IList README_RangeMap)
     = [[]; [0]; [0; 1]; [0]; []; [2]; []; [3]; []; []].
Proof. split; reflexivity. Qed.

(** Two identical intervals; two touching intervals. *)
Example identical_intervals :
  exists rm,
    Build false INT_MIN INT_MAX fresh (Some [1; 1]%Z) (Some [3; 3]%Z) 2 = Ok rm
    /\ Query rm 1 = Some [0; 1] /\ Query rm 3 = Some [].
Proof. eexists. split; [vm_compute; reflexivity|]. split; reflexivity. Qed.

Example touching_intervals :
  exists rm,
    Build false INT_MIN INT_MAX fresh (Some [0; 2]%Z) (Some [2; 4]%Z) 2 = Ok rm
    /\ Query rm 2 = Some [1].
Proof. eexists. split; [vm_compute; reflexivity|]. reflexivity. Qed.

(** An interval with end < start makes an assertion of the loop fail. *)
Example reversed_interval_aborts :
  Build false INT_MIN INT_MAX fresh (Some [5]%Z) (Some [3]%Z) 1
  = Abort IListAssert.
Proof. reflexivity. Qed.

(** ** Where the specification differs from the code *)

(** C2: Query(8) is the empty set, not {1}. *)
Lemma README_Query_8 :
  exists rm',
    Build false INT_MIN INT_MAX fresh (Some README_S) (Some README_E) 4
    = Ok rm'
    /\ Query rm' 8 = Some []
    /\ Query rm' 8 <> Some [1].
Proof.
  exists README_RangeMap. split; [exact README_Build|].
  split; [reflexivity|discriminate].
Qed.

(** C3: after Build on one interval, Build with null pointers, or with
    count zero, leaves the tables; Query(0) still returns {0}. *)
Lemma Build_null_after_Build :
  exists rm1,
    Build false INT_MIN INT_MAX fresh (Some [0]%Z) (Some [1]%Z) 1 = Ok rm1
    /\ Build false INT_MIN INT_MAX rm1 None None 1 = Ok rm1
    /\ Build false INT_MIN INT_MAX rm1 (Some []) (Some []) 0 = Ok rm1
    /\ Query rm1 0 = Some [0]
    /\ Query rm1 0 <> Some [].
Proof.
  eexists. split; [vm_compute; reflexivity|].
  repeat split; try reflexivity. discriminate.
Qed.

(** C4: with the interval [INT_MAX, 5), whose end is below its start,
    and [5, 7), no assertion fails and the table ends with INT_MAX
    twice. *)
Lemma Tab_repeats_INT_MAX :
  exists rm',
    Build false INT_MIN INT_MAX fresh
      (Some [INT_MAX; 5]%Z) (Some [5; 7]%Z) 2 = Ok rm'
    /\ Vec.elems (Tab rm') = [INT_MIN; 5; 7; INT_MAX; INT_MAX]%Z
    /\ ~ strictly_increasing (Vec.elems (Tab rm')).
Proof.
  eexists. split; [vm_compute; reflexivity|]. split; [reflexivity|].
  intros H. specialize (H 3). cbn in H.
  assert (Hlt : (INT_MAX < INT_MAX)%Z) by (apply H; lia). lia.
Qed.

(** C5: for the single interval [0, 1) the last two entries of the
    active-set table are both the empty set, the closing sentinel being
    one of them.  And for the interval [5, 3), whose end is below its
    start, a program compiled with NDEBUG records the same set twice at
    the start of the table (with assertions the same call aborts). *)
Lemma IList_repeats_empty :
  (exists rm',
     Build false INT_MIN INT_MAX fresh (Some [0]%Z) (Some [1]%Z) 1 = Ok rm'
     /\ Vec.elems (IList rm') = [[]; [0]; []; []]
     /\ nth 3 (Vec.elems (IList rm')) []
        = nth (3 - 1) (Vec.elems (IList rm')) [])
  /\ (exists rm',
        Build true INT_MIN INT_MAX fresh (Some [5]%Z) (Some [3]%Z) 1 = Ok rm'
        /\ Vec.elems (IList rm') = [[]; []; [0]; []]
        /\ nth 1 (Vec.elems (IList rm')) []
           = nth (1 - 1) (Vec.elems (IList rm')) []).
Proof.
  split; eexists; (split; [vm_compute; reflexivity|]); split; reflexivity.
Qed.

(** ** The theorems at concrete inputs *)

Lemma Query_is_SlowCheck_witness :
  exists rm',
    Build false INT_MIN INT_MAX fresh (Some README_S) (Some README_E) 4
    = Ok rm'
    /\ forall p, in_T INT_MIN INT_MAX p = true ->
         Query rm' p = Some (SlowCheck p README_S README_E 4)
         /\ (forall i, In i (SlowCheck p README_S README_E 4) <->
                       i < 4 /\ (rd README_S i <= p < rd README_E i)%Z)
         /\ ((forall i, i < 4 -> (p < rd README_S i)%Z) ->
             Query rm' p = Some [])
         /\ ((forall i, i < 4 -> (rd README_E i <= p)%Z) ->
             Query rm' p = Some []).
Proof.
  apply (@Query_is_SlowCheck false INT_MIN INT_MAX fresh README_S README_E 4).
  - reflexivity.
  - reflexivity.
  - reflexivity.
  - left. apply Nat.lt_0_succ.
Defined.

Lemma Build_null_keeps_state_witness :
  Build false INT_MIN INT_MAX README_RangeMap None None 0
  = Ok README_RangeMap
  /\ (Vec.elems (Tab README_RangeMap) = [] ->
      forall p, Query README_RangeMap p = Some []).
Proof.
  apply (@Build_null_keeps_state false INT_MIN INT_MAX
           README_RangeMap None None 0).
  left. reflexivity.
Defined.

Lemma Build_Tab_strictly_increasing_witness :
  exists rm',
    Build false INT_MIN INT_MAX fresh (Some README_S) (Some README_E) 4
    = Ok rm'
    /\ strictly_increasing (Vec.elems (Tab rm')).
Proof.
  apply (@Build_Tab_strictly_increasing false INT_MIN INT_MAX fresh
           (Some README_S) (Some README_E) 4).
  - reflexivity.
  - intros k Hk. exfalso. exact (Nat.nlt_0_r _ Hk).
  - reflexivity.
Defined.

Lemma IList_adjacent_entries_witness :
  exists rm',
    Build false INT_MIN INT_MAX fresh (Some README_S) (Some README_E) 4
    = Ok rm'
    /\ forall k,
         1 <= k -> k < Vec.size (IList rm') ->
         (nth k (Vec.elems (IList rm')) []
          = nth (k - 1) (Vec.elems (IList rm')) []
          <-> k = Vec.size (IList rm') - 1
              /\ forall i, i < 4 -> rd README_S i <> rd README_E i ->
                           (rd README_E i < INT_MAX)%Z).
Proof.
  apply (@IList_adjacent_entries false INT_MIN INT_MAX fresh
           README_S README_E 4).
  - reflexivity.
  - reflexivity.
  - apply Nat.lt_0_succ.
Defined.

(* Interval 1 is empty: [3, 3) *)
Lemma degenerate_never_returned_witness :
  exists rm',
    Build false INT_MIN INT_MAX fresh (Some [0; 3]%Z) (Some [5; 3]%Z) 2
    = Ok rm'
    /\ exists l, Query rm' 3 = Some l /\ ~ In 1 l.
Proof.
  eexists. split; [vm_compute; reflexivity|].
  apply (@degenerate_never_returned false INT_MIN INT_MAX fresh _
           [0; 3]%Z [5; 3]%Z 2 1 3).
  - reflexivity.
  - apply Nat.lt_succ_diag_r.
  - reflexivity.
  - reflexivity.
  - reflexivity.
Defined.

(* Two intervals [1, 3): each sort may return [0; 1] or [1; 0] *)
Lemma Build_independent_of_ties_witness :
  Build_tables false INT_MIN INT_MAX [1; 1]%Z [3; 3]%Z [1; 0] [1; 0] fresh
  = Build_tables false INT_MIN INT_MAX [1; 1]%Z [3; 3]%Z [0; 1] [0; 1] fresh
  /\ (0 < 2 ->
      Build false INT_MIN INT_MAX fresh (Some [1; 1]%Z) (Some [3; 3]%Z) 2
      = Build_tables false INT_MIN INT_MAX [1; 1]%Z [3; 3]%Z [0; 1] [0; 1]
          fresh).
Proof.
  apply (@Build_independent_of_ties false INT_MIN INT_MAX fresh
           [1; 1]%Z [3; 3]%Z 2 [0; 1] [0; 1] [1; 0] [1; 0]).
  - split; [apply Permutation_refl|].
    repeat constructor; discriminate.
  - split; [apply Permutation_refl|].
    repeat constructor; discriminate.
  - split; [apply perm_swap|].
    repeat constructor; discriminate.
  - split; [apply perm_swap|].
    repeat constructor; discriminate.
Defined.

Lemma Build_capacity_witness :
  Build false INT_MIN INT_MAX fresh (Some README_S) (Some README_E) 4
  <> Abort CapacityAssert
  /\ Build false INT_MIN INT_MAX fresh (Some README_S) (Some README_E) 4
     <> Abort LoopFuel
  /\ Vec.size (Tab README_RangeMap)
     <= 2 * length (filtered README_S README_E 4) + 2
  /\ Vec.size (IList README_RangeMap)
     <= 2 * length (filtered README_S README_E 4) + 2.
Proof.
  destruct (@Build_capacity false INT_MIN INT_MAX fresh
              (Some README_S) (Some README_E) 4) as (Hno & Hfuel & Hsize).
  split; [exact Hno|]. split; [exact Hfuel|].
  apply (Hsize README_S README_E README_RangeMap eq_refl eq_refl).
  - apply Nat.lt_0_succ.
  - exact README_Build.
Defined.

Lemma Query_ascending_witness :
  exists l, Query README_RangeMap 6 = Some l /\ StronglySorted lt l.
Proof.
  apply (@Query_ascending false INT_MIN INT_MAX README_RangeMap 6).
  - exact README_reachable.
  - reflexivity.
Defined.

Lemma Query_in_bounds_witness :
  (forall p, Query fresh p = Some [])
  /\ StronglySorted Z.le (Vec.elems (Tab README_RangeMap))
  /\ Vec.size (IList README_RangeMap) = Vec.size (Tab README_RangeMap)
  /\ (Vec.elems (Tab README_RangeMap) <> [] ->
      (nth 0 (Vec.elems (Tab README_RangeMap)) 0 <= 6)%Z)
  /\ (lower_bound (Vec.elems (Tab README_RangeMap)) 6
      < Vec.size (Tab README_RangeMap) ->
      (nth (lower_bound (Vec.elems (Tab README_RangeMap)) 6)
           (Vec.elems (Tab README_RangeMap)) 0 > 6)%Z ->
      1 <= lower_bound (Vec.elems (Tab README_RangeMap)) 6
      /\ lower_bound (Vec.elems (Tab README_RangeMap)) 6 - 1
         < Vec.size (IList README_RangeMap))
  /\ exists l, Query README_RangeMap 6 = Some l.
Proof.
  destruct (@Query_in_bounds false INT_MIN INT_MAX) as [Hfresh Hbuilt].
  split; [exact Hfresh|].
  apply (Hbuilt README_RangeMap README_reachable 6%Z). reflexivity.
Defined.

(** * Further properties of Build and Query *)

(** ** The tables that Build leaves *)

Lemma sorted_last_max (l : list Z) (y : Z) :
  StronglySorted Z.lt l -> In y l -> (y <= last l 0)%Z.
Proof.
  intros Hs Hy. destruct (In_nth _ _ 0%Z Hy) as [j [Hj <-]].
  rewrite <- nth_pred_last.
  destruct (Nat.eq_dec j (length l - 1)) as [->|Hne]; [lia|].
  assert (Hlt : j < length l - 1) by lia.
  assert (Hl : length l - 1 < length l) by lia.
  pose proof (sorted_nth_lt Hs Hlt Hl). lia.
Qed.

Lemma last_app_nonempty (A : Type) (a b : list A) (d : A) :
  b <> [] -> last (a ++ b) d = last b d.
Proof.
  intros Hb. destruct (@exists_last _ b Hb) as [b' [x ->]].
  now rewrite app_assoc, !last_last.
Qed.

Section FinalTables.

Variables MINV MAXV : Z.
Variables S_ E_ : list Z.
Variable F : list nat.
Variables SS SE : list nat.

Hypothesis SS_argsort : is_argsort (rd S_) F SS.
Hypothesis SE_argsort : is_argsort (rd E_) F SE.
Hypothesis F_in_T : forall w, is_value S_ E_ F w -> (MINV <= w <= MAXV)%Z.

Let table (tab : list Z) : list Z :=
  lower_Tab S_ SS MINV ++ tab ++ upper_Tab E_ SS SE MAXV.

(* The last breakpoint is the greatest value of T *)
Lemma table_last (tab : list Z) :
  swept S_ E_ F tab -> table tab <> [] /\ last (table tab) 0%Z = MAXV.
Proof.
  intros [Hs Hm]. unfold table, upper_Tab.
  destruct (upper_sentinel E_ SS SE MAXV) eqn:Hup.
  - split; [|now rewrite !app_assoc, last_last].
    intros H. apply (f_equal (@length Z)) in H.
    rewrite !length_app in H. simpl in H. lia.
  - unfold upper_sentinel in Hup. apply orb_false_iff in Hup.
    destruct Hup as [H0 Hlt]. apply Nat.eqb_neq in H0.
    apply Z.ltb_ge in Hlt.
    assert (HNF : length SS - 1 < length SS) by lia.
    pose proof (is_value_keyE SS_argsort SE_argsort HNF) as Hv.
    cbv beta in Hv. pose proof (F_in_T Hv) as Hr.
    assert (Hin : In MAXV tab).
    { apply Hm. replace MAXV with (rd E_ (ix SE (length SS - 1))) by lia.
      exact Hv. }
    assert (Hne : tab <> []) by (intros ->; destruct Hin).
    rewrite app_nil_r. split.
    + intros H. apply app_eq_nil in H. tauto.
    + rewrite last_app_nonempty by assumption.
      pose proof (@sorted_last_max tab MAXV Hs Hin) as Hle.
      assert (Hl : In (last tab 0%Z) tab).
      { rewrite <- nth_pred_last. apply nth_In.
        destruct tab; [congruence|simpl; lia]. }
      apply Hm, F_in_T in Hl. lia.
Qed.

Lemma table_In (tab : list Z) (v : Z) :
  swept S_ E_ F tab ->
  (In v (table tab) <-> v = MINV \/ v = MAXV \/ is_value S_ E_ F v).
Proof.
  intros Hsw. split.
  - unfold table. rewrite !in_app_iff. intros [H|[H|H]].
    + unfold lower_Tab in H.
      destruct (lower_sentinel S_ SS MINV); [|destruct H].
      destruct H as [<-|[]]. now left.
    + right. right. now apply (proj2 Hsw).
    + unfold upper_Tab in H.
      destruct (upper_sentinel E_ SS SE MAXV); [|destruct H].
      destruct H as [<-|[]]. right. now left.
  - intros [->|[->|Hv]].
    + destruct (@table_head S_ E_ F SS SE SS_argsort MINV MAXV tab Hsw)
        as [rest Hr]; [intros w Hw; now apply F_in_T|].
      unfold table. rewrite Hr. now left.
    + destruct (table_last Hsw) as [Hne Hl]. rewrite <- Hl.
      rewrite <- nth_pred_last. apply nth_In.
      assert (length (table tab) <> 0); [|lia].
      intros H0. now apply length_zero_iff_nil in H0.
    + unfold table. apply in_app_iff. right. apply in_app_iff. left.
      now apply (proj2 Hsw).
Qed.

End FinalTables.

Lemma Query_index (rm : RangeMap) (p : Z) :
  let T := Vec.elems (Tab rm) in
  let k := lower_bound T p in
  k < length T ->
  Vec.size (IList rm) = Vec.size (Tab rm) ->
  ((nth k T 0 > p)%Z -> 1 <= k) ->
  Query rm p
  = Some (nth (if (nth k T 0 >? p)%Z then k - 1 else k)
              (Vec.elems (IList rm)) []).
Proof.
  intros T k Hk Hlen H1. unfold Query, Vec.size in *. fold T. fold k.
  replace (k <? length T) with true by (symmetry; now apply Nat.ltb_lt).
  unfold at_offset.
  destruct (nth k T 0 >? p)%Z eqn:Hgt; cbn [Z.b2z].
  - apply Z.gtb_lt in Hgt. specialize (H1 ltac:(lia)).
    replace (Z.of_nat k - 1 <? 0)%Z with false
      by (symmetry; apply Z.ltb_ge; lia).
    replace (Z.to_nat (Z.of_nat k - 1)) with (k - 1) by lia.
    apply nth_error_nth'. rewrite Hlen. fold T. lia.
  - replace (Z.of_nat k - 0 <? 0)%Z with false
      by (symmetry; apply Z.ltb_ge; lia).
    replace (Z.to_nat (Z.of_nat k - 0)) with k by lia.
    apply nth_error_nth'. rewrite Hlen. fold T. lia.
Qed.

Section MoreOfBuild.

Variable NDEBUG : bool.
Variables MINV MAXV : Z.

Lemma is_value_filtered (S_ E_ : list Z) (N : nat) (v : Z) :
  is_value S_ E_ (filtered S_ E_ N) v
  <-> exists i, i < N /\ rd S_ i <> rd E_ i /\ (rd S_ i = v \/ rd E_ i = v).
Proof.
  unfold is_value. split.
  - intros [x [Hx Hv]]. apply filtered_In in Hx. exists x. tauto.
  - intros [i (Hi & Hne & Hv)]. exists i. split; [|assumption].
    now apply filtered_In.
Qed.

(* The tables after a call with N > 0, with what the sweep proved of them *)
Lemma Build_tables_of (rm rm' : RangeMap) (S_ E_ : list Z) (N : nat) :
  arrays_ok MINV MAXV S_ E_ N = true -> 0 < N ->
  Build NDEBUG MINV MAXV rm (Some S_) (Some E_) N = Ok rm' ->
  let T := Vec.elems (Tab rm') in
  T <> [] /\ nth 0 T 0%Z = MINV /\ last T 0%Z = MAXV
  /\ StronglySorted Z.le T
  /\ Vec.size (IList rm') = Vec.size (Tab rm')
  /\ forall v, In v T <->
               v = MINV \/ v = MAXV
               \/ is_value S_ E_ (filtered S_ E_ N) v.
Proof.
  intros Harr HN Hb T.
  pose proof (@Build_spec NDEBUG MINV MAXV S_ E_ N rm HN) as H.
  rewrite Hb in H. destruct H as (tab & Hsw & HT & HI & _).
  pose proof (@SS_argsort S_ E_ N) as HSS.
  pose proof (@SE_argsort S_ E_ N) as HSE.
  assert (Hr : forall w, is_value S_ E_ (filtered S_ E_ N) w ->
                         (MINV <= w <= MAXV)%Z).
  { intros w Hw. now apply (@value_in_T MINV MAXV S_ E_ N w). }
  destruct (@table_last MINV MAXV S_ E_ _ _ _ HSS HSE Hr tab Hsw)
    as [Hne Hlast].
  destruct (@Build_table_inv NDEBUG MINV MAXV S_ E_ N rm rm' HN Harr Hb)
    as [(Hlen & Hhd & _) _].
  unfold T. rewrite HT in *.
  split; [assumption|]. split; [now apply Hhd|]. split; [assumption|].
  split.
  { rewrite <- HT.
    now apply (@Build_Tab_le_sorted NDEBUG MINV MAXV S_ E_ N rm rm'). }
  split; [assumption|].
  intros v. now apply (@table_In MINV MAXV S_ E_ _ _ _ HSS HSE Hr tab v).
Qed.

(** X1.  After Build (non-null arrays of N > 0 values of T, any
    intervals) the breakpoint table starts with the least value of T,
    ends with the greatest, and holds besides exactly the values that are
    the start or the end of an interval with start[i] <> end[i]. *)
Theorem Tab_contents (rm rm' : RangeMap) (S_ E_ : list Z) (N : nat) :
  arrays_ok MINV MAXV S_ E_ N = true -> 0 < N ->
  Build NDEBUG MINV MAXV rm (Some S_) (Some E_) N = Ok rm' ->
  nth 0 (Vec.elems (Tab rm')) 0%Z = MINV
  /\ last (Vec.elems (Tab rm')) 0%Z = MAXV
  /\ forall v,
       In v (Vec.elems (Tab rm')) <->
       v = MINV \/ v = MAXV
       \/ exists i, i < N /\ rd S_ i <> rd E_ i
                    /\ (rd S_ i = v \/ rd E_ i = v).
Proof.
  intros Harr HN Hb.
  destruct (@Build_tables_of rm rm' S_ E_ N Harr HN Hb) as (_ & Hhd & Hl & _ & _ & Hin).
  split; [assumption|]. split; [assumption|].
  intros v. rewrite <- is_value_filtered. apply Hin.
Qed.

Lemma Build_lower_bound (rm rm' : RangeMap) (S_ E_ : list Z) (N : nat)
      (p : Z) :
  arrays_ok MINV MAXV S_ E_ N = true -> 0 < N ->
  Build NDEBUG MINV MAXV rm (Some S_) (Some E_) N = Ok rm' ->
  (p <= MAXV)%Z ->
  lower_bound (Vec.elems (Tab rm')) p < Vec.size (Tab rm').
Proof.
  intros Harr HN Hb Hp.
  destruct (@Build_tables_of rm rm' S_ E_ N Harr HN Hb) as (Hne & _ & Hl & Hs & _ & _).
  unfold Vec.size. set (T := Vec.elems (Tab rm')) in *.
  pose proof (lower_bound_le T p) as Hle.
  destruct (Nat.eq_dec (lower_bound T p) (length T)) as [Heq|]; [|lia].
  exfalso.
  assert (Hlen : length T <> 0)
    by (intros H0; now apply length_zero_iff_nil in H0).
  assert (Hj : length T - 1 < lower_bound T p) by lia.
  pose proof (@lower_bound_before T p (length T - 1) Hs Hj) as Hlt.
  rewrite nth_pred_last in Hlt. lia.
Qed.

(** X2.  After Build the end-of-table branch of Query is dead: for every
    point p of T, std::lower_bound finds a breakpoint (the last one is the
    greatest value of T), so Query returns an entry of IList, never the
    member Empty. *)
Theorem Query_finds_breakpoint
        (rm rm' : RangeMap) (S_ E_ : list Z) (N : nat) (p : Z) :
  arrays_ok MINV MAXV S_ E_ N = true -> 0 < N ->
  Build NDEBUG MINV MAXV rm (Some S_) (Some E_) N = Ok rm' ->
  in_T MINV MAXV p = true ->
  let k := lower_bound (Vec.elems (Tab rm')) p in
  k < Vec.size (Tab rm')
  /\ (p <= nth k (Vec.elems (Tab rm')) 0)%Z
  /\ Query rm' p
     = Some (nth (if (nth k (Vec.elems (Tab rm')) 0 >? p)%Z
                  then k - 1 else k)
                 (Vec.elems (IList rm')) []).
Proof.
  intros Harr HN Hb Hp k. apply in_T_spec in Hp.
  assert (Hk : k < Vec.size (Tab rm'))
    by (apply (@Build_lower_bound rm rm' S_ E_ N p); auto; lia).
  destruct (@Build_tables_of rm rm' S_ E_ N Harr HN Hb) as (Hne & Hhd & _ & Hs & Hlen & _).
  split; [assumption|]. split.
  - now apply lower_bound_at.
  - apply Query_index; auto.
    fold k. intros Hgt. destruct k; [|lia]. rewrite Hhd in Hgt. lia.
Qed.

End MoreOfBuild.

Section WellFormedTables.

Variable NDEBUG : bool.
Variables MINV MAXV : Z.
Variables S_ E_ : list Z.
Variable N : nat.
Variables rm rm' : RangeMap.

Hypothesis N_pos : 0 < N.
Hypothesis arrays : arrays_ok MINV MAXV S_ E_ N = true.
Hypothesis intervals : intervals_ok S_ E_ N = true.
Hypothesis built :
  Build NDEBUG MINV MAXV rm (Some S_) (Some E_) N = Ok rm'.

Lemma IList_map_SlowCheck :
  Vec.elems (IList rm')
  = map (fun v => SlowCheck v S_ E_ N) (Vec.elems (Tab rm')).
Proof.
  pose proof (@Build_spec NDEBUG MINV MAXV S_ E_ N rm N_pos) as H.
  rewrite built in H. destruct H as (tab & Hsw & HT & HI & _).
  rewrite HT, HI.
  rewrite (@table_map S_ E_ (filtered S_ E_ N) _ _
             (@SS_argsort S_ E_ N) MINV MAXV tab).
  - apply map_ext. intros v. symmetry. apply SlowCheck_activeW.
  - now apply intervals_well_formed.
  - intros w Hw. now apply (@value_in_T MINV MAXV S_ E_ N w).
Qed.

(** X3.  After Build (N > 0 intervals with start <= end) the two tables
    are parallel, and the k-th entry of IList is the brute-force answer
    at the k-th breakpoint: the intervals that contain Tab[k]. *)
Theorem IList_entry_is_SlowCheck (k : nat) :
  Vec.size (IList rm') = Vec.size (Tab rm')
  /\ (k < Vec.size (Tab rm') ->
      nth k (Vec.elems (IList rm')) []
      = SlowCheck (nth k (Vec.elems (Tab rm')) 0%Z) S_ E_ N).
Proof.
  unfold Vec.size. rewrite IList_map_SlowCheck, length_map.
  split; [reflexivity|]. intros Hk.
  rewrite (nth_indep _ [] (SlowCheck 0 S_ E_ N))
    by (now rewrite length_map).
  apply (map_nth (fun v => SlowCheck v S_ E_ N)).
Qed.

(** X4.  The comment of Query holds after Build (N > 0 intervals with
    start <= end, T of more than one value): for a point p of T, Query
    returns IList[x] where x is the largest index such that
    Tab[x] <= p. *)
Theorem Query_largest_index (p : Z) :
  (MINV < MAXV)%Z -> in_T MINV MAXV p = true ->
  exists x,
    x < Vec.size (Tab rm')
    /\ (nth x (Vec.elems (Tab rm')) 0 <= p)%Z
    /\ (forall y, y < Vec.size (Tab rm') ->
                  (nth y (Vec.elems (Tab rm')) 0 <= p)%Z -> y <= x)
    /\ Query rm' p = Some (nth x (Vec.elems (IList rm')) []).
Proof.
  intros Hmm Hp. apply in_T_spec in Hp.
  assert (Hk : lower_bound (Vec.elems (Tab rm')) p < Vec.size (Tab rm'))
    by (apply (@Build_lower_bound NDEBUG MINV MAXV rm rm' S_ E_ N p);
        auto; lia).
  destruct (@Build_tables_of NDEBUG MINV MAXV rm rm' S_ E_ N
              arrays N_pos built) as (Hne & Hhd & _ & Hle & Hlen & _).
  pose proof (@Build_sorted NDEBUG MINV MAXV S_ E_ N rm rm'
                Hmm N_pos intervals built) as Hs.
  unfold Vec.size in *.
  set (T := Vec.elems (Tab rm')) in *. set (k := lower_bound T p) in *.
  pose proof (@lower_bound_at T p Hle Hk) as Hat. fold k in Hat.
  assert (H1 : (nth k T 0 > p)%Z -> 1 <= k).
  { intros Hgt. destruct k; [|lia]. rewrite Hhd in Hgt. lia. }
  exists (if (nth k T 0 >? p)%Z then k - 1 else k).
  destruct (nth k T 0 >? p)%Z eqn:Hgt.
  - apply Z.gtb_lt in Hgt. specialize (H1 ltac:(lia)).
    split; [lia|]. split.
    { assert (Hb : (nth (k - 1) T 0 < p)%Z)
        by (apply lower_bound_before; [assumption|fold k; lia]).
      lia. }
    split.
    { intros y Hy Hyp.
      destruct (Nat.le_gt_cases y (k - 1)) as [|Hyk]; [assumption|].
      pose proof (@sorted_nth_le T k y Hle ltac:(lia) Hy). lia. }
    rewrite (@Query_index rm' p); fold T; fold k; auto.
    replace (nth k T 0 >? p)%Z with true
      by (symmetry; apply Z.gtb_lt; lia).
    reflexivity.
  - rewrite Z.gtb_ltb in Hgt. apply Z.ltb_ge in Hgt.
    split; [assumption|]. split; [assumption|]. split.
    { intros y Hy Hyp.
      destruct (Nat.le_gt_cases y k) as [|Hyk]; [assumption|].
      pose proof (@sorted_nth_lt T k y Hs Hyk Hy). lia. }
    rewrite (@Query_index rm' p); fold T; fold k; auto.
    replace (nth k T 0 >? p)%Z with false
      by (symmetry; rewrite Z.gtb_ltb; apply Z.ltb_ge; lia).
    reflexivity.
Qed.

End WellFormedTables.

(** ** Inputs without a proper interval *)

Lemma filtered_nil (S_ E_ : list Z) (N : nat) :
  (forall i, i < N -> rd S_ i = rd E_ i) -> filtered S_ E_ N = [].
Proof.
  intros H. unfold filtered. apply filter_none. intros i Hi.
  apply in_seq in Hi. apply negb_false_iff, Z.eqb_eq, H. lia.
Qed.

Section EdgeCases.

Variable NDEBUG : bool.
Variables MINV MAXV : Z.

(** X5.  When every interval is empty (start[i] = end[i] for all i < N,
    N > 0), Build returns with the two sentinels alone, Tab = {MINV,
    MAXV} and IList = {{}, {}}, whatever the object held before, and
    Query returns the empty set for every point from MINV on. *)
Theorem Build_all_empty (rm : RangeMap) (S_ E_ : list Z) (N : nat) :
  0 < N -> (forall i, i < N -> rd S_ i = rd E_ i) ->
  exists rm',
    Build NDEBUG MINV MAXV rm (Some S_) (Some E_) N = Ok rm'
    /\ Vec.elems (Tab rm') = [MINV; MAXV]
    /\ Vec.elems (IList rm') = [[]; []]
    /\ forall p, (MINV <= p)%Z -> Query rm' p = Some [].
Proof.
  intros HN Hdeg.
  pose proof (@Build_spec NDEBUG MINV MAXV S_ E_ N rm HN) as H.
  rewrite (@filtered_nil S_ E_ N Hdeg) in H. cbn [std_sort] in H.
  destruct (Build NDEBUG MINV MAXV rm (Some S_) (Some E_) N) as [rm'|f].
  2:{ exfalso. destruct f; try exact H; apply H; intros x []. }
  destruct H as (tab & [_ Hm] & HT & HI & _).
  assert (Htab : tab = []).
  { destruct tab as [|v tab']; [reflexivity|]. exfalso.
    destruct (proj1 (Hm v) (or_introl eq_refl)) as [x [[] _]]. }
  subst tab. cbn in HT, HI.
  exists rm'. split; [reflexivity|]. split; [assumption|].
  split; [assumption|]. intros p Hp.
  destruct (@Query_total rm' p) as (l & Hq & Hl).
  - now rewrite HT, HI.
  - intros _. rewrite HT. cbn. lia.
  - rewrite Hq. f_equal. destruct Hl as [->|Hl]; [reflexivity|].
    rewrite HI in Hl. unfold Empty in Hl. cbn in Hl. intuition congruence.
Qed.

End EdgeCases.

(** ** Assertions compiled out *)

Section NoAssertions.

Variables MINV MAXV : Z.
Variables S_ E_ : list Z.





Variables SS SE : list nat.







End NoAssertions.


(** ** The object before the call *)

(* Two objects hold the same tables (their capacities may differ) *)
Definition same_tables (a b : RangeMap) : Prop :=
  Vec.elems (Tab a) = Vec.elems (Tab b)
  /\ Vec.elems (IList a) = Vec.elems (IList b).

Definition same_state (a b : sweep_state) : Prop :=
  i1 a = i1 b /\ i2 a = i2 b /\ AS a = AS b
  /\ same_tables (tables a) (tables b).

Lemma Query_same_tables (a b : RangeMap) (p : Z) :
  same_tables a b -> Query a p = Query b p.
Proof. intros [HT HI]. unfold Query, Vec.size. now rewrite HT, HI. Qed.

Lemma last_differs_Z_elems (v w : Vec.t Z) :
  Vec.elems v = Vec.elems w -> last_differs_Z v = last_differs_Z w.
Proof. intros H. unfold last_differs_Z, Vec.size. now rewrite H. Qed.

Lemma last_differs_set_elems (v w : Vec.t (list nat)) :
  Vec.elems v = Vec.elems w -> last_differs_set v = last_differs_set w.
Proof. intros H. unfold last_differs_set, Vec.size. now rewrite H. Qed.

Section Simulation.

Variable NDEBUG : bool.
Variables S_ E_ : list Z.
Variable F : list nat.
Variables SS SE : list nat.

Hypothesis F_sorted : StronglySorted lt F.
Hypothesis F_nondeg : forall x, In x F -> rd S_ x <> rd E_ x.
Hypothesis SS_argsort : is_argsort (rd S_) F SS.
Hypothesis SE_argsort : is_argsort (rd E_) F SE.

Lemma sweep_next_same (a b : sweep_state) :
  same_state a b ->
  next_value S_ E_ SS SE a = next_value S_ E_ SS SE b
  /\ same_state (sweep_next S_ E_ SS SE a) (sweep_next S_ E_ SS SE b).
Proof.
  destruct a as [a1 a2 aS [aT aI]], b as [b1 b2 bS [bT bI]].
  unfold same_state, same_tables. cbn [i1 i2 AS tables Tab IList].
  intros (-> & -> & -> & HT & HI). split; [reflexivity|].
  unfold sweep_next, next_value.
  cbn [i1 i2 AS tables Tab IList Vec.push_back Vec.elems].
  now rewrite HT, HI.
Qed.

Variable pre : list Z.
Variable preI : list (list nat).
Hypothesis pre_len : length pre <= 1.
Hypothesis preI_len : length preI = length pre.

Lemma sweep_loop_sim (fuel : nat) :
  forall (u : Z) (a b : sweep_state),
    Inv S_ E_ F SS SE pre preI u a -> Inv S_ E_ F SS SE pre preI u b ->
    same_state a b ->
    match sweep_loop NDEBUG S_ E_ SS SE fuel a,
          sweep_loop NDEBUG S_ E_ SS SE fuel b with
    | Ok a', Ok b' => same_state a' b'
    | Abort f, Abort g => f = g
    | _, _ => False
    end.
Proof.
  induction fuel as [|fuel IH]; intros u a b Ha Hb Hs;
    pose proof Hs as (E1 & E2 & _); cbn [sweep_loop];
    rewrite <- E1, <- E2.
  - destruct ((i1 a <? length SS) || (i2 a <? length SS));
      [reflexivity|assumption].
  - destruct ((i1 a <? length SS) || (i2 a <? length SS)) eqn:Hc;
      [|assumption].
    apply orb_true_iff in Hc. rewrite !Nat.ltb_lt in Hc.
    assert (Hc' : i1 b < length SS \/ i2 b < length SS) by lia.
    rewrite !sweep_body_unfold. unfold assert_.
    destruct (sweep_capacity pre_len preI_len Ha Hc) as [-> ->].
    destruct (sweep_capacity pre_len preI_len Hb Hc') as [-> ->].
    rewrite !orb_true_r. cbn [bind].
    destruct (sweep_next_same Hs) as [Hv Hn].
    pose proof Hn as (_ & _ & _ & HT & HI).
    rewrite <- (@last_differs_Z_elems _ _ HT),
      <- (@last_differs_set_elems _ _ HI).
    destruct (NDEBUG
              || last_differs_Z (Tab (tables (sweep_next S_ E_ SS SE a))));
      cbn [bind]; [|reflexivity].
    destruct (NDEBUG
              || last_differs_set
                   (IList (tables (sweep_next S_ E_ SS SE a))));
      cbn [bind]; [|reflexivity].
    destruct (sweep_next_inv F_sorted F_nondeg SS_argsort SE_argsort Ha Hc)
      as (_ & _ & _ & Ha' & _).
    destruct (sweep_next_inv F_sorted F_nondeg SS_argsort SE_argsort Hb Hc')
      as (_ & _ & _ & Hb' & _).
    rewrite <- Hv in Hb'. exact (IH _ _ _ Ha' Hb' Hn).
Qed.

End Simulation.

Section Replaces.

Variable NDEBUG : bool.
Variables MINV MAXV : Z.
Variables S_ E_ : list Z.

Lemma Build_tables_sim (F SS SE : list nat) (rm1 rm2 : RangeMap) :
  StronglySorted lt F -> (forall x, In x F -> rd S_ x <> rd E_ x) ->
  is_argsort (rd S_) F SS -> is_argsort (rd E_) F SE ->
  match Build_tables NDEBUG MINV MAXV S_ E_ SS SE rm1,
        Build_tables NDEBUG MINV MAXV S_ E_ SS SE rm2 with
  | Ok r1, Ok r2 => same_tables r1 r2
  | Abort f, Abort g => f = g
  | _, _ => False
  end.
Proof.
  intros HF Hnd HSS HSE. rewrite !Build_tables_unfold.
  destruct (start_tables_ok NDEBUG S_ SS MINV rm1)
    as (a & -> & HTa & HIa & HcTa & HcIa).
  destruct (start_tables_ok NDEBUG S_ SS MINV rm2)
    as (b & -> & HTb & HIb & HcTb & HcIb).
  cbn [bind].
  pose proof (lower_Tab_length S_ SS MINV) as Hpl.
  pose proof (lower_IList_length S_ SS MINV) as HpI.
  pose proof (lower_IList_last S_ SS MINV) as Hlast.
  destruct (is_value_below S_ E_ F) as [u Hu].
  pose proof (@Inv_init S_ E_ F SS SE HSS HSE _ _ Hpl HpI Hlast u a
                Hu HTa HIa HcTa HcIa) as Ia.
  pose proof (@Inv_init S_ E_ F SS SE HSS HSE _ _ Hpl HpI Hlast u b
                Hu HTb HIb HcTb HcIb) as Ib.
  assert (Hs : same_state (mkSweep 0 0 [] a) (mkSweep 0 0 [] b)).
  { unfold same_state, same_tables. cbn [i1 i2 AS tables].
    rewrite HTa, HTb, HIa, HIb. auto. }
  pose proof (@sweep_loop_sim NDEBUG S_ E_ F SS SE HF Hnd HSS HSE _ _
                Hpl HpI (length SS + length SS) u _ _ Ia Ib Hs) as Hsim.
  pose proof (@sweep_loop_final NDEBUG S_ E_ F SS SE HF Hnd HSS HSE _ _
                Hpl HpI (@lower_Tab_below S_ SS MINV) Hlast a
                HTa HIa HcTa HcIa) as Hfa.
  pose proof (@sweep_loop_final NDEBUG S_ E_ F SS SE HF Hnd HSS HSE _ _
                Hpl HpI (@lower_Tab_below S_ SS MINV) Hlast b
                HTb HIb HcTb HcIb) as Hfb.
  destruct (sweep_loop NDEBUG S_ E_ SS SE (length SS + length SS)
              (mkSweep 0 0 [] a)) as [sa|fa];
    destruct (sweep_loop NDEBUG S_ E_ SS SE (length SS + length SS)
                (mkSweep 0 0 [] b)) as [sb|fb];
    cbn [bind]; try contradiction; try exact Hsim.
  destruct Hsim as (_ & _ & _ & [HT HI]).
  destruct Hfa as (ta & _ & HTa' & HIa' & Hla & HcTa' & HcIa').
  destruct Hfb as (tb & _ & HTb' & HIb' & Hlb & HcTb' & HcIb').
  destruct (upper_sentinel E_ SS SE MAXV); [|split; assumption].
  rewrite !PUSHBACK_ok; cbn [bind].
  - unfold same_tables. cbn [Tab IList Vec.push_back Vec.elems].
    now rewrite HT, HI.
  - unfold Vec.size. rewrite HIb', length_app, length_map, HpI. lia.
  - unfold Vec.size. rewrite HTb', length_app. lia.
  - unfold Vec.size. rewrite HIa', length_app, length_map, HpI. lia.
  - unfold Vec.size. rewrite HTa', length_app. lia.
Qed.

(** X7.  Build replaces what the object held: for the same arrays and
    N > 0, called on any two objects it either returns on both, with
    the same breakpoints and the same sets, hence the same answers of
    Query, or fails the same assertion on both. *)
Theorem Build_replaces_tables (rm1 rm2 : RangeMap) (N : nat) :
  0 < N ->
  match Build NDEBUG MINV MAXV rm1 (Some S_) (Some E_) N,
        Build NDEBUG MINV MAXV rm2 (Some S_) (Some E_) N with
  | Ok r1, Ok r2 =>
      Vec.elems (Tab r1) = Vec.elems (Tab r2)
      /\ Vec.elems (IList r1) = Vec.elems (IList r2)
      /\ forall p, Query r1 p = Query r2 p
  | Abort f, Abort g => f = g
  | _, _ => False
  end.
Proof.
  intros HN. rewrite !Build_unfold by assumption.
  pose proof (@Build_tables_sim (filtered S_ E_ N) _ _ rm1 rm2
                (filtered_sorted S_ E_ N)
                (fun x Hx => proj2 (proj1 (filtered_In S_ E_ N x) Hx))
                (@SS_argsort S_ E_ N) (@SE_argsort S_ E_ N)) as H.
  destruct (Build_tables NDEBUG MINV MAXV S_ E_ _ _ rm1) as [r1|f];
    destruct (Build_tables NDEBUG MINV MAXV S_ E_ _ _ rm2) as [r2|g];
    try exact H.
  destruct H as [HT HI]. split; [assumption|]. split; [assumption|].
  intros p. apply Query_same_tables. now split.
Qed.

End Replaces.

(** ** Reversed intervals among the others *)

Section Entries.

Variables S_ E_ : list Z.
Variable F : list nat.
Variables SS SE : list nat.
Variables MINV MAXV : Z.
Variable tab : list Z.

Hypothesis tab_swept : swept S_ E_ F tab.

Let T : list Z := lower_Tab S_ SS MINV ++ tab ++ upper_Tab E_ SS SE MAXV.
Let I : list (list nat) :=
  lower_IList S_ SS MINV ++ map (activeX S_ E_ F) tab
  ++ upper_IList E_ SS SE MAXV.

(* An entry is the active set at a start or at an end, or the empty set
   of a sentinel *)
Lemma entry_cases (j : nat) :
  j < length T ->
  (is_value S_ E_ F (nth j T 0%Z)
   /\ nth j I [] = activeX S_ E_ F (nth j T 0%Z))
  \/ (nth j I [] = [] /\ nth j T 0%Z = MINV
      /\ lower_sentinel S_ SS MINV = true)
  \/ (nth j I [] = [] /\ nth j T 0%Z = MAXV).
Proof.
  assert (Hmid : forall j', j' < length (tab ++ upper_Tab E_ SS SE MAXV) ->
            let t := nth j' (tab ++ upper_Tab E_ SS SE MAXV) 0%Z in
            let e := nth j' (map (activeX S_ E_ F) tab
                             ++ upper_IList E_ SS SE MAXV) [] in
            (is_value S_ E_ F t /\ e = activeX S_ E_ F t)
            \/ (e = [] /\ t = MAXV)).
  { intros j' Hj' t e. subst t e.
    destruct (Nat.lt_ge_cases j' (length tab)) as [Hlt|Hge].
    - left. rewrite !app_nth1 by (try rewrite length_map; lia).
      split; [apply (proj2 tab_swept), nth_In; assumption|].
      rewrite (nth_indep _ [] (activeX S_ E_ F 0%Z))
        by (rewrite length_map; lia).
      apply map_nth.
    - right. rewrite length_app in Hj'. unfold upper_Tab, upper_IList in *.
      destruct (upper_sentinel E_ SS SE MAXV); cbn [length] in Hj'; [|lia].
      rewrite !app_nth2 by (try rewrite length_map; lia).
      rewrite length_map.
      replace (j' - length tab) with 0 by lia. split; reflexivity. }
  unfold T, I, lower_Tab, lower_IList.
  destruct (lower_sentinel S_ SS MINV) eqn:Hlo; cbn [app length].
  - intros Hj. destruct j as [|j']; [right; left; auto|]. cbn [nth].
    destruct (Hmid j' ltac:(lia)) as [H|H]; [left|right; right]; exact H.
  - intros Hj.
    destruct (Hmid j Hj) as [H|H]; [left|right; right]; exact H.
Qed.

End Entries.

Section AnyIntervals.

Variable NDEBUG : bool.
Variables MINV MAXV : Z.
Variables S_ E_ : list Z.
Variable N : nat.
Variables rm rm' : RangeMap.

Hypothesis N_pos : 0 < N.
Hypothesis arrays : arrays_ok MINV MAXV S_ E_ N = true.
Hypothesis built :
  Build NDEBUG MINV MAXV rm (Some S_) (Some E_) N = Ok rm'.

(** X8.  Reversed intervals do not disturb the others: whenever Build
    returns (as it always does under NDEBUG), for arrays of values of T
    that may hold intervals with start > end, Query at a point p of T
    returns a set that holds an interval i with start[i] <= end[i] if
    and only if start[i] <= p < end[i]. *)
Theorem Query_among_reversed (p : Z) :
  in_T MINV MAXV p = true ->
  exists l,
    Query rm' p = Some l
    /\ forall i, i < N -> (rd S_ i <= rd E_ i)%Z ->
                 (In i l <-> (rd S_ i <= p < rd E_ i)%Z).
Proof.
  intros Hp. apply in_T_spec in Hp.
  pose proof (@Build_spec NDEBUG MINV MAXV S_ E_ N rm N_pos) as H.
  rewrite built in H. destruct H as (tab & Hsw & HT & HI & _).
  set (SS := std_sort (fun a b => (rd S_ a <? rd S_ b)%Z)
               (filtered S_ E_ N)) in *.
  set (SE := std_sort (fun a b => (rd E_ a <? rd E_ b)%Z)
               (filtered S_ E_ N)) in *.
  pose proof (@SS_argsort S_ E_ N) as HSS. fold SS in HSS.
  destruct (@Build_tables_of NDEBUG MINV MAXV rm rm' S_ E_ N
              arrays N_pos built) as (Hne & Hhd & _ & Hle & Hlen & Hin).
  assert (Hk : lower_bound (Vec.elems (Tab rm')) p < Vec.size (Tab rm'))
    by (apply (@Build_lower_bound NDEBUG MINV MAXV rm rm' S_ E_ N p);
        auto; lia).
  unfold Vec.size in Hk, Hlen.
  set (T := Vec.elems (Tab rm')) in *. set (k := lower_bound T p) in *.
  pose proof (@lower_bound_at T p Hle Hk) as Hat. fold k in Hat.
  assert (H1 : (nth k T 0 > p)%Z -> 1 <= k).
  { intros Hgt. destruct k; [|lia]. rewrite Hhd in Hgt. lia. }
  set (x := if (nth k T 0 >? p)%Z then k - 1 else k).
  assert (Hx : x < length T /\ (nth x T 0 <= p)%Z
               /\ forall v, In v T -> (v <= nth x T 0 \/ p < v)%Z).
  { unfold x. destruct (nth k T 0 >? p)%Z eqn:Hgt.
    - apply Z.gtb_lt in Hgt. specialize (H1 ltac:(lia)).
      split; [lia|]. split.
      + assert (Hb : (nth (k - 1) T 0 < p)%Z)
          by (apply lower_bound_before; [assumption|fold k; lia]).
        lia.
      + intros v Hv. destruct (In_nth _ _ 0%Z Hv) as [j [Hj <-]].
        destruct (Nat.le_gt_cases j (k - 1)) as [Hjk|Hjk].
        * left. apply sorted_nth_le; auto; lia.
        * right. pose proof (@sorted_nth_le T k j Hle ltac:(lia) Hj). lia.
    - rewrite Z.gtb_ltb in Hgt. apply Z.ltb_ge in Hgt.
      split; [assumption|]. split; [assumption|]. intros v Hv. lia. }
  destruct Hx as (Hxl & Hq & Hgap).
  exists (nth x (Vec.elems (IList rm')) []). split.
  { unfold x. apply (@Query_index rm' p); fold T; fold k; auto. }
  assert (Hval : forall i, i < N -> rd S_ i <> rd E_ i ->
                   ((rd S_ i <= nth x T 0 \/ p < rd S_ i)%Z)
                   /\ ((rd E_ i <= nth x T 0 \/ p < rd E_ i)%Z)).
  { intros i Hi Hne'.
    assert (HF : In i (filtered S_ E_ N)) by (apply filtered_In; auto).
    split; apply Hgap, Hin; right; right; exists i; auto. }
  pose proof (@entry_cases S_ E_ (filtered S_ E_ N) SS SE MINV MAXV tab
                Hsw x) as Hc.
  cbv zeta in Hc. rewrite <- HT, <- HI in Hc. fold T in Hc.
  specialize (Hc Hxl).
  intros i Hi Hse.
  destruct (@arrays_ok_spec MINV MAXV S_ E_ N arrays i Hi) as [HSi HEi].
  destruct Hc as [[Hv ->]|[(-> & Hqm & Hlo)|(-> & Hqm)]].
  - rewrite activeX_In by (exact SS || exact SE).
    rewrite filtered_In. split.
    + intros ([_ Hne'] & HS' & HE'). destruct (Hval i Hi Hne'). lia.
    + intros Hpi. assert (Hne' : rd S_ i <> rd E_ i) by lia.
      destruct (Hval i Hi Hne'). split; [auto|]. lia.
  - split; [intros []|]. intros Hpi. exfalso.
    assert (Hne' : rd S_ i <> rd E_ i) by lia.
    destruct (Hval i Hi Hne') as [HvS _].
    assert (HF : In i (filtered S_ E_ N)) by (apply filtered_In; auto).
    apply (In_F_SS HSS) in HF. destruct HF as [j [Hj Hij]].
    unfold lower_sentinel in Hlo. apply orb_true_iff in Hlo.
    destruct Hlo as [H0|Hlo]; [apply Nat.eqb_eq in H0; lia|].
    apply Z.gtb_lt in Hlo.
    pose proof (keyS_mono HSS (Nat.le_0_l j) Hj) as Hm. cbv beta in Hm.
    rewrite Hij in Hm. lia.
  - split; [intros []|]. intros Hpi. lia.
Qed.

End AnyIntervals.

(** ** RangeMap<int>: instances *)

(* Two intervals, the second reversed, built without assertions *)
Definition reversed_S : list Z := [0; 9]%Z.
Definition reversed_E : list Z := [5; 2]%Z.

Definition reversed_RangeMap : RangeMap :=
  Eval vm_compute in
    match Build true INT_MIN INT_MAX fresh (Some reversed_S) (Some reversed_E) 2
    with
    | Ok rm => rm
    | Abort _ => fresh
    end.

Lemma Tab_contents_witness :
  nth 0 (Vec.elems (Tab README_RangeMap)) 0%Z = INT_MIN
  /\ last (Vec.elems (Tab README_RangeMap)) 0%Z = INT_MAX
  /\ forall v,
       In v (Vec.elems (Tab README_RangeMap)) <->
       v = INT_MIN \/ v = INT_MAX
       \/ exists i, i < 4 /\ rd README_S i <> rd README_E i
                    /\ (rd README_S i = v \/ rd README_E i = v).
Proof.
  apply (@Tab_contents false INT_MIN INT_MAX fresh README_RangeMap
           README_S README_E 4).
  - reflexivity.
  - apply Nat.lt_0_succ.
  - exact README_Build.
Defined.

Lemma Query_finds_breakpoint_witness :
  let k := lower_bound (Vec.elems (Tab README_RangeMap)) 8 in
  k < Vec.size (Tab README_RangeMap)
  /\ (8 <= nth k (Vec.elems (Tab README_RangeMap)) 0)%Z
  /\ Query README_RangeMap 8
     = Some (nth (if (nth k (Vec.elems (Tab README_RangeMap)) 0 >? 8)%Z
                  then k - 1 else k)
                 (Vec.elems (IList README_RangeMap)) []).
Proof.
  apply (@Query_finds_breakpoint false INT_MIN INT_MAX fresh README_RangeMap
           README_S README_E 4 8%Z).
  - reflexivity.
  - apply Nat.lt_0_succ.
  - exact README_Build.
  - reflexivity.
Defined.

Lemma IList_entry_is_SlowCheck_witness :
  Vec.size (IList README_RangeMap) = Vec.size (Tab README_RangeMap)
  /\ (3 < Vec.size (Tab README_RangeMap) ->
      nth 3 (Vec.elems (IList README_RangeMap)) []
      = SlowCheck (nth 3 (Vec.elems (Tab README_RangeMap)) 0%Z)
          README_S README_E 4).
Proof.
  apply (@IList_entry_is_SlowCheck false INT_MIN INT_MAX README_S README_E 4
           fresh README_RangeMap).
  - apply Nat.lt_0_succ.
  - reflexivity.
  - reflexivity.
  - exact README_Build.
Defined.

Lemma Query_largest_index_witness :
  exists x,
    x < Vec.size (Tab README_RangeMap)
    /\ (nth x (Vec.elems (Tab README_RangeMap)) 0 <= 6)%Z
    /\ (forall y, y < Vec.size (Tab README_RangeMap) ->
                  (nth y (Vec.elems (Tab README_RangeMap)) 0 <= 6)%Z ->
                  y <= x)
    /\ Query README_RangeMap 6
       = Some (nth x (Vec.elems (IList README_RangeMap)) []).
Proof.
  apply (@Query_largest_index false INT_MIN INT_MAX README_S README_E 4
           fresh README_RangeMap).
  - apply Nat.lt_0_succ.
  - reflexivity.
  - reflexivity.
  - exact README_Build.
  - reflexivity.
  - reflexivity.
Defined.

Lemma Build_all_empty_witness :
  exists rm',
    Build false INT_MIN INT_MAX README_RangeMap
      (Some [3; 7]%Z) (Some [3; 7]%Z) 2 = Ok rm'
    /\ Vec.elems (Tab rm') = [INT_MIN; INT_MAX]
    /\ Vec.elems (IList rm') = [[]; []]
    /\ forall p, (INT_MIN <= p)%Z -> Query rm' p = Some [].
Proof.
  apply (@Build_all_empty false INT_MIN INT_MAX README_RangeMap
           [3; 7]%Z [3; 7]%Z 2).
  - apply Nat.lt_0_succ.
  - intros i Hi. destruct i as [|[|i]]; [reflexivity|reflexivity|lia].
Defined.

Lemma Build_replaces_tables_witness :
  match Build false INT_MIN INT_MAX fresh (Some README_S) (Some README_E) 4,
        Build false INT_MIN INT_MAX reversed_RangeMap
          (Some README_S) (Some README_E) 4 with
  | Ok r1, Ok r2 =>
      Vec.elems (Tab r1) = Vec.elems (Tab r2)
      /\ Vec.elems (IList r1) = Vec.elems (IList r2)
      /\ forall p, Query r1 p = Query r2 p
  | Abort f, Abort g => f = g
  | _, _ => False
  end.
Proof.
  apply (@Build_replaces_tables false INT_MIN INT_MAX README_S README_E
           fresh reversed_RangeMap 4).
  apply Nat.lt_0_succ.
Defined.

Lemma Query_among_reversed_witness :
  exists l,
    Query reversed_RangeMap 3 = Some l
    /\ forall i, i < 2 -> (rd reversed_S i <= rd reversed_E i)%Z ->
                 (In i l <-> (rd reversed_S i <= 3 < rd reversed_E i)%Z).
Proof.
  apply (@Query_among_reversed true INT_MIN INT_MAX reversed_S reversed_E 2
           fresh reversed_RangeMap).
  - apply Nat.lt_0_succ.
  - reflexivity.
  - reflexivity.
  - reflexivity.
Defined.

(** ** RMTest.cpp: the test driver *)

Lemma int_rem_nonneg (r : nat) (b : Z) :
  (0 < b)%Z ->
  exists v, int_rem (Z.of_nat r) b = Goes v /\ (0 <= v < b)%Z.
Proof.
  intros Hb. unfold int_rem.
  replace (b =? 0)%Z with false by (symmetry; apply Z.eqb_neq; lia).
  replace (b =? -1)%Z with false by (symmetry; apply Z.eqb_neq; lia).
  rewrite andb_false_r. cbn [orb].
  exists (Z.rem (Z.of_nat r) b). split; [reflexivity|].
  apply Z.rem_bound_pos; lia.
Qed.

Lemma int_of_in (z : Z) :
  (INT_MIN <= z <= INT_MAX)%Z -> int_of z = Goes z.
Proof.
  intros Hz. unfold int_of.
  now replace (in_T INT_MIN INT_MAX z) with true
    by (symmetry; apply in_T_spec; lia).
Qed.

Lemma assign_spec (v : list Z) (j : nat) (a : Z) :
  j < length v ->
  exists v',
    assign v j a = Goes v'
    /\ length v' = length v
    /\ rd v' j = a
    /\ forall i, i <> j -> rd v' i = rd v i.
Proof.
  intros Hj. unfold assign.
  replace (j <? length v) with true by (symmetry; now apply Nat.ltb_lt).
  eexists. split; [reflexivity|].
  assert (Hf : length (firstn j v) = j) by (rewrite length_firstn; lia).
  split; [|split].
  - rewrite length_app, Hf. cbn [length]. rewrite length_skipn. lia.
  - unfold rd. rewrite app_nth2 by lia. rewrite Hf, Nat.sub_diag.
    reflexivity.
  - intros i Hi. unfold rd.
    destruct (Nat.lt_ge_cases i j) as [Hlt|Hge].
    + rewrite app_nth1 by lia. rewrite nth_firstn.
      now replace (i <? j) with true by (symmetry; now apply Nat.ltb_lt).
    + rewrite app_nth2 by lia. rewrite Hf.
      destruct (i - j) as [|d] eqn:Hd; [lia|]. cbn [nth].
      rewrite nth_skipn. f_equal. lia.
Qed.

Lemma arrays_ok_intro (MINV MAXV : Z) (S_ E_ : list Z) (N : nat) :
  N <= length S_ -> N <= length E_ ->
  (forall i, i < N ->
             (MINV <= rd S_ i <= MAXV)%Z /\ (MINV <= rd E_ i <= MAXV)%Z) ->
  arrays_ok MINV MAXV S_ E_ N = true.
Proof.
  intros HS HE H. unfold arrays_ok.
  rewrite !andb_true_iff, !Nat.leb_le, forallb_forall.
  split; [split; assumption|]. intros i Hi. apply in_seq in Hi.
  rewrite andb_true_iff, !in_T_spec. apply H. lia.
Qed.

Lemma intervals_ok_intro (S_ E_ : list Z) (N : nat) :
  (forall i, i < N -> (rd S_ i <= rd E_ i)%Z) ->
  intervals_ok S_ E_ N = true.
Proof.
  intros H. unfold intervals_ok. rewrite forallb_forall.
  intros i Hi. apply in_seq in Hi. apply Z.leb_le, H. lia.
Qed.

Lemma list_eqb_spec (a b : list nat) : list_eqb a b = true <-> a = b.
Proof.
  unfold list_eqb. destruct (list_eq_dec Nat.eq_dec a b); split;
    auto; discriminate.
Qed.

Lemma check_Goes (rm : RangeMap) (S_ E_ : list Z) (ni : nat) (p : Z) :
  check rm S_ E_ ni p = Goes tt
  <-> Query rm p = Some (SlowCheck p S_ E_ ni).
Proof.
  unfold check. destruct (Query rm p) as [s1|]; cbn [of_option exec_bind].
  - destruct (list_eqb s1 (SlowCheck p S_ E_ ni)) eqn:He; cbn [negb].
    + apply list_eqb_spec in He. subst s1. tauto.
    + split; [discriminate|]. intros [= ->].
      assert (Ht : list_eqb (SlowCheck p S_ E_ ni) (SlowCheck p S_ E_ ni)
                   = true) by now apply list_eqb_spec.
      congruence.
  - split; discriminate.
Qed.

Section RunTestProofs.

Variable NDEBUG : bool.
Variable T : numeric.
Variable rand : nat -> nat.
Variable MAXA : Z.

(** The generator *)

Hypothesis MAXA_pos : (0 < MAXA)%Z.
Hypothesis MAXA_int : (MAXA <= INT_MAX)%Z.
Hypothesis of_int_exact : forall a, (0 <= a < MAXA)%Z -> of_int T a = a.

Lemma generate_spec (n : nat) :
  forall (j c : nat) (S_ E_ : list Z),
    length S_ = j + n -> length E_ = j + n ->
    exists S' E',
      generate T rand MAXA n j c S_ E_ = Goes (S', E', c + 2 * n)
      /\ length S' = j + n /\ length E' = j + n
      /\ (forall i, i < j -> rd S' i = rd S_ i /\ rd E' i = rd E_ i)
      /\ (forall i, j <= i < j + n ->
                    (0 <= rd S' i <= rd E' i)%Z /\ (rd E' i < MAXA)%Z).
Proof.
  induction n as [|n IH]; intros j c S_ E_ HS HE.
  - exists S_, E_. cbn [generate]. rewrite Nat.mul_0_r, Nat.add_0_r.
    split; [reflexivity|]. split; [assumption|]. split; [assumption|].
    split; [auto|]. intros i Hi. lia.
  - cbn [generate].
    destruct (@int_rem_nonneg (rand c) MAXA MAXA_pos) as (a & -> & Ha).
    cbn [exec_bind]. unfold INT_MAX in MAXA_int.
    rewrite int_of_in by (unfold INT_MIN, INT_MAX; lia). cbn [exec_bind].
    destruct (@int_rem_nonneg (rand (c + 1)) (MAXA - a) ltac:(lia))
      as (r & -> & Hr).
    cbn [exec_bind].
    rewrite int_of_in by (unfold INT_MIN, INT_MAX; lia). cbn [exec_bind].
    rewrite !of_int_exact by lia.
    destruct (@assign_spec S_ j a ltac:(lia)) as (S1 & -> & HS1 & HSj & HSo).
    destruct (@assign_spec E_ j (r + a)%Z ltac:(lia))
      as (E1 & -> & HE1 & HEj & HEo).
    cbn [exec_bind].
    destruct (IH (j + 1) (c + 2) S1 E1 ltac:(lia) ltac:(lia))
      as (S' & E' & Hg & HlS & HlE & Hold & Hnew).
    exists S', E'. rewrite Hg.
    split; [do 2 f_equal; lia|]. split; [lia|]. split; [lia|]. split.
    + intros i Hi. destruct (Hold i ltac:(lia)) as [-> ->].
      rewrite HSo, HEo by lia. auto.
    + intros i Hi. destruct (Nat.eq_dec i j) as [->|Hne].
      * destruct (Hold j ltac:(lia)) as [-> ->]. rewrite HSj, HEj. lia.
      * apply Hnew. lia.
Qed.

Lemma random_case_spec (c : nat) :
  exists N S_ E_,
    random_case T rand MAXA c = Goes (N, S_, E_, c + 1 + 2 * N)
    /\ 1 <= N <= 99
    /\ length S_ = N /\ length E_ = N
    /\ forall i, i < N ->
                 (0 <= rd S_ i <= rd E_ i)%Z /\ (rd E_ i < MAXA)%Z.
Proof.
  unfold random_case.
  destruct (@int_rem_nonneg (rand c) 99 ltac:(lia)) as (r & -> & Hr).
  cbn [exec_bind].
  rewrite int_of_in by (unfold INT_MIN, INT_MAX; lia). cbn [exec_bind].
  set (N := Z.to_nat (r + 1)).
  destruct (@generate_spec N 0 (c + 1) (repeat 0%Z N) (repeat 0%Z N))
    as (S' & E' & Hg & HlS & HlE & _ & Hnew);
    try (now rewrite repeat_length).
  rewrite Hg. cbn [exec_bind fst snd].
  exists N, S', E'. split; [reflexivity|].
  split; [unfold N; lia|]. split; [assumption|]. split; [assumption|].
  intros i Hi. apply Hnew. lia.
Qed.

End RunTestProofs.

(** The least start and the greatest end *)

Lemma min_max_spec (S_ E_ : list Z) (cnt : nat) :
  forall (i : nat) (n x : Z),
    let nx := min_max cnt i S_ E_ n x in
    ((fst nx <= n)%Z
     /\ (forall j, i <= j < i + cnt -> (fst nx <= rd S_ j)%Z)
     /\ (fst nx = n \/ exists j, i <= j < i + cnt /\ fst nx = rd S_ j))
    /\ ((x <= snd nx)%Z
        /\ (forall j, i <= j < i + cnt -> (rd E_ j <= snd nx)%Z)
        /\ (snd nx = x \/ exists j, i <= j < i + cnt /\ snd nx = rd E_ j)).
Proof.
  induction cnt as [|cnt IH]; intros i n x; cbn [min_max].
  - cbn [fst snd]. repeat split; try lia; auto.
  - specialize (IH (i + 1)
                   (if (rd S_ i <? n)%Z then rd S_ i else n)
                   (if (rd E_ i >? x)%Z then rd E_ i else x)).
    cbv zeta in IH |- *.
    set (nx := min_max cnt (i + 1) S_ E_ _ _) in *.
    destruct IH as [(Hn & HnS & Hnw) (Hx & HxE & Hxw)].
    split.
    + destruct (Z.ltb_spec (rd S_ i) n) as [Hlt|Hge].
      * split; [lia|]. split.
        { intros j Hj. destruct (Nat.eq_dec j i) as [->|Hne]; [lia|].
          apply HnS. lia. }
        right. destruct Hnw as [Heq|[j [Hj Heq]]].
        { exists i. split; [lia|assumption]. }
        { exists j. split; [lia|assumption]. }
      * split; [lia|]. split.
        { intros j Hj. destruct (Nat.eq_dec j i) as [->|Hne]; [lia|].
          apply HnS. lia. }
        destruct Hnw as [Heq|[j [Hj Heq]]]; [now left|].
        right. exists j. split; [lia|assumption].
    + rewrite Z.gtb_ltb in *.
      destruct (Z.ltb_spec x (rd E_ i)) as [Hlt|Hge].
      * split; [lia|]. split.
        { intros j Hj. destruct (Nat.eq_dec j i) as [->|Hne]; [lia|].
          apply HxE. lia. }
        right. destruct Hxw as [Heq|[j [Hj Heq]]].
        { exists i. split; [lia|assumption]. }
        { exists j. split; [lia|assumption]. }
      * split; [lia|]. split.
        { intros j Hj. destruct (Nat.eq_dec j i) as [->|Hne]; [lia|].
          apply HxE. lia. }
        destruct Hxw as [Heq|[j [Hj Heq]]]; [now left|].
        right. exists j. split; [lia|assumption].
Qed.

(* n is the least start and x the greatest end of the ni intervals *)
Lemma min_max_all (S_ E_ : list Z) (ni : nat) :
  0 < ni ->
  let nx := min_max (ni - 1) 1 S_ E_ (rd S_ 0) (rd E_ 0) in
  (forall j, j < ni -> (fst nx <= rd S_ j)%Z /\ (rd E_ j <= snd nx)%Z)
  /\ (exists j, j < ni /\ fst nx = rd S_ j)
  /\ (exists j, j < ni /\ snd nx = rd E_ j).
Proof.
  intros Hni nx.
  destruct (@min_max_spec S_ E_ (ni - 1) 1 (rd S_ 0) (rd E_ 0))
    as [(Hn & HnS & Hnw) (Hx & HxE & Hxw)].
  fold nx in Hn, HnS, Hnw, Hx, HxE, Hxw.
  split; [|split].
  - intros j Hj. destruct j as [|j]; [lia|].
    split; [apply HnS|apply HxE]; lia.
  - destruct Hnw as [Heq|[j [Hj Heq]]].
    + exists 0. split; [lia|assumption].
    + exists j. split; [lia|assumption].
  - destruct Hxw as [Heq|[j [Hj Heq]]].
    + exists 0. split; [lia|assumption].
    + exists j. split; [lia|assumption].
Qed.

(** The loop over the query points *)

Lemma exec_bind_Goes_tt (m : exec unit) : (m ;;~ Goes tt) = m.
Proof. destruct m as [[]| | | |]; reflexivity. Qed.

Section RangeLoop.

Variable T : numeric.
Variable rm : RangeMap.
Variables S_ E_ : list Z.
Variable ni : nat.
Variable x : Z.

(* The loop is not entered *)
Lemma range_loop_skips (fuel : nat) (i hi : Z) :
  arith T (x + 1) = Some hi -> (hi < i)%Z ->
  range_loop T fuel rm S_ E_ ni x i = Goes tt.
Proof.
  intros Hhi Hi. destruct fuel; cbn [range_loop]; rewrite Hhi;
    cbn [of_option exec_bind];
    now replace (i <=? hi)%Z with false by (symmetry; apply Z.leb_gt; lia).
Qed.

Lemma range_loop_passes (lo hi : Z) :
  arith T (x + 1) = Some hi ->
  (forall i, (lo <= i <= hi)%Z -> arith T (i + 1) = Some (i + 1)%Z) ->
  forall (fuel : nat) (i : Z),
    (lo <= i)%Z ->
    (forall p, (i <= p <= hi)%Z ->
               Query rm p = Some (SlowCheck p S_ E_ ni)) ->
    (hi - i + 1 <= Z.of_nat fuel)%Z ->
    range_loop T fuel rm S_ E_ ni x i = Goes tt.
Proof.
  intros Hhi Hstep.
  induction fuel as [|fuel IH]; intros i Hlo Hq Hf; cbn [range_loop];
    rewrite Hhi; cbn [of_option exec_bind].
  - now replace (i <=? hi)%Z with false by (symmetry; apply Z.leb_gt; lia).
  - destruct (Z.leb_spec i hi) as [Hle|Hgt]; [|reflexivity].
    rewrite (proj2 (check_Goes rm S_ E_ ni i)) by (apply Hq; lia).
    cbn [exec_bind]. rewrite Hstep by lia. cbn [of_option exec_bind].
    apply IH; [lia| |lia]. intros p Hp. apply Hq. lia.
Qed.

(* Where the arithmetic of T is exact, the loop passes only if Query
   agrees with SlowCheck at every point from i to x + 1 *)
Lemma range_loop_sound :
  (forall z v, arith T z = Some v -> v = z) ->
  forall (fuel : nat) (i : Z),
    range_loop T fuel rm S_ E_ ni x i = Goes tt ->
    forall p, (i <= p <= x + 1)%Z ->
              Query rm p = Some (SlowCheck p S_ E_ ni).
Proof.
  intros Hexact.
  induction fuel as [|fuel IH]; intros i Hr p Hp; cbn [range_loop] in Hr;
    destruct (arith T (x + 1)) as [hi|] eqn:Hhi; try discriminate;
    apply Hexact in Hhi; subst hi; cbn [of_option exec_bind] in Hr;
    replace (i <=? x + 1)%Z with true in Hr
      by (symmetry; apply Z.leb_le; lia);
    [discriminate|].
  destruct (check rm S_ E_ ni i) as [[]| | | |] eqn:Hc; try discriminate.
  cbn [exec_bind] in Hr.
  destruct (arith T (i + 1)) as [i'|] eqn:Hi'; try discriminate.
  apply Hexact in Hi'. subst i'. cbn [of_option exec_bind] in Hr.
  destruct (Z.eq_dec p i) as [->|Hne]; [now apply check_Goes|].
  apply (IH (i + 1)%Z Hr). lia.
Qed.

End RangeLoop.

(** Every test case passes *)

Section TestPasses.

Variable NDEBUG : bool.
Variable T : numeric.
Variable rand : nat -> nat.
Variable MAXA : Z.
Variable fuel : nat.

Hypothesis MAXA_pos : (0 < MAXA)%Z.
Hypothesis MAXA_int : (MAXA <= INT_MAX)%Z.
Hypothesis T_min : (min_ T <= 0)%Z.
Hypothesis T_max : (MAXA < max_ T)%Z.
Hypothesis of_int_exact : forall a, (0 <= a < MAXA)%Z -> of_int T a = a.
Hypothesis arith_exact :
  forall z, (min_ T <= z <= max_ T)%Z -> arith T z = Some z.
Hypothesis minus_one :
  exists v, arith T (-1) = Some v /\ (min_ T <= v)%Z /\ (-1 <= v)%Z.
Hypothesis enough : (MAXA + 2 <= Z.of_nat fuel)%Z.

Lemma run_queries_passes (rm rm' : RangeMap) (S_ E_ : list Z) (ni : nat) :
  0 < ni -> length S_ = ni -> length E_ = ni ->
  (forall i, i < ni ->
             (0 <= rd S_ i <= rd E_ i)%Z /\ (rd E_ i < MAXA)%Z) ->
  Build NDEBUG (min_ T) (max_ T) rm (Some S_) (Some E_) ni = Ok rm' ->
  run_queries T fuel rm' S_ E_ ni = Goes tt.
Proof.
  intros Hni HlS HlE Hv Hb.
  assert (Harr : arrays_ok (min_ T) (max_ T) S_ E_ ni = true).
  { apply arrays_ok_intro; try lia. intros i Hi.
    destruct (Hv i Hi). lia. }
  assert (Hint : intervals_ok S_ E_ ni = true).
  { apply intervals_ok_intro. intros i Hi. destruct (Hv i Hi). lia. }
  assert (Hq : forall p, (min_ T <= p <= max_ T)%Z ->
                         Query rm' p = Some (SlowCheck p S_ E_ ni)).
  { intros p Hp.
    apply (@Build_Query_SlowCheck NDEBUG (min_ T) (max_ T) S_ E_ ni rm rm' p);
      auto; [lia|]. now apply in_T_spec. }
  unfold run_queries.
  destruct (@min_max_all S_ E_ ni Hni) as (_ & [j [Hj Hn]] & [j' [Hj' Hx]]).
  set (nx := min_max (ni - 1) 1 S_ E_ (rd S_ 0) (rd E_ 0)) in *.
  rewrite (proj2 (check_Goes rm' S_ E_ ni (max_ T))) by (apply Hq; lia).
  cbn [exec_bind].
  rewrite (proj2 (check_Goes rm' S_ E_ ni (min_ T))) by (apply Hq; lia).
  cbn [exec_bind].
  destruct (Hv j Hj) as [HSj HEj]. destruct (Hv j' Hj') as [HSj' HEj'].
  assert (Hlo : exists lo, arith T (fst nx - 1) = Some lo
                           /\ (min_ T <= lo)%Z /\ (-1 <= lo)%Z).
  { destruct (Z.eq_dec (fst nx) 0) as [H0|H0].
    - rewrite H0. exact minus_one.
    - exists (fst nx - 1)%Z. split; [apply arith_exact|]; lia. }
  destruct Hlo as (lo & -> & Hlo1 & Hlo2). cbn [of_option exec_bind].
  apply range_loop_passes with (lo := lo) (hi := (snd nx + 1)%Z).
  - apply arith_exact. lia.
  - intros i Hi. apply arith_exact. lia.
  - lia.
  - intros p Hp. apply Hq. lia.
  - lia.
Qed.

Lemma test_case_passes (c : nat) :
  exists c', test_case NDEBUG T rand MAXA fuel c = Goes c'.
Proof.
  unfold test_case.
  destruct (@random_case_spec T rand MAXA MAXA_pos MAXA_int of_int_exact c)
    as (N & S_ & E_ & -> & HN & HlS & HlE & Hv).
  cbn [exec_bind].
  assert (Hint : intervals_ok S_ E_ N = true).
  { apply intervals_ok_intro. intros i Hi. destruct (Hv i Hi). lia. }
  destruct (@Build_Ok NDEBUG (min_ T) (max_ T) S_ E_ N fresh
              ltac:(lia) Hint) as [rm' Hb].
  rewrite Hb. cbn [of_result exec_bind].
  rewrite (@run_queries_passes fresh rm' S_ E_ N) by (auto; lia).
  cbn [exec_bind]. eauto.
Qed.

Lemma RunTest_loop_passes (k : nat) :
  forall c, exists c', RunTest_loop NDEBUG T rand MAXA k fuel c = Goes c'.
Proof.
  induction k as [|k IH]; intros c; cbn [RunTest_loop]; [eauto|].
  destruct (test_case_passes c) as [c' ->]. cbn [exec_bind]. apply IH.
Qed.

Lemma RunTest_Returns_true (nt : Z) :
  RunTest NDEBUG T rand MAXA nt fuel = Returns true.
Proof.
  unfold RunTest. destruct (RunTest_loop_passes (Z.to_nat nt) 0) as [c' ->].
  reflexivity.
Qed.

End TestPasses.

(** The two integral types *)

Lemma int_exact (z v : Z) : arith int_ z = Some v -> v = z.
Proof.
  cbn [arith int_]. destruct (in_T INT_MIN INT_MAX z); congruence.
Qed.

Lemma UINT_wrap (z : Z) :
  (0 <= z <= UINT_MAX)%Z -> (z mod (UINT_MAX + 1) = z)%Z.
Proof. intros Hz. apply Z.mod_small. lia. Qed.

Section RunTestSpecification.

Variable NDEBUG : bool.
Variable rand : nat -> nat.

(** X9.  The generator of RunTest: whatever rand() returns, a test case
    has between 1 and 99 intervals with 0 <= S[j] <= E[j] < MAXA (never
    a reversed interval, possibly an empty one), and it takes 1 + 2 * ni
    calls of rand(); MAXA = 0 is a division by zero. *)
Theorem random_case_intervals (T : numeric) (MAXA : Z) (c : nat) :
  (MAXA = 0%Z -> random_case T rand MAXA c = Undefined)
  /\ ((0 < MAXA <= INT_MAX)%Z ->
      (forall a, (0 <= a < MAXA)%Z -> of_int T a = a) ->
      exists ni S_ E_,
        random_case T rand MAXA c = Goes (ni, S_, E_, c + 1 + 2 * ni)
        /\ 1 <= ni <= 99
        /\ length S_ = ni /\ length E_ = ni
        /\ forall j, j < ni ->
                     (0 <= rd S_ j <= rd E_ j)%Z /\ (rd E_ j < MAXA)%Z).
Proof.
  split.
  - intros ->. unfold random_case.
    destruct (@int_rem_nonneg (rand c) 99 ltac:(lia)) as (r & -> & Hr).
    cbn [exec_bind].
    rewrite int_of_in by (unfold INT_MIN, INT_MAX; lia). cbn [exec_bind].
    destruct (Z.to_nat (r + 1)) as [|n] eqn:Hn; [lia|]. reflexivity.
  - intros [Hpos Hint] Hof. now apply random_case_spec.
Qed.

(** X10.  RunTest<int> and RunTest<unsigned int> return true for every
    sequence of values of rand(), any number of test cases and any MAXA
    with 0 < MAXA < INT_MAX, with or without NDEBUG: no assertion of
    Build fails, nothing is undefined, and Query agrees with SlowCheck at
    every point that is tested.  (The loop over the query points makes at
    most MAXA + 2 iterations.) *)
Theorem RunTest_passes (T : numeric) (MAXA nt : Z) (fuel : nat) :
  T = int_ \/ T = unsigned_int ->
  (0 < MAXA < INT_MAX)%Z ->
  (MAXA + 2 <= Z.of_nat fuel)%Z ->
  RunTest NDEBUG T rand MAXA nt fuel = Returns true.
Proof.
  intros HT HM Hf. unfold INT_MAX in HM.
  destruct HT as [-> | ->]; apply RunTest_Returns_true;
    cbn [min_ max_ of_int arith int_ unsigned_int];
    unfold INT_MIN, INT_MAX, UINT_MAX; try lia; auto.
  - intros z Hz.
    now replace (in_T (-2147483648) 2147483647 z) with true
      by (symmetry; apply in_T_spec; lia).
  - exists (-1)%Z. split; [reflexivity|lia].
  - intros a Ha. apply Z.mod_small. lia.
  - intros z Hz. f_equal. apply Z.mod_small. lia.
  - exists 4294967295%Z. split; [reflexivity|lia].
Qed.

End RunTestSpecification.

(** X11.  The tests of RunTest<int> are a sound check of any object: if
    they pass for a case of ni > 0 intervals, then Query agrees with
    SlowCheck at INT_MAX, at INT_MIN and at every point from the least
    start minus one to the greatest end plus one. *)
Theorem run_queries_sound
        (fuel : nat) (rm : RangeMap) (S_ E_ : list Z) (ni : nat) :
  0 < ni ->
  run_queries int_ fuel rm S_ E_ ni = Goes tt ->
  Query rm INT_MAX = Some (SlowCheck INT_MAX S_ E_ ni)
  /\ Query rm INT_MIN = Some (SlowCheck INT_MIN S_ E_ ni)
  /\ forall p j j',
       j < ni -> j' < ni -> (rd S_ j - 1 <= p <= rd E_ j' + 1)%Z ->
       Query rm p = Some (SlowCheck p S_ E_ ni).
Proof.
  intros Hni Hr. unfold run_queries in Hr.
  destruct (@min_max_all S_ E_ ni Hni) as (Hall & _ & _).
  set (nx := min_max (ni - 1) 1 S_ E_ (rd S_ 0) (rd E_ 0)) in *.
  cbn [max_ min_ int_] in Hr.
  destruct (check rm S_ E_ ni INT_MAX) as [[]| | | |] eqn:Hmax;
    try discriminate.
  cbn [exec_bind] in Hr.
  destruct (check rm S_ E_ ni INT_MIN) as [[]| | | |] eqn:Hmin;
    try discriminate.
  cbn [exec_bind] in Hr.
  destruct (arith int_ (fst nx - 1)) as [lo|] eqn:Hlo; try discriminate.
  apply int_exact in Hlo. subst lo. cbn [of_option exec_bind] in Hr.
  split; [now apply check_Goes|]. split; [now apply check_Goes|].
  intros p j j' Hj Hj' Hp.
  apply (@range_loop_sound int_ rm S_ E_ ni (snd nx) int_exact
           fuel (fst nx - 1)%Z Hr).
  destruct (Hall j Hj) as [HS _]. destruct (Hall j' Hj') as [_ HE]. lia.
Qed.

(** X12.  A gap of RunTest<unsigned int>: when an interval of the case
    starts at 0, the first query point n - 1 wraps to UINT_MAX and the
    loop from (min - 1) to (max + 1) is not entered, so that, for any
    object, the outcome of the tests is that of the two queries at
    UINT_MAX and at 0. *)
Theorem unsigned_range_unchecked
        (fuel : nat) (rm : RangeMap) (S_ E_ : list Z) (ni : nat) :
  0 < ni ->
  (forall j, j < ni ->
             (0 <= rd S_ j)%Z /\ (0 <= rd E_ j < UINT_MAX - 1)%Z) ->
  (exists j, j < ni /\ rd S_ j = 0%Z) ->
  run_queries unsigned_int fuel rm S_ E_ ni
  = (check rm S_ E_ ni UINT_MAX ;;~ check rm S_ E_ ni 0).
Proof.
  intros Hni Hv [j0 [Hj0 H0]]. unfold run_queries.
  destruct (@min_max_all S_ E_ ni Hni) as (Hall & [j [Hj Hn]] & [j' [Hj' Hx]]).
  set (nx := min_max (ni - 1) 1 S_ E_ (rd S_ 0) (rd E_ 0)) in *.
  assert (Hn0 : fst nx = 0%Z).
  { destruct (Hall j0 Hj0) as [Hle _]. destruct (Hv j Hj) as [Hge _]. lia. }
  destruct (Hv j' Hj') as [_ HE]. unfold UINT_MAX in HE.
  cbn [max_ min_ arith unsigned_int]. rewrite Hn0.
  cbn [of_option exec_bind].
  rewrite (@range_loop_skips unsigned_int rm S_ E_ ni (snd nx) fuel
             _ (snd nx + 1)%Z).
  - destruct (check rm S_ E_ ni UINT_MAX) as [[]| | | |]; try reflexivity.
    cbn [exec_bind]. apply exec_bind_Goes_tt.
  - cbn [arith unsigned_int]. f_equal. apply Z.mod_small.
    unfold UINT_MAX. lia.
  - unfold UINT_MAX. change ((0 - 1) mod (4294967295 + 1))%Z
      with 4294967295%Z. lia.
Qed.

Lemma RunTest_passes_witness :
  RunTest false int_ (fun c => c) 1000 333 1002 = Returns true.
Proof.
  apply RunTest_passes.
  - left. reflexivity.
  - unfold INT_MAX. lia.
  - apply Z.leb_le. reflexivity.
Defined.

Lemma run_queries_sound_witness :
  Query README_RangeMap INT_MAX = Some (SlowCheck INT_MAX README_S README_E 4)
  /\ Query README_RangeMap INT_MIN
     = Some (SlowCheck INT_MIN README_S README_E 4)
  /\ forall p j j',
       j < 4 -> j' < 4 ->
       (rd README_S j - 1 <= p <= rd README_E j' + 1)%Z ->
       Query README_RangeMap p = Some (SlowCheck p README_S README_E 4).
Proof.
  apply (@run_queries_sound 30 README_RangeMap README_S README_E 4).
  - apply Nat.lt_0_succ.
  - vm_compute. reflexivity.
Defined.

Lemma unsigned_range_unchecked_witness :
  run_queries unsigned_int 0 fresh [0; 3]%Z [5; 4]%Z 2
  = (check fresh [0; 3]%Z [5; 4]%Z 2 UINT_MAX
     ;;~ check fresh [0; 3]%Z [5; 4]%Z 2 0).
Proof.
  apply unsigned_range_unchecked.
  - apply Nat.lt_0_succ.
  - intros j Hj. destruct j as [|[|j]]; [vm_compute|vm_compute|lia];
      intuition discriminate.
  - exists 0. split; [apply Nat.lt_0_succ|reflexivity].
Defined.
